(** * Audit-log analysis: transaction reconstruction and aggregation

    A shallow embedding of [src/parser.ts] (field tokenizer, timestamp
    normalizer, grouper, classifier) and of the aggregation closures of the
    dashboard page ([finalFilteredRuns], [companyCodeBreakdown],
    [requestTypeBreakdown], [avgProcessingTime]).

    Modelling conventions.
    - A JavaScript string is a sequence of UTF-16 code units.  The model
      covers the code units U+0000..U+00FF, one [ascii] each, so a string is
      a [list ascii]; white space, case mapping and the character classes
      are the ECMAScript ones restricted to that range.
    - A [Date] is its time value: milliseconds since the epoch as a [Z];
      an invalid date (time value NaN) is [None].
    - [Map] and [Set] keep insertion order: association lists and lists; a
      plain object used as a table is an association list too, listed by
      [Object.entries] with its array-index keys first.
    - A value that may be [null] or [undefined] is an [option].
    - Counts, lengths and time values are integers; the mean duration and
      what is derived from it are binary64 numbers, primitive floats. *)

From Stdlib Require Import Ascii String.
From Stdlib Require Import List Bool Arith ZArith Lia.
From Stdlib Require Import Permutation Sorted.
From Stdlib Require Import Floats Uint63 DecimalString.
Import ListNotations.

Set Implicit Arguments.

(** ** JavaScript primitives *)

Module JS.

Definition str := list ascii.

Definition lit (s : string) : str := list_ascii_of_string s.

Definition str_eqb (a b : str) : bool :=
  if list_eq_dec ascii_dec a b then true else false.

Definition dquote : ascii := "034"%char.
Definition comma : ascii := ","%char.
Definition dot : ascii := "."%char.
Definition CR : ascii := "013"%char.
Definition LF : ascii := "010"%char.

Definition code (c : ascii) : nat := nat_of_ascii c.

(** WhiteSpace and LineTerminator code points below U+0100: TAB, LF, VT, FF,
    CR, SP and NBSP.  This is what [trim] removes and what [\s] matches. *)
Definition isWhite (c : ascii) : bool :=
  let n := code c in
  ((9 <=? n) && (n <=? 13)) || (n =? 32) || (n =? 160).

Definition isDigit (c : ascii) : bool :=
  let n := code c in (48 <=? n) && (n <=? 57).

Definition isUpper (c : ascii) : bool :=
  let n := code c in (65 <=? n) && (n <=? 90).

Definition isLower (c : ascii) : bool :=
  let n := code c in (97 <=? n) && (n <=? 122).

Definition isLetter (c : ascii) : bool := isUpper c || isLower c.

(** [String.prototype.toLowerCase] on one code unit: A-Z and the Latin-1
    capitals U+00C0..U+00DE (U+00D7 excepted) move up by 32. *)
Definition lowerChar (c : ascii) : ascii :=
  let n := code c in
  if isUpper c then ascii_of_nat (n + 32)
  else if (192 <=? n) && (n <=? 222) && negb (n =? 215) then ascii_of_nat (n + 32)
  else c.

Definition toLowerCase (s : str) : str := map lowerChar s.

(** [toUpperCase] is only applied to strings of ASCII letters (the captured
    request-type code). *)
Definition upperAscii (c : ascii) : ascii :=
  if isLower c then ascii_of_nat (code c - 32) else c.

Definition toUpperCase (s : str) : str := map upperAscii s.

Fixpoint trimStart (s : str) : str :=
  match s with
  | c :: r => if isWhite c then trimStart r else s
  | [] => []
  end.

Definition trimEnd (s : str) : str := rev (trimStart (rev s)).

Definition trim (s : str) : str := trimEnd (trimStart s).

Fixpoint startsWith (p s : str) : bool :=
  match p, s with
  | [], _ => true
  | a :: p', b :: s' => Ascii.eqb a b && startsWith p' s'
  | _ :: _, [] => false
  end.

Definition endsWith (p s : str) : bool := startsWith (rev p) (rev s).

Fixpoint includes (p s : str) : bool :=
  startsWith p s ||
  match s with
  | [] => false
  | _ :: r => includes p r
  end.

(** [s.substring(a, b)]: the arguments are clamped to [0, length] (a [nat]
    is never negative) and swapped when [a > b]. *)
Definition substring (a b : nat) (s : str) : str :=
  let a' := Nat.min a (length s) in
  let b' := Nat.min b (length s) in
  let lo := Nat.min a' b' in
  let hi := Nat.max a' b' in
  firstn (hi - lo) (skipn lo s).

(** [s.padEnd(n, c)] with a one-character filler. *)
Definition padEnd (n : nat) (c : ascii) (s : str) : str :=
  s ++ repeat c (n - length s).

(** [s.split(c)] for a one-character separator: never empty. *)
Fixpoint splitOn (c : ascii) (s : str) : list str :=
  match s with
  | [] => [[]]
  | x :: r =>
      if Ascii.eqb x c then [] :: splitOn c r
      else match splitOn c r with
           | h :: t => (x :: h) :: t
           | [] => [[x]]
           end
  end.

(** [parseInt(s, 10)]: leading white space, an optional sign, then the
    longest run of decimal digits; [None] is NaN (no digit found). *)
Definition digitVal (c : ascii) : Z := Z.of_nat (code c - 48).

Fixpoint digitsPrefix (s : str) : str :=
  match s with
  | c :: r => if isDigit c then c :: digitsPrefix r else []
  | [] => []
  end.

Definition decimalValue (ds : str) : Z :=
  fold_left (fun acc c => 10 * acc + digitVal c)%Z ds 0%Z.

Definition parseInt (s : str) : option Z :=
  let s1 := trimStart s in
  let '(neg, s2) :=
    match s1 with
    | "-"%char :: r => (true, r)
    | "+"%char :: r => (false, r)
    | _ => (false, s1)
    end in
  match digitsPrefix s2 with
  | [] => None
  | ds => Some (if neg then - decimalValue ds else decimalValue ds)%Z
  end.

(** [arr.indexOf(x)] on an array of strings; [None] is -1. *)
Fixpoint indexOf (x : str) (l : list str) : option nat :=
  match l with
  | [] => None
  | y :: r => if str_eqb y x then Some 0
              else option_map S (indexOf x r)
  end.

(** Truthiness of a string. *)
Definition truthy (s : str) : bool :=
  match s with [] => false | _ => true end.

End JS.

(** ** ECMAScript date arithmetic (the parts [Date.UTC] and the UTC getters use) *)

Module DateTime.

Local Open Scope Z_scope.

Definition msPerSecond : Z := 1000.
Definition msPerMinute : Z := 60000.
Definition msPerHour : Z := 3600000.
Definition msPerDay : Z := 86400000.

Definition Day (t : Z) : Z := t / msPerDay.
Definition TimeWithinDay (t : Z) : Z := t mod msPerDay.

Definition isLeap (y : Z) : bool :=
  ((y mod 4 =? 0) && negb (y mod 100 =? 0)) || (y mod 400 =? 0).

Definition DaysInYear (y : Z) : Z := if isLeap y then 366 else 365.

Definition DayFromYear (y : Z) : Z :=
  365 * (y - 1970) + (y - 1969) / 4 - (y - 1901) / 100 + (y - 1601) / 400.

(** Day number, within its year, of the first day of month [m] (0-based). *)
Definition monthStart (leap : bool) (m : Z) : Z :=
  let l := if leap then 1 else 0 in
  match m with
  | 0 => 0
  | 1 => 31
  | 2 => 59 + l
  | 3 => 90 + l
  | 4 => 120 + l
  | 5 => 151 + l
  | 6 => 181 + l
  | 7 => 212 + l
  | 8 => 243 + l
  | 9 => 273 + l
  | 10 => 304 + l
  | _ => 334 + l
  end.

(** [MakeDay]: months outside 0..11 carry into the year, and the day of the
    month is added as a plain offset, so it may run over the month's end. *)
Definition MakeDay (year month date : Z) : Z :=
  let ym := year + month / 12 in
  let mn := month mod 12 in
  DayFromYear ym + monthStart (isLeap ym) mn + date - 1.

Definition MakeTime (hour min sec ms : Z) : Z :=
  hour * msPerHour + min * msPerMinute + sec * msPerSecond + ms.

Definition MakeDate (day time : Z) : Z := day * msPerDay + time.

(** [TimeClip]: NaN outside +-8.64e15 ms. *)
Definition TimeClip (t : Z) : option Z :=
  if Z.abs t <=? 8640000000000000 then Some t else None.

(** [Date.UTC(year, month, date, hours, minutes, seconds, ms)] on integers:
    a year in 0..99 stands for 1900 + year. *)
Definition UTC (year month date hours minutes seconds ms : Z) : option Z :=
  let yr := if (0 <=? year) && (year <=? 99) then 1900 + year else year in
  TimeClip (MakeDate (MakeDay yr month date) (MakeTime hours minutes seconds ms)).

(** The UTC getters.  [YearFromTime t] is the largest [y] with
    [DayFromYear y <= Day t]; it is at most one away from the estimate that
    uses the mean year length of 146097/400 days. *)
Definition YearFromTime (t : Z) : Z :=
  let d := Day t in
  let y0 := 1970 + (d * 400) / 146097 in
  if DayFromYear (y0 + 1) <=? d then y0 + 1
  else if DayFromYear y0 <=? d then y0
  else y0 - 1.

Definition DayWithinYear (t : Z) : Z := Day t - DayFromYear (YearFromTime t).

Definition InLeapYear (t : Z) : bool := isLeap (YearFromTime t).

(** The month (0-based) that holds day [d] of a year. *)
Definition monthOfDay (leap : bool) (d : Z) : Z :=
  if d <? monthStart leap 1 then 0
  else if d <? monthStart leap 2 then 1
  else if d <? monthStart leap 3 then 2
  else if d <? monthStart leap 4 then 3
  else if d <? monthStart leap 5 then 4
  else if d <? monthStart leap 6 then 5
  else if d <? monthStart leap 7 then 6
  else if d <? monthStart leap 8 then 7
  else if d <? monthStart leap 9 then 8
  else if d <? monthStart leap 10 then 9
  else if d <? monthStart leap 11 then 10
  else 11.

Definition MonthFromTime (t : Z) : Z := monthOfDay (InLeapYear t) (DayWithinYear t).

Definition DateFromTime (t : Z) : Z :=
  DayWithinYear t - monthStart (InLeapYear t) (MonthFromTime t) + 1.

Definition HourFromTime (t : Z) : Z := (t / msPerHour) mod 24.
Definition MinFromTime (t : Z) : Z := (t / msPerMinute) mod 60.
Definition SecFromTime (t : Z) : Z := (t / msPerSecond) mod 60.
Definition msFromTime (t : Z) : Z := t mod msPerSecond.

(** A UTC calendar reading of an instant, month 1-based as in ISO 8601:
    what [toISOString] prints. *)
Record Civil := mkCivil {
  cYear : Z; cMonth : Z; cDay : Z;
  cHour : Z; cMinute : Z; cSecond : Z; cMilli : Z }.

Definition civilOf (t : Z) : Civil :=
  mkCivil (YearFromTime t) (MonthFromTime t + 1) (DateFromTime t)
          (HourFromTime t) (MinFromTime t) (SecFromTime t) (msFromTime t).

(** The number of days of month [m] (0-based). *)
Definition monthLength (leap : bool) (m : Z) : Z :=
  match m with
  | 1 => if leap then 29 else 28
  | 3 | 5 | 8 | 10 => 30
  | _ => 31
  end.

(** The number of days of month [m] (1-based) of year [y]. *)
Definition daysInMonth (y m : Z) : Z := monthLength (isLeap y) (m - 1).

(** The components name a real calendar date and time of day. *)
Definition validCivil (c : Civil) : Prop :=
  1 <= cMonth c <= 12 /\ 1 <= cDay c <= daysInMonth (cYear c) (cMonth c) /\
  0 <= cHour c <= 23 /\ 0 <= cMinute c <= 59 /\ 0 <= cSecond c <= 59 /\
  0 <= cMilli c <= 999.

End DateTime.

(** ** The parser: [src/parser.ts] *)

Module Parser.

Import JS.

(** *** Field tokenizer *)

Fixpoint countQuotes (s : str) : nat :=
  match s with
  | [] => 0
  | c :: r => if Ascii.eqb c dquote then S (countQuotes r) else countQuotes r
  end.

(** [line.split(csvSplitRegex)]: the regular expression matches a comma whose
    look-ahead succeeds: the rest of the line, up to its end, is any number
    of pairs of quote-terminated runs followed by a quote-free run.  That is
    a comma with an even number of quote characters after it. *)
Fixpoint csvSplit (s : str) : list str :=
  match s with
  | [] => [[]]
  | c :: r =>
      if Ascii.eqb c comma && Nat.even (countQuotes r) then [] :: csvSplit r
      else match csvSplit r with
           | h :: t => (c :: h) :: t
           | [] => [[c]]
           end
  end.

(** The global replacement of two quote characters by one: matches are
    taken left to right and do not overlap. *)
Fixpoint collapseQuotes (s : str) : str :=
  match s with
  | a :: r =>
      match r with
      | b :: r' =>
          if Ascii.eqb a dquote && Ascii.eqb b dquote
          then dquote :: collapseQuotes r'
          else a :: collapseQuotes r
      | [] => [a]
      end
  | [] => []
  end.

Definition cleanField (field : str) : str :=
  let cleanedField := trim field in
  if startsWith [dquote] cleanedField && endsWith [dquote] cleanedField
  then collapseQuotes (substring 1 (length cleanedField - 1) cleanedField)
  else cleanedField.

Definition parseCsvLine (line : str) : list str :=
  map cleanField (csvSplit line).

(** *** Timestamp normalizer *)

Definition parseTimestamp (ts : str) : option Z :=
  let numericString := filter (fun c => isDigit c || Ascii.eqb c dot) ts in
  let parts := splitOn dot numericString in
  let mainPart := hd [] parts in
  if length mainPart <? 14 then None
  else
    let year := parseInt (substring 0 4 mainPart) in
    let month := option_map (fun m => m - 1)%Z (parseInt (substring 4 6 mainPart)) in
    let day := parseInt (substring 6 8 mainPart) in
    let hour := parseInt (substring 8 10 mainPart) in
    let minute := parseInt (substring 10 12 mainPart) in
    let second := parseInt (substring 12 14 mainPart) in
    let fractionalPart := if 1 <? length parts then nth 1 parts [] else lit "0" in
    let millisecond := parseInt (padEnd 3 "0"%char (substring 0 3 fractionalPart)) in
    match year, month, day, hour, minute, second, millisecond with
    | Some y, Some mo, Some d, Some h, Some mi, Some s, Some ms =>
        (* [new Date(Date.UTC(...))], then the [isNaN(date.getTime())] test *)
        DateTime.UTC y mo d h mi s ms
    | _, _, _, _, _, _, _ => None
    end.

(** *** Grouper *)

Record Entry := mkEntry {
  message : str;
  type : str;
  timestamp : option Z }.

Record Group := mkGroup {
  entries : list Entry;
  coCd : str;
  timestamps : list Z }.

(** A [Map<string, V>]: association list in insertion order, keys distinct. *)
Definition SMap (V : Type) := list (str * V).

Fixpoint mapHas {V} (k : str) (m : SMap V) : bool :=
  match m with
  | [] => false
  | (k', _) :: r => str_eqb k' k || mapHas k r
  end.

Fixpoint mapGet {V} (k : str) (m : SMap V) : option V :=
  match m with
  | [] => None
  | (k', v) :: r => if str_eqb k' k then Some v else mapGet k r
  end.

(** [m.set(k, v)]: replaces in place, or appends a new key. *)
Fixpoint mapSet {V} (k : str) (v : V) (m : SMap V) : SMap V :=
  match m with
  | [] => [(k, v)]
  | (k', v') :: r => if str_eqb k' k then (k', v) :: r else (k', v') :: mapSet k v r
  end.

(** Mutation of the object stored under [k] (the map holds a reference). *)
Fixpoint mapMutate {V} (k : str) (f : V -> V) (m : SMap V) : SMap V :=
  match m with
  | [] => []
  | (k', v) :: r => if str_eqb k' k then (k', f v) :: r else (k', v) :: mapMutate k f r
  end.

Record Cols := mkCols {
  docIdIndex : nat;
  docVerIndex : option nat;
  messageIndex : nat;
  coCdIndex : nat;
  timestampIndex : nat;
  typeIndex : nat }.

Definition dash : str := lit "-".

Definition makeKey (documentId docVer companyCode : str) : str :=
  documentId ++ dash ++ docVer ++ dash ++ companyCode.

(** One iteration of the loop over [dataRows]. *)
Definition processRow (c : Cols) (grouped : SMap Group) (line : str) : SMap Group :=
  let fields := parseCsvLine line in
  if (length fields <=? docIdIndex c) || (length fields <=? messageIndex c)
     || (length fields <=? coCdIndex c) || (length fields <=? timestampIndex c)
     || (length fields <=? typeIndex c)
  then grouped
  else
    let documentId := trim (nth (docIdIndex c) fields []) in
    let companyCode := trim (nth (coCdIndex c) fields []) in
    if truthy documentId && truthy companyCode then
      let docVer :=
        match docVerIndex c with
        | Some i => match nth_error fields i with
                    | Some f => trim f
                    | None => []
                    end
        | None => []
        end in
      let uniqueKey := makeKey documentId docVer companyCode in
      let message := trim (nth (messageIndex c) fields []) in
      let timestampStr := trim (nth (timestampIndex c) fields []) in
      let timestamp := parseTimestamp timestampStr in
      let type := trim (nth (typeIndex c) fields []) in
      let grouped1 :=
        if negb (mapHas uniqueKey grouped)
        then mapSet uniqueKey (mkGroup [] companyCode []) grouped
        else grouped in
      let grouped2 :=
        if truthy message
        then mapMutate uniqueKey
               (fun g => mkGroup (entries g ++ [mkEntry message type timestamp])
                                 (coCd g) (timestamps g)) grouped1
        else grouped1 in
      match timestamp with
      | Some t =>
          mapMutate uniqueKey
            (fun g => mkGroup (entries g) (coCd g) (timestamps g ++ [t])) grouped2
      | None => grouped2
      end
    else grouped.

Definition groupRows (c : Cols) (dataRows : list str) : SMap Group :=
  fold_left (processRow c) dataRows [].

(** *** Classifier *)

Record Run := mkRun {
  uniqueKey : str;
  companyCode : option str;
  requestTypes : list str;
  isIntercompany : bool;
  isAutoApproved : bool;
  isSecondLevelApproval : bool;
  isErrorTransaction : bool;
  isWbsOwnerMissing : bool;
  isCostCenterOwnerMissing : bool;
  isFallbackTransaction : bool;
  transactionDate : Z;
  startTime : option Z;
  endTime : option Z }.

Definition autoApprovalMessage : str :=
  lit "Document assessment executed with the result Approval NOT required".
Definition secondLevelApprovalMessage : str :=
  lit "2nd Approval is mandated as document amount is".
Definition errorMessage : str :=
  lit "An Error occured while determining the approvers".
Definition startProcessingMessage : str :=
  lit "Running the document assessment, based on outcome: proceed or end".
Definition endProcessingMessage : str :=
  lit "Completed execution of the Financial Approvals engine - technical success".
Definition wbsOwnerMissingMessage : str :=
  lit "Failed to identify WBS Element object owner for object".
Definition costCenterOwnerMissingMessage : str :=
  lit "Failed to identify Cost Center object owner for object".
Definition fallbackMessagePrefix : str :=
  lit "Using HR Hierarchy data with key".
Definition intercompanyText : str :=
  lit "Intercompany supplier identified with supplier ID".
Definition nonIntercompanyText : str :=
  lit "Non Intercompany supplier identified with supplier ID".

(** The threshold pattern, flag [i]: the literal [Threshold identified:], a
    lazy run of arbitrary characters, a slash, three or four letters (the
    group [docType], greedy), one or more white-space characters and the
    literal [values:].  Matching is the backtracking search of [match]: the
    leftmost start, then the shortest lazy run, then four letters before
    three. *)

(** A literal under flag [i]: both sides are compared after upper-casing;
    returns what follows the literal. *)
Fixpoint ciPrefix (p s : str) : option str :=
  match p, s with
  | [], _ => Some s
  | a :: p', b :: s' =>
      if Ascii.eqb (upperAscii a) (upperAscii b) then ciPrefix p' s' else None
  | _ :: _, [] => None
  end.

(** After the letters: white space, all of it, then [values:]. *)
Definition afterCode (s : str) : bool :=
  match s with
  | w :: _ =>
      isWhite w &&
      match ciPrefix (lit "values:") (trimStart s) with
      | Some _ => true
      | None => false
      end
  | [] => false
  end.

(** After the slash: [docType] and the rest of the pattern. *)
Definition tryCode (s : str) : option str :=
  match s with
  | a :: b :: c :: r =>
      if isLetter a && isLetter b && isLetter c then
        match r with
        | d :: r' =>
            if isLetter d && afterCode r' then Some [a; b; c; d]
            else if afterCode r then Some [a; b; c] else None
        | [] => None
        end
      else None
  | _ => None
  end.

Fixpoint lazyScan (s : str) : option str :=
  match s with
  | [] => None
  | c :: r =>
      match (if Ascii.eqb c "/"%char then tryCode r else None) with
      | Some g => Some g
      | None => lazyScan r
      end
  end.

Fixpoint thresholdMatch (s : str) : option str :=
  match s with
  | [] => None
  | _ :: r =>
      match ciPrefix (lit "Threshold identified:") s with
      | Some rest =>
          match lazyScan rest with
          | Some g => Some g
          | None => thresholdMatch r
          end
      | None => thresholdMatch r
      end
  end.

(** [Set.prototype.add], insertion order kept. *)
Definition setAdd (x : str) (s : list str) : list str :=
  if existsb (str_eqb x) s then s else s ++ [x].

(** [Array.prototype.sort(cmp)]: a stable sort; an element goes before the
    first later element it does not compare greater than. *)
Fixpoint insertBy {A} (cmp : A -> A -> Z) (x : A) (l : list A) : list A :=
  match l with
  | [] => [x]
  | y :: r => if (cmp x y <=? 0)%Z then x :: l else y :: insertBy cmp x r
  end.

Definition sortBy {A} (cmp : A -> A -> Z) (l : list A) : list A :=
  fold_right (insertBy cmp) [] l.

(** [(a, b) => b.timestamp - a.timestamp]; the entries compared have passed
    the filter, so their timestamps are present. *)
Definition byTimeDesc (a b : Entry) : Z :=
  match timestamp a, timestamp b with
  | Some ta, Some tb => (tb - ta)%Z
  | _, _ => 0%Z
  end.

Definition isSome {A} (o : option A) : bool :=
  match o with Some _ => true | None => false end.

(** [Math.max(...ts)] of a non-empty list. *)
Definition maxTime (ts : list Z) : Z :=
  match ts with
  | [] => 0%Z
  | t :: r => fold_left Z.max r t
  end.

(** The body of the loop over [data.entries]: the run under construction and
    the set [requestTypesForRun]. *)
Definition classifyEntry (st : Run * list str) (entry : Entry) : Run * list str :=
  let '(run, requestTypesForRun) := st in
  let message := message entry in
  let type := type entry in
  let requestTypesForRun :=
    match thresholdMatch message with
    | Some docType => setAdd (toUpperCase docType) requestTypesForRun
    | None => requestTypesForRun
    end in
  let flag (cond old : bool) := if cond then true else old in
  (mkRun (uniqueKey run) (companyCode run) (requestTypes run)
     (flag (includes intercompanyText message
            && negb (includes nonIntercompanyText message)) (isIntercompany run))
     (flag (str_eqb message autoApprovalMessage) (isAutoApproved run))
     (flag (startsWith secondLevelApprovalMessage message) (isSecondLevelApproval run))
     (flag (str_eqb message errorMessage && str_eqb type (lit "E")) (isErrorTransaction run))
     (flag (startsWith wbsOwnerMissingMessage message) (isWbsOwnerMissing run))
     (flag (startsWith costCenterOwnerMissingMessage message) (isCostCenterOwnerMissing run))
     (flag (startsWith fallbackMessagePrefix message) (isFallbackTransaction run))
     (transactionDate run) (startTime run) (endTime run),
   requestTypesForRun).

Definition markerTime (marker : str) (es : list Entry) : option Z :=
  match sortBy byTimeDesc
          (filter (fun e => str_eqb (message e) marker && isSome (timestamp e)) es) with
  | e :: _ => timestamp e
  | [] => None
  end.

(** The callback of [Array.from(groupedByTransaction.entries()).map]. *)
Definition classify (kd : str * Group) : Run :=
  let '(key, data) := kd in
  let latestTimestamp :=
    if 0 <? length (timestamps data) then maxTime (timestamps data) else 0%Z in
  let startTime := markerTime startProcessingMessage (entries data) in
  let endTime := markerTime endProcessingMessage (entries data) in
  let run0 := mkRun key (Some (coCd data)) [] false false false false false false false
                    latestTimestamp None None in
  let '(run, requestTypesForRun) := fold_left classifyEntry (entries data) (run0, []) in
  mkRun (uniqueKey run) (companyCode run) requestTypesForRun
        (isIntercompany run) (isAutoApproved run) (isSecondLevelApproval run)
        (isErrorTransaction run) (isWbsOwnerMissing run) (isCostCenterOwnerMissing run)
        (isFallbackTransaction run) (transactionDate run) startTime endTime.

(** *** [processLogFile] *)

Inductive AnalysisResult :=
| Runs (runs : list Run)
| Error (error : str).

(** [fileContent.split(/\r?\n/)]: a line ends at LF or at CR LF. *)
Fixpoint splitLines (s : str) : list str :=
  let push (c : ascii) (l : list str) :=
    match l with
    | h :: t => (c :: h) :: t
    | [] => [[c]]
    end in
  match s with
  | [] => [[]]
  | c :: r =>
      if Ascii.eqb c LF then [] :: splitLines r
      else match r with
           | d :: r' =>
               if Ascii.eqb c CR && Ascii.eqb d LF then [] :: splitLines r'
               else push c (splitLines r)
           | [] => [[c]]
           end
  end.

Definition nonBlank (line : str) : bool := negb (str_eqb (trim line) []).

Definition errDocId : str :=
  lit "Could not find required column: 'Document ID'. Please check the column header.".
Definition errCoCd : str :=
  lit "Could not find required column: 'CoCd'. Please check the column header.".
Definition errMessage : str :=
  lit "Could not find required column: 'Message'. This column is needed for analysis.".
Definition errTimeStamp : str :=
  lit "Could not find required column: 'TimeStamp'. This column is needed for the monthly chart.".
Definition errType : str :=
  lit "Could not find required column: 'Type'. This column is needed for error analysis.".
Definition errEmpty : str :=
  lit "The sheet appears to be empty or contains only a header.".

(** The function after its first statement, on the non-blank lines. *)
Definition processLines (lines : list str) : AnalysisResult :=
  if length lines <? 2 then Error errEmpty
  else
    let header := map (fun h => toLowerCase (trim h)) (parseCsvLine (nth 0 lines [])) in
    let docIdIndex := indexOf (lit "document id") header in
    let docVerIndex := indexOf (lit "document version") header in
    let messageIndex := indexOf (lit "message") header in
    let coCdIndex := indexOf (lit "cocd") header in
    let timestampIndex := indexOf (lit "timestamp") header in
    let typeIndex := indexOf (lit "type") header in
    match docIdIndex with
    | None => Error errDocId
    | Some di =>
    match coCdIndex with
    | None => Error errCoCd
    | Some ci =>
    match messageIndex with
    | None => Error errMessage
    | Some mi =>
    match timestampIndex with
    | None => Error errTimeStamp
    | Some ti =>
    match typeIndex with
    | None => Error errType
    | Some yi =>
        let dataRows := skipn 1 lines in
        let groupedByTransaction :=
          groupRows (mkCols di docVerIndex mi ci ti yi) dataRows in
        Runs (map classify groupedByTransaction)
    end end end end end.

Definition processLogFile (fileContent : str) : AnalysisResult :=
  processLines (filter nonBlank (splitLines fileContent)).

End Parser.

(** ** The aggregation closures of the dashboard page *)

Module Dashboard.

Import JS Parser.

(** The React state the closures read. *)
Record State := mkState {
  allRuns : list Run;
  selectedCompanyCodes : list str;      (* a [Set<string>] *)
  selectedRequestType : option str }.

Definition setHas (x : str) (s : list str) : bool := existsb (str_eqb x) s.

(** [run.companyCode && selectedCompanyCodes.has(run.companyCode)] *)
Definition inSelectedCodes (codes : list str) (run : Run) : bool :=
  match companyCode run with
  | Some c => truthy c && setHas c codes
  | None => false
  end.

(** [run.requestTypes.includes(t)] *)
Definition hasRequestType (t : str) (run : Run) : bool :=
  existsb (str_eqb t) (requestTypes run).

(** A selected request type counts when it is truthy. *)
Definition activeRequestType (st : State) : option str :=
  match selectedRequestType st with
  | Some t => if truthy t then Some t else None
  | None => None
  end.

Definition finalFilteredRuns (st : State) : list Run :=
  let runs := allRuns st in
  let runs :=
    if 0 <? length (selectedCompanyCodes st)
    then filter (inSelectedCodes (selectedCompanyCodes st)) runs
    else runs in
  match activeRequestType st with
  | Some t => filter (hasRequestType t) runs
  | None => runs
  end.

(** *** Counting objects

    A plain object used as a counter table: own properties in creation
    order.  [Object.entries] lists the array-index keys first, in ascending
    numeric order, then the other keys in creation order. *)
Definition Counts := list (str * nat).

(** Names that every plain object inherits from [Object.prototype].  Reading
    such a key from a fresh counter table yields the inherited member, not
    [undefined], so the loop does not count it as a number; the model does
    not follow the computation there and answers [None]. *)
Definition inheritedKey (k : str) : bool :=
  existsb (str_eqb k)
    [lit "constructor"; lit "__proto__"; lit "hasOwnProperty";
     lit "isPrototypeOf"; lit "propertyIsEnumerable"; lit "toString";
     lit "toLocaleString"; lit "valueOf"; lit "__defineGetter__";
     lit "__defineSetter__"; lit "__lookupGetter__"; lit "__lookupSetter__"].

Fixpoint getCount (k : str) (o : Counts) : nat :=
  match o with
  | [] => 0
  | (k', n) :: r => if str_eqb k' k then n else getCount k r
  end.

(** [o[k] = (o[k] || 0) + 1] *)
Definition bump (o : Counts) (k : str) : option Counts :=
  if inheritedKey k then None
  else Some (mapSet k (getCount k o + 1) o).

(** The numeric value of an array-index key: a canonical decimal numeral not
    above 2^32 - 2. *)
Definition arrayIndex (k : str) : option Z :=
  match k with
  | [] => None
  | c :: r =>
      if forallb isDigit k && (negb (Ascii.eqb c "0"%char) || (length r =? 0))
         && (decimalValue k <=? 4294967294)%Z
      then Some (decimalValue k) else None
  end.

Definition indexKeyOrder (a b : str * nat) : Z :=
  match arrayIndex (fst a), arrayIndex (fst b) with
  | Some x, Some y => (x - y)%Z
  | _, _ => 0%Z
  end.

Definition objectEntries (o : Counts) : list (str * nat) :=
  sortBy indexKeyOrder (filter (fun kv => isSome (arrayIndex (fst kv))) o)
  ++ filter (fun kv => negb (isSome (arrayIndex (fst kv)))) o.

(** [(a, b) => b.count - a.count] *)
Definition byCountDesc (a b : str * nat) : Z := (Z.of_nat (snd b) - Z.of_nat (snd a))%Z.

(** A [for] loop whose body may leave the model. *)
Fixpoint foldM {A B} (f : A -> B -> option A) (l : list B) (a : A) : option A :=
  match l with
  | [] => Some a
  | x :: r => match f a x with
              | Some a' => foldM f r a'
              | None => None
              end
  end.

(** Items are pairs (company code, transactions) and (type, documents). *)
Definition companyCodeBreakdown (st : State) : option (list (str * nat)) :=
  let runsToConsider :=
    match activeRequestType st with
    | Some t => filter (hasRequestType t) (allRuns st)
    | None => allRuns st
    end in
  let step (companyCodeCounts : Counts) (run : Run) :=
    match companyCode run with
    | Some c => if truthy c then bump companyCodeCounts c else Some companyCodeCounts
    | None => Some companyCodeCounts
    end in
  option_map (fun companyCodeCounts => sortBy byCountDesc (objectEntries companyCodeCounts))
             (foldM step runsToConsider []).

Definition requestTypeBreakdown (st : State) : option (list (str * nat)) :=
  let runsToConsider :=
    if 0 <? length (selectedCompanyCodes st)
    then filter (inSelectedCodes (selectedCompanyCodes st)) (allRuns st)
    else allRuns st in
  let step (requestTypeCounts : Counts) (run : Run) :=
    foldM bump (requestTypes run) requestTypeCounts in
  option_map (fun requestTypeCounts => sortBy byCountDesc (objectEntries requestTypeCounts))
             (foldM step runsToConsider []).

(** *** Numbers

    A Number is an IEEE 754 binary64 value: a primitive [float].  Time values
    and lengths are integers below 2^53 in magnitude, which [ofZ] converts
    exactly. *)

Definition ofZ (z : Z) : float :=
  if (z <? 0)%Z then PrimFloat.opp (PrimFloat.of_uint63 (Uint63.of_Z (- z)))
  else PrimFloat.of_uint63 (Uint63.of_Z z).

(** [Math.floor]: a finite non-integral value is [v / 2^k] for an integer [v]
    and [k > 0]; its floor is a quotient of integers. *)
Definition mathFloor (x : float) : float :=
  match Prim2SF x with
  | S754_finite s m e =>
      if (e <? 0)%Z then
        let v := if s then Z.neg m else Z.pos m in
        ofZ (v / 2 ^ (- e))
      else x
  | _ => x
  end.

(** [Math.round]: the nearest integer, a tie going towards +infinity. *)
Definition mathRound (x : float) : float :=
  match Prim2SF x with
  | S754_finite s m e =>
      if (e <? 0)%Z then
        let v := if s then Z.neg m else Z.pos m in
        let d := (2 ^ (- e))%Z in
        ofZ (if (d <=? 2 * (v mod d))%Z then v / d + 1 else v / d)
      else x
  | _ => x
  end.

Definition decimal (z : Z) : str :=
  lit (NilZero.string_of_int (Z.to_int z)).

(** Number-to-string conversion inside a template literal, for the values
    [Math.floor] and [Math.round] return: integers print in decimal (they
    stay far below 10^21 here, where the exponent form would start). *)
Definition numberToString (x : float) : str :=
  match Prim2SF x with
  | S754_zero _ => lit "0"
  | S754_infinity false => lit "Infinity"
  | S754_infinity true => lit "-Infinity"
  | S754_nan => lit "NaN"
  | S754_finite s m e =>
      let v := if s then Z.neg m else Z.pos m in
      if (e <? 0)%Z then decimal (v / 2 ^ (- e)) else decimal (v * 2 ^ e)
  end.

Definition avgProcessingTime (st : State) : str :=
  let validRuns :=
    filter (fun run => isSome (startTime run) && isSome (endTime run))
           (finalFilteredRuns st) in
  if length validRuns =? 0 then lit "N/A"
  else
    let totalDuration :=
      fold_left
        (fun acc run =>
           match endTime run, startTime run with
           | Some e, Some s => let duration := (ofZ e - ofZ s)%float in (acc + duration)%float
           | _, _ => acc
           end)
        validRuns 0%float in
    let avgDurationMs := (totalDuration / ofZ (Z.of_nat (length validRuns)))%float in
    if PrimFloat.is_nan avgDurationMs then lit "N/A"
    else if PrimFloat.eqb avgDurationMs 0 then lit "0 sec"
    else
      let totalSeconds := (avgDurationMs / 1000)%float in
      let seconds := mathFloor totalSeconds in
      let milliseconds := mathRound ((totalSeconds - seconds) * 1000)%float in
      if PrimFloat.ltb 0 seconds
      then numberToString seconds ++ lit " sec, " ++ numberToString milliseconds ++ lit " ms"
      else numberToString milliseconds ++ lit " ms".

(** *** Summary counters *)

(** [finalFilteredRuns.filter(run => run.flag).length] *)
Definition countWhere (flag : Run -> bool) (st : State) : nat :=
  length (filter flag (finalFilteredRuns st)).

Definition intercompanyTransactionCount := countWhere isIntercompany.
Definition autoApprovedCount := countWhere isAutoApproved.
Definition secondLevelApprovalCount := countWhere isSecondLevelApproval.
Definition errorTransactionCount := countWhere isErrorTransaction.
Definition wbsOwnerMissingCount := countWhere isWbsOwnerMissing.
Definition costCenterOwnerMissingCount := countWhere isCostCenterOwnerMissing.
Definition fallbackTransactionCount := countWhere isFallbackTransaction.

(** *** Monthly series *)

(** [s.padStart(n, c)] with a one-character filler. *)
Definition padStart (n : nat) (c : ascii) (s : str) : str :=
  repeat c (n - length s) ++ s.

(** The bucket of an instant: the UTC year, a dash, the UTC month in two
    digits. *)
Definition monthKey (t : Z) : str :=
  decimal (DateTime.YearFromTime t) ++ lit "-"
  ++ padStart 2 "0"%char (decimal (DateTime.MonthFromTime t + 1)).

(** [monthlyData].  The transaction date of a Run is a [Date] object, which
    is always truthy, so every Run is counted.  The order of the result is
    that of [localeCompare], which depends on the host's locale data and is a
    parameter here. *)
Definition monthlyData (localeCompare : str -> str -> Z) (st : State)
  : option (list (str * nat)) :=
  if length (finalFilteredRuns st) =? 0 then Some []
  else
    option_map
      (fun monthCounts =>
         sortBy (fun a b => localeCompare (fst a) (fst b)) (objectEntries monthCounts))
      (foldM (fun (monthCounts : Counts) (run : Run) =>
                bump monthCounts (monthKey (transactionDate run)))
             (finalFilteredRuns st) []).

(** *** Selection handlers *)

(** [handleCompanyCodeSelect]: a copy of the set with the code removed when
    it is a member, added otherwise. *)
Definition handleCompanyCodeSelect (companyCode : str) (st : State) : State :=
  let prev := selectedCompanyCodes st in
  let newSet :=
    if setHas companyCode prev
    then filter (fun c => negb (str_eqb c companyCode)) prev
    else prev ++ [companyCode] in
  mkState (allRuns st) newSet (selectedRequestType st).

(** [handleRequestTypeSelect]: [prev === type ? null : type] *)
Definition handleRequestTypeSelect (type : str) (st : State) : State :=
  mkState (allRuns st) (selectedCompanyCodes st)
    match selectedRequestType st with
    | Some prev => if str_eqb prev type then None else Some type
    | None => Some type
    end.

Definition handleResetRequestType (st : State) : State :=
  mkState (allRuns st) (selectedCompanyCodes st) None.

Definition handleResetSelection (st : State) : State :=
  mkState (allRuns st) [] None.

(** *** Downloads *)

(** [keys.join(LF)] *)
Fixpoint joinLF (keys : list str) : str :=
  match keys with
  | [] => []
  | k :: rest =>
      match rest with
      | [] => k
      | _ :: _ => k ++ LF :: joinLF rest
      end
  end.

(** The text a download handler puts in the file; [None] when the handler
    returns without offering a file. *)
Definition downloadContent (keys : list str) : option str :=
  if length keys =? 0 then None else Some (joinLF keys).

Definition handleDownload (st : State) : option str :=
  downloadContent (map uniqueKey (finalFilteredRuns st)).

(** The seven flag downloads differ in the flag only. *)
Definition handleFlagDownload (flag : Run -> bool) (st : State) : option str :=
  downloadContent (map uniqueKey (filter flag (finalFilteredRuns st))).

Definition handleIntercompanyDownload := handleFlagDownload isIntercompany.
Definition handleAutoApprovedDownload := handleFlagDownload isAutoApproved.
Definition handleSecondLevelApprovalDownload := handleFlagDownload isSecondLevelApproval.
Definition handleErrorTransactionDownload := handleFlagDownload isErrorTransaction.
Definition handleWbsOwnerMissingDownload := handleFlagDownload isWbsOwnerMissing.
Definition handleCostCenterOwnerMissingDownload := handleFlagDownload isCostCenterOwnerMissing.
Definition handleFallbackTransactionDownload := handleFlagDownload isFallbackTransaction.

End Dashboard.

(** ** Notions the statements are phrased in *)

Module Spec.

Import JS Parser Dashboard.

(** *** Field tokenizer *)

(** [fields.join(",")] *)
Fixpoint joinComma (fields : list str) : str :=
  match fields with
  | [] => []
  | f :: rest =>
      match rest with
      | [] => f
      | _ :: _ => f ++ comma :: joinComma rest
      end
  end.

(** The positions, in the line, of the separators at which the line was cut
    into [fields]; [off] is the position where the first field starts. *)
Fixpoint cutPositions (off : nat) (fields : list str) : list nat :=
  match fields with
  | [] => []
  | f :: rest =>
      match rest with
      | [] => []
      | _ :: _ => (off + length f) :: cutPositions (off + length f + 1) rest
      end
  end.

(** The separator at position [i] lies outside every quoted region: an even
    number of quote characters precedes it. *)
Definition outsideQuotes (line : str) (i : nat) : Prop :=
  Nat.even (countQuotes (firstn i line)) = true.

Definition quoteFree (s : str) : Prop := ~ In dquote s.

(** Below, Q stands for the quote character.  The line [aQ,b]: one quote
    character, then a comma. *)
Definition openQuoteLine : str := lit "a" ++ [dquote] ++ lit ",b".

(** The line [Qa,bQQcQ] of the specification's example: a quoted field
    holding a comma and a doubled quote. *)
Definition quotedLine : str :=
  [dquote] ++ lit "a,b" ++ [dquote; dquote] ++ lit "c" ++ [dquote].

(** *** Timestamp normalizer *)

(** What is left of the field once every character that is neither a digit
    nor a decimal point is removed. *)
Definition numericString (ts : str) : str :=
  filter (fun c => isDigit c || Ascii.eqb c dot) ts.

(** The digits before the first decimal point. *)
Definition mainPart (ts : str) : str := hd [] (splitOn dot (numericString ts)).

(** The digits between the first decimal point and the next one, or [0] when
    there is no decimal point. *)
Definition fractionalPart (ts : str) : str :=
  match splitOn dot (numericString ts) with
  | _ :: f :: _ => f
  | _ => lit "0"
  end.

Definition digitsAt (a n : nat) (s : str) : Z := decimalValue (firstn n (skipn a s)).

(** The fixed-width reading yyyyMMddHHmmss of the main part, with the first
    three fractional digits, padded with zeros, as milliseconds. *)
Definition readCivil (ts : str) : DateTime.Civil :=
  let m := mainPart ts in
  DateTime.mkCivil (digitsAt 0 4 m) (digitsAt 4 2 m) (digitsAt 6 2 m)
                   (digitsAt 8 2 m) (digitsAt 10 2 m) (digitsAt 12 2 m)
                   (decimalValue (padEnd 3 "0"%char (firstn 3 (fractionalPart ts)))).

(** *** Grouper *)

(** What the loop body reads from a data row that it does not skip. *)
Record RowInfo := mkRowInfo {
  riDocumentId : str;
  riDocVer : str;
  riCompanyCode : str;
  riMessage : str;
  riType : str;
  riTimestamp : option Z }.

Definition rowInfo (c : Cols) (line : str) : option RowInfo :=
  let fields := parseCsvLine line in
  if (length fields <=? docIdIndex c) || (length fields <=? messageIndex c)
     || (length fields <=? coCdIndex c) || (length fields <=? timestampIndex c)
     || (length fields <=? typeIndex c)
  then None
  else
    let documentId := trim (nth (docIdIndex c) fields []) in
    let companyCode := trim (nth (coCdIndex c) fields []) in
    if truthy documentId && truthy companyCode then
      Some (mkRowInfo documentId
              match docVerIndex c with
              | Some i => match nth_error fields i with
                          | Some f => trim f
                          | None => []
                          end
              | None => []
              end
              companyCode
              (trim (nth (messageIndex c) fields []))
              (trim (nth (typeIndex c) fields []))
              (parseTimestamp (trim (nth (timestampIndex c) fields []))))
    else None.

(** The (document identifier, document version, company code) triple. *)
Definition riTriple (i : RowInfo) : str * str * str :=
  (riDocumentId i, riDocVer i, riCompanyCode i).

Definition riKey (i : RowInfo) : str :=
  makeKey (riDocumentId i) (riDocVer i) (riCompanyCode i).

(** The entries and the timestamps a row appends to its group. *)
Definition riEntries (i : RowInfo) : list Entry :=
  if truthy (riMessage i) then [mkEntry (riMessage i) (riType i) (riTimestamp i)] else [].

Definition riTimes (i : RowInfo) : list Z :=
  match riTimestamp i with Some t => [t] | None => [] end.

Definition addRow (grouped : SMap Group) (i : RowInfo) : SMap Group :=
  mapMutate (riKey i)
    (fun g => mkGroup (entries g ++ riEntries i) (coCd g) (timestamps g ++ riTimes i))
    (if mapHas (riKey i) grouped then grouped
     else mapSet (riKey i) (mkGroup [] (riCompanyCode i) []) grouped).

Definition rowInfos (c : Cols) (rows : list str) : list RowInfo :=
  flat_map (fun r => match rowInfo c r with Some i => [i] | None => [] end) rows.

Definition withKey (k : str) (infos : list RowInfo) : list RowInfo :=
  filter (fun i => str_eqb (riKey i) k) infos.

(** The company code of the first row with key [k]. *)
Definition firstCode (k : str) (infos : list RowInfo) : str :=
  match withKey k infos with
  | i :: _ => riCompanyCode i
  | [] => []
  end.

(** The group the rows with key [k] build: their entries and timestamps in
    row order, and the company code of the first of them. *)
Definition groupOf (k : str) (infos : list RowInfo) : Group :=
  mkGroup (flat_map riEntries (withKey k infos)) (firstCode k infos)
          (flat_map riTimes (withKey k infos)).

(** The map [grouped] is what the rows [infos] build. *)
Definition Grouped (grouped : SMap Group) (infos : list RowInfo) : Prop :=
  NoDup (map fst grouped) /\
  (forall k, In k (map fst grouped) <-> exists i, In i infos /\ riKey i = k) /\
  (forall k g, mapGet k grouped = Some g -> g = groupOf k infos).

(** The position of a key among the entries of the map: the identity of the
    group, and of the Run made from it. *)
Definition slot (k : str) (grouped : SMap Group) : option nat :=
  indexOf k (map fst grouped).

Definition dashFree (s : str) : Prop := ~ In "-"%char s.

(** The Runs of the data rows [rows] under the column layout [c]. *)
Definition runsOf (c : Cols) (rows : list str) : list Run :=
  map classify (groupRows c rows).

(** *** Classifier *)

Definition flags (r : Run) : list bool :=
  [isIntercompany r; isAutoApproved r; isSecondLevelApproval r; isErrorTransaction r;
   isWbsOwnerMissing r; isCostCenterOwnerMissing r; isFallbackTransaction r].

Definition orFlags (a b : list bool) : list bool :=
  map (fun p => fst p || snd p) (combine a b).

(** The flag predicates, one entry at a time. *)
Definition entryFlags (e : Entry) : list bool :=
  [includes intercompanyText (message e) && negb (includes nonIntercompanyText (message e));
   str_eqb (message e) autoApprovalMessage;
   startsWith secondLevelApprovalMessage (message e);
   str_eqb (message e) errorMessage && str_eqb (type e) (lit "E");
   startsWith wbsOwnerMissingMessage (message e);
   startsWith costCenterOwnerMissingMessage (message e);
   startsWith fallbackMessagePrefix (message e)].

(** The flags of a group: each one holds when some entry satisfies its
    predicate. *)
Definition groupFlags (es : list Entry) : list bool :=
  [existsb (fun e => nth 0 (entryFlags e) false) es;
   existsb (fun e => nth 1 (entryFlags e) false) es;
   existsb (fun e => nth 2 (entryFlags e) false) es;
   existsb (fun e => nth 3 (entryFlags e) false) es;
   existsb (fun e => nth 4 (entryFlags e) false) es;
   existsb (fun e => nth 5 (entryFlags e) false) es;
   existsb (fun e => nth 6 (entryFlags e) false) es].

(** The parsed timestamps of the entries whose message is exactly [marker]. *)
Definition markerTimes (marker : str) (es : list Entry) : list Z :=
  flat_map (fun e =>
    if str_eqb (message e) marker
    then match timestamp e with Some t => [t] | None => [] end
    else []) es.

(** [o] is the latest of the instants [ts], absent when there is none. *)
Definition isLatest (ts : list Z) (o : option Z) : Prop :=
  match o with
  | None => ts = []
  | Some t => In t ts /\ forall t', In t' ts -> (t' <= t)%Z
  end.

(** *** [processLogFile] *)

Definition linesOf (fileContent : str) : list str :=
  filter nonBlank (splitLines fileContent).

(** The header line carries a column named [name], compared in lower case
    after trimming. *)
Definition headerHas (lines : list str) (name : str) : Prop :=
  exists f, In f (parseCsvLine (nth 0 lines [])) /\ toLowerCase (trim f) = name.

Definition requiredColumns : list str :=
  [lit "document id"; lit "cocd"; lit "message"; lit "timestamp"; lit "type"].

Definition errorTexts : list str :=
  [errEmpty; errDocId; errCoCd; errMessage; errTimeStamp; errType].

(** *** Aggregator *)

Definition occurrences (k : str) (ks : list str) : nat :=
  length (filter (str_eqb k) ks).

(** The state of a counter table after the keys [seen] were counted. *)
Definition Counted (o : Counts) (seen : list str) : Prop :=
  NoDup (map fst o) /\
  forall k, getCount k o = occurrences k seen /\
            (In k (map fst o) <-> (0 < occurrences k seen)%nat).

(** The company codes that count, one per Run that has one. *)
Definition codeKeys (rs : list Run) : list str :=
  flat_map (fun r => match companyCode r with
                     | Some c => if truthy c then [c] else []
                     | None => []
                     end) rs.

(** The (Run, request type) memberships. *)
Definition typeKeys (rs : list Run) : list str := flat_map requestTypes rs.

(** The Runs left by the request-type selection alone, and by the
    company-code selection alone. *)
Definition byRequestTypeOnly (st : State) : list Run :=
  finalFilteredRuns (mkState (allRuns st) [] (selectedRequestType st)).

Definition byCompanyCodesOnly (st : State) : list Run :=
  finalFilteredRuns (mkState (allRuns st) (selectedCompanyCodes st) None).

(** The table [items] lists exactly the keys that occur in [ks], each once,
    with its number of occurrences. *)
Definition countsOf (ks : list str) (items : list (str * nat)) : Prop :=
  NoDup (map fst items) /\
  forall k n, In (k, n) items <-> (0 < n)%nat /\ n = occurrences k ks.

Definition sampleRun (key code : string) (types : list string) : Run :=
  mkRun (lit key) (Some (lit code)) (map lit types)
        false false false false false false false 0%Z None None.

Definition sampleRuns : list Run :=
  [sampleRun "D1--US1" "US1" ["ABC"%string; "XYZ"%string];
   sampleRun "D2--US1" "US1" ["ABC"%string];
   sampleRun "D3--DE1" "DE1" ["XYZ"%string]].

(** The Runs the average is taken over, and the mean of their durations as
    [avgProcessingTime] computes it. *)
Definition validRuns (st : State) : list Run :=
  filter (fun run => isSome (startTime run) && isSome (endTime run))
         (finalFilteredRuns st).

Definition meanDuration (rs : list Run) : float :=
  (fold_left
     (fun acc run =>
        match endTime run, startTime run with
        | Some e, Some s => let duration := (ofZ e - ofZ s)%float in (acc + duration)%float
        | _, _ => acc
        end)
     rs 0%float
   / ofZ (Z.of_nat (length rs)))%float.

Definition timedRun (s e : Z) : Run :=
  mkRun (lit "D1--US1") (Some (lit "US1")) [] false false false false false false false
        e (Some s) (Some e).

(** *** Further notions: tokenizer and lines *)

(** Standard CSV quoting of a field: every quote character doubled, the
    whole wrapped in quotes. *)
Fixpoint doubleQuotes (f : str) : str :=
  match f with
  | [] => []
  | c :: r => if Ascii.eqb c dquote then dquote :: dquote :: doubleQuotes r
              else c :: doubleQuotes r
  end.

Definition quoteField (f : str) : str := dquote :: doubleQuotes f ++ [dquote].

(** [lines.join(sep)] *)
Fixpoint joinWith (sep : str) (lines : list str) : str :=
  match lines with
  | [] => []
  | l :: rest =>
      match rest with
      | [] => l
      | _ :: _ => l ++ sep ++ joinWith sep rest
      end
  end.

(** A text that is one line whichever line ending follows it: no LF in it
    and no CR at its end. *)
Definition lineLike (l : str) : Prop := ~ In LF l /\ last l LF <> CR.

(** *** Further notions: grouper and classifier *)

(** The distinct elements of a list in the order of their first appearance. *)
Definition firstSeen (ks : list str) : list str :=
  fold_left (fun acc k => setAdd k acc) ks [].

Definition rowKept (c : Cols) (line : str) : bool := isSome (rowInfo c line).

(** [s] has [p] as a substring, as a prefix. *)
Definition hasSubstring (p s : str) : Prop := exists a b, s = a ++ p ++ b.
Definition hasPrefix (p s : str) : Prop := exists b, s = p ++ b.

(** Equality of two texts up to the case of ASCII letters. *)
Definition ciEq (p s : str) : Prop := map upperAscii p = map upperAscii s.

(** The message has the shape the threshold pattern describes, with [g] as
    the three or four letters after the slash. *)
Definition ThresholdShape (m g : str) : Prop :=
  exists pre P mid ws V post,
    m = pre ++ P ++ mid ++ "/"%char :: g ++ ws ++ V ++ post /\
    ciEq (lit "Threshold identified:") P /\
    (length g = 3 \/ length g = 4) /\
    Forall (fun c => isLetter c = true) g /\
    ws <> [] /\ Forall (fun c => isWhite c = true) ws /\
    ciEq (lit "values:") V.

(** The request-type codes the entries of a group carry. *)
Definition entryCodes (es : list Entry) : list str :=
  flat_map (fun e => match thresholdMatch (message e) with
                     | Some g => [toUpperCase g]
                     | None => []
                     end) es.

(** *** Further notions: aggregator *)

(** The effective filtered set as two filters, either of which may be off. *)
Definition codeFilter (codes : list str) (rs : list Run) : list Run :=
  if 0 <? length codes then filter (inSelectedCodes codes) rs else rs.

Definition typeFilter (rt : option str) (rs : list Run) : list Run :=
  match rt with
  | Some t => if truthy t then filter (hasRequestType t) rs else rs
  | None => rs
  end.

Definition hasCode (r : Run) : bool :=
  match companyCode r with
  | Some c => truthy c
  | None => false
  end.

Definition total (items : list (str * nat)) : nat := list_sum (map snd items).

(** What a user of the page can do to the selection. *)
Inductive Action :=
| ToggleCompanyCode (companyCode : str)
| ToggleRequestType (type : str)
| ResetRequestType
| ResetSelection.

Definition act (st : State) (a : Action) : State :=
  match a with
  | ToggleCompanyCode c => handleCompanyCodeSelect c st
  | ToggleRequestType t => handleRequestTypeSelect t st
  | ResetRequestType => handleResetRequestType st
  | ResetSelection => handleResetSelection st
  end.

(** *** Sample inputs *)

Definition sampleHeader : str := lit "Document ID,CoCd,Message,TimeStamp,Type".

(** The column layout of [sampleHeader]: no version column. *)
Definition sampleCols : Cols := mkCols 0 None 2 1 3 4.

Definition fileOf (lines : list str) : str :=
  concat (map (fun l => l ++ [LF]) lines).

(** Two rows whose triples differ, (a-, , b) and (a, , -b), and whose keys
    are both [a---b]. *)
Definition collidingRow1 : str :=
  lit "a-,b," ++ autoApprovalMessage ++ lit ",20240301120000,I".
Definition collidingRow2 : str :=
  lit "a,-b," ++ fallbackMessagePrefix ++ lit " 7,20240301120005,I".

(** The end-to-end scenario of the specification. *)
Definition scenarioRow1 : str :=
  lit "D1,US1," ++ autoApprovalMessage ++ lit ",20240301120000,I".
Definition scenarioRow2 : str :=
  lit "D1,US1," ++ endProcessingMessage ++ lit ",20240301120005,I".

(** A row with a start marker at the given timestamp text; the marker holds
    a comma, so the field is quoted. *)
Definition startRow (ts : string) : str :=
  lit "D1,US1," ++ [dquote] ++ startProcessingMessage ++ [dquote]
  ++ lit "," ++ lit ts ++ lit ",I".

End Spec.

(** ** Facts about the primitives *)

Module JSFacts.

Import JS.

Lemma str_eqb_eq a b : str_eqb a b = true <-> a = b.
Proof. unfold str_eqb; destruct (list_eq_dec ascii_dec a b); split; congruence. Qed.

Lemma str_eqb_refl a : str_eqb a a = true.
Proof. now apply str_eqb_eq. Qed.

Lemma str_eqb_neq a b : str_eqb a b = false <-> a <> b.
Proof. unfold str_eqb; destruct (list_eq_dec ascii_dec a b); split; congruence. Qed.

Lemma str_eqb_sym a b : str_eqb a b = str_eqb b a.
Proof.
  destruct (str_eqb a b) eqn:E.
  - apply str_eqb_eq in E; subst; now rewrite str_eqb_refl.
  - apply str_eqb_neq in E. symmetry. apply str_eqb_neq. congruence.
Qed.



Lemma indexOf_None x l : indexOf x l = None <-> ~ In x l.
Proof.
  induction l as [|y l IH]; simpl.
  - tauto.
  - destruct (str_eqb y x) eqn:E.
    + apply str_eqb_eq in E. split; [discriminate | intros H; exfalso; apply H; now left].
    + apply str_eqb_neq in E. destruct (indexOf x l); simpl.
      * split; [discriminate|]. intros H. exfalso.
        destruct (in_dec (list_eq_dec ascii_dec) x l) as [I|I].
        -- apply H. now right.
        -- apply IH in I. discriminate.
      * split; [|reflexivity]. intros _ [H|H]; [congruence | now apply IH].
Qed.

Lemma indexOf_Some_lt x l n : indexOf x l = Some n -> nth_error l n = Some x.
Proof.
  revert n; induction l as [|y l IH]; simpl; intros n H; [discriminate|].
  destruct (str_eqb y x) eqn:E.
  - apply str_eqb_eq in E. inversion H; subst. reflexivity.
  - destruct (indexOf x l); simpl in H; [|discriminate].
    inversion H; subst. simpl. now apply IH.
Qed.

Lemma trimStart_nil_iff s : trimStart s = [] <-> Forall (fun c => isWhite c = true) s.
Proof.
  induction s as [|c s IH]; simpl.
  - split; [constructor | reflexivity].
  - destruct (isWhite c) eqn:W.
    + rewrite IH. split; [now constructor | intros H; now inversion H].
    + split; [discriminate | intros H; inversion H; congruence].
Qed.

Lemma trimStart_suffix s : exists w, s = w ++ trimStart s /\ Forall (fun c => isWhite c = true) w.
Proof.
  induction s as [|c s [w [E F]]]; simpl.
  - exists []. split; [reflexivity | constructor].
  - destruct (isWhite c) eqn:W.
    + exists (c :: w). split; [simpl; now f_equal | now constructor].
    + exists []. split; [reflexivity | constructor].
Qed.

(** A line is blank, that is, trims to the empty string, exactly when all
    its characters are white space. *)
Lemma trim_nil_iff s : trim s = [] <-> Forall (fun c => isWhite c = true) s.
Proof.
  unfold trim, trimEnd. split.
  - intros H. apply (f_equal (@rev ascii)) in H. rewrite rev_involutive in H.
    simpl in H. apply trimStart_nil_iff in H.
    destruct (trimStart_suffix s) as [w [E F]]. rewrite E. apply Forall_app. split; [exact F|].
    apply Forall_forall. intros c I. rewrite Forall_forall in H. apply H.
    now apply in_rev in I.
  - intros H. apply trimStart_nil_iff in H. rewrite H. reflexivity.
Qed.

End JSFacts.

(** ** The field tokenizer *)

Module TokenizerFacts.

Import JS Parser Spec JSFacts.

Lemma csvSplit_nonempty s : csvSplit s <> [].
Proof.
  destruct s as [|c r]; simpl; [discriminate|].
  destruct (Ascii.eqb c comma && Nat.even (countQuotes r)); [discriminate|].
  destruct (csvSplit r); discriminate.
Qed.

Lemma countQuotes_app a b : countQuotes (a ++ b) = countQuotes a + countQuotes b.
Proof.
  induction a as [|c a IH]; simpl; [reflexivity|].
  destruct (Ascii.eqb c dquote); simpl; now rewrite IH.
Qed.

Lemma joinComma_csvSplit s : joinComma (csvSplit s) = s.
Proof.
  induction s as [|c r IH]; [reflexivity|].
  simpl csvSplit.
  destruct (Ascii.eqb c comma && Nat.even (countQuotes r)) eqn:E.
  - apply andb_true_iff in E as [E _]. apply Ascii.eqb_eq in E; subst c.
    pose proof (csvSplit_nonempty r) as N.
    destruct (csvSplit r) as [|h t] eqn:R; [congruence|].
    change (joinComma ([] :: h :: t)) with (comma :: joinComma (h :: t)).
    now rewrite IH.
  - pose proof (csvSplit_nonempty r) as N.
    destruct (csvSplit r) as [|h t] eqn:R; [congruence|].
    rewrite <- IH. destruct t; reflexivity.
Qed.

Lemma cutPositions_S off l : cutPositions (S off) l = map S (cutPositions off l).
Proof.
  revert off; induction l as [|f l IH]; intros off; simpl; [reflexivity|].
  destruct l as [|g l]; [reflexivity|].
  change (map S ((off + length f) :: cutPositions (off + length f + 1) (g :: l)))
    with (S (off + length f) :: map S (cutPositions (off + length f + 1) (g :: l))).
  rewrite <- IH. reflexivity.
Qed.

(** The tokenizer cuts exactly at the commas that an even number of quote
    characters follows. *)
Lemma cut_iff_even_after line i :
  In i (cutPositions 0 (csvSplit line)) <->
  nth_error line i = Some comma /\ Nat.even (countQuotes (skipn (S i) line)) = true.
Proof.
  revert i; induction line as [|c r IH]; intros i.
  - simpl. destruct i; simpl; split; try tauto; intros [H _]; discriminate.
  - simpl csvSplit.
    pose proof (csvSplit_nonempty r) as N.
    destruct (csvSplit r) as [|h t] eqn:R; [congruence|].
    destruct (Ascii.eqb c comma && Nat.even (countQuotes r)) eqn:E.
    + apply andb_true_iff in E as [E1 E2]. apply Ascii.eqb_eq in E1; subst c.
      change (cutPositions 0 ([] :: h :: t)) with (0 :: cutPositions 1 (h :: t)).
      rewrite cutPositions_S. destruct i as [|j].
      * simpl. split; [intros _; now split | intros _; now left].
      * simpl nth_error. change (skipn (S (S j)) (comma :: r)) with (skipn (S j) r).
        rewrite <- IH. simpl. rewrite in_map_iff. split.
        -- intros [H|[x [H1 H2]]]; [discriminate|]. now inversion H1; subst.
        -- intros H. right. now exists j.
    + assert (C : cutPositions 0 ((c :: h) :: t) = map S (cutPositions 0 (h :: t))).
      { rewrite <- cutPositions_S. destruct t; reflexivity. }
      rewrite C, in_map_iff. destruct i as [|j].
      * simpl. split.
        -- intros [x [H _]]; discriminate.
        -- intros [H1 H2]. inversion H1; subst c.
           rewrite Ascii.eqb_refl, H2 in E. discriminate.
      * simpl nth_error. change (skipn (S (S j)) (c :: r)) with (skipn (S j) r).
        rewrite <- IH. split.
        -- intros [x [H1 H2]]. now inversion H1; subst.
        -- intros H. now exists j.
Qed.

Lemma nth_error_split_at (line : str) i c :
  nth_error line i = Some c -> line = firstn i line ++ c :: skipn (S i) line.
Proof.
  revert i; induction line as [|x r IH]; intros i H.
  - destruct i; discriminate.
  - destruct i as [|j]; simpl in *.
    + now inversion H.
    + f_equal. now apply IH.
Qed.

Lemma parity_before_after line i :
  nth_error line i = Some comma ->
  Nat.even (countQuotes line) = true ->
  Nat.even (countQuotes (skipn (S i) line)) = Nat.even (countQuotes (firstn i line)).
Proof.
  intros H T.
  pose proof (f_equal countQuotes (nth_error_split_at _ _ H)) as E.
  rewrite countQuotes_app in E.
  change (countQuotes (comma :: skipn (S i) line))
    with (countQuotes (skipn (S i) line)) in E.
  rewrite E, Nat.even_add in T.
  destruct (Nat.even (countQuotes (firstn i line))), (Nat.even (countQuotes (skipn (S i) line)));
    simpl in T; congruence.
Qed.

Lemma substring_inner (a b : ascii) (inner : str) :
  substring 1 (length (a :: inner ++ [b]) - 1) (a :: inner ++ [b]) = inner.
Proof.
  unfold substring. simpl length. rewrite length_app. simpl length.
  replace (S (length inner + 1) - 1) with (length inner + 1) by lia.
  replace (Nat.min 1 (S (length inner + 1))) with 1 by lia.
  replace (Nat.min (length inner + 1) (S (length inner + 1))) with (length inner + 1) by lia.
  replace (Nat.min 1 (length inner + 1)) with 1 by lia.
  replace (Nat.max 1 (length inner + 1)) with (length inner + 1) by lia.
  replace (length inner + 1 - 1) with (length inner) by lia.
  simpl skipn. rewrite firstn_app, firstn_all, Nat.sub_diag. simpl. apply app_nil_r.
Qed.

Lemma cleanField_quoted field inner :
  trim field = dquote :: inner ++ [dquote] -> cleanField field = collapseQuotes inner.
Proof.
  intros H. unfold cleanField. rewrite H.
  assert (S1 : startsWith [dquote] (dquote :: inner ++ [dquote]) = true) by reflexivity.
  assert (S2 : endsWith [dquote] (dquote :: inner ++ [dquote]) = true).
  { unfold endsWith. simpl rev. rewrite rev_app_distr. reflexivity. }
  rewrite S1, S2. simpl andb. cbv iota. now rewrite substring_inner.
Qed.

Lemma collapseQuotes_cons a r :
  a <> dquote -> collapseQuotes (a :: r) = a :: collapseQuotes r.
Proof.
  intros N. apply Ascii.eqb_neq in N.
  destruct r as [|b r']; [reflexivity|]. cbn [collapseQuotes]. now rewrite N.
Qed.

Lemma collapseQuotes_quoteFree s : quoteFree s -> collapseQuotes s = s.
Proof.
  unfold quoteFree. induction s as [|a r IH]; intros H; [reflexivity|].
  rewrite collapseQuotes_cons.
  - f_equal. apply IH. intros I. apply H. now right.
  - intros ->. apply H. now left.
Qed.

Lemma collapseQuotes_pair pre post :
  quoteFree pre ->
  collapseQuotes (pre ++ dquote :: dquote :: post) = pre ++ dquote :: collapseQuotes post.
Proof.
  unfold quoteFree. induction pre as [|a r IH]; intros H.
  - reflexivity.
  - change ((a :: r) ++ dquote :: dquote :: post) with (a :: (r ++ dquote :: dquote :: post)).
    rewrite collapseQuotes_cons.
    + simpl. f_equal. apply IH. intros I. apply H. now right.
    + intros ->. apply H. now left.
Qed.

End TokenizerFacts.

Module TokenizerClaims.

Import JS Parser Spec JSFacts TokenizerFacts.

(** C5, as stated, fails: on the line [aQ,b] the tokenizer cuts at the comma
    although one quote character (an odd number) precedes it, so the comma is
    inside a quoted region as the specification defines it; the line yields
    the two fields [aQ] and [b]. *)
Lemma split_inside_open_quote :
  parseCsvLine openQuoteLine = [lit "a" ++ [dquote]; lit "b"] /\
  ~ (forall line i, In i (cutPositions 0 (csvSplit line)) -> outsideQuotes line i).
Proof.
  split; [reflexivity|].
  intros H. specialize (H openQuoteLine 2).
  assert (I : In 2 (cutPositions 0 (csvSplit openQuoteLine))) by (vm_compute; now left).
  apply H in I. vm_compute in I. discriminate.
Qed.

(** C5 (amended): the fields are the pieces of the line between the commas
    it is cut at, each cleaned; the line is cut at a comma exactly when an
    even number of quote characters follows the comma up to the end of the
    line; on a line with an even number of quote characters these are exactly
    the commas outside every quoted region.  A field that, once trimmed, is a
    quote, some text and a closing quote loses the two outer quotes and has
    every doubled quote of the text collapsed to one.  The line [Qa,bQQcQ]
    yields the single field [a,bQc]. *)
Theorem parseCsvLine_cuts_and_unquotes (line field inner : str) (i : nat) :
  parseCsvLine line = map cleanField (csvSplit line) /\
  joinComma (csvSplit line) = line /\
  (In i (cutPositions 0 (csvSplit line)) <->
   nth_error line i = Some comma /\
   Nat.even (countQuotes (skipn (S i) line)) = true) /\
  (Nat.even (countQuotes line) = true ->
   (In i (cutPositions 0 (csvSplit line)) <->
    nth_error line i = Some comma /\ outsideQuotes line i)) /\
  (trim field = dquote :: inner ++ [dquote] ->
   cleanField field = collapseQuotes inner) /\
  (forall pre post, quoteFree pre ->
   collapseQuotes (pre ++ dquote :: dquote :: post) = pre ++ dquote :: collapseQuotes post) /\
  (quoteFree inner -> collapseQuotes inner = inner) /\
  parseCsvLine quotedLine = [lit "a,b" ++ [dquote] ++ lit "c"].
Proof.
  split; [reflexivity|].
  split; [apply joinComma_csvSplit|].
  split; [apply cut_iff_even_after|].
  split.
  { intros T. rewrite cut_iff_even_after. unfold outsideQuotes. split.
    - intros [H1 H2]. split; [assumption|]. now rewrite <- (parity_before_after _ _ H1 T).
    - intros [H1 H2]. split; [assumption|]. now rewrite (parity_before_after _ _ H1 T). }
  split; [apply cleanField_quoted|].
  split; [apply collapseQuotes_pair|].
  split; [apply collapseQuotes_quoteFree|].
  reflexivity.
Qed.

(** On the line [x,Qy,zQ] the first comma (position 1) is a cut and the
    second (position 4) is not; the field [QpQQqQ], padded with blanks, cleans
    to [pQq]. *)
Lemma parseCsvLine_cuts_and_unquotes_witness :
  In 1 (cutPositions 0 (csvSplit (lit "x," ++ [dquote] ++ lit "y,z" ++ [dquote]))) /\
  ~ In 4 (cutPositions 0 (csvSplit (lit "x," ++ [dquote] ++ lit "y,z" ++ [dquote]))) /\
  cleanField (lit " " ++ [dquote] ++ lit "p" ++ [dquote; dquote] ++ lit "q" ++ [dquote] ++ lit " ")
  = lit "p" ++ [dquote] ++ lit "q".
Proof.
  pose (l := lit "x," ++ [dquote] ++ lit "y,z" ++ [dquote]).
  pose (f := lit " " ++ [dquote] ++ lit "p" ++ [dquote; dquote] ++ lit "q" ++ [dquote] ++ lit " ").
  pose (inn := lit "p" ++ [dquote; dquote] ++ lit "q").
  destruct (parseCsvLine_cuts_and_unquotes l f inn 1) as (_ & _ & _ & H1 & H2 & _).
  destruct (parseCsvLine_cuts_and_unquotes l f inn 4) as (_ & _ & _ & H4 & _).
  split; [|split].
  - apply H1; [reflexivity | split; reflexivity].
  - intros I. apply H4 in I; [|reflexivity]. destruct I as [_ I]. vm_compute in I. discriminate.
  - transitivity (collapseQuotes inn); [apply H2; reflexivity | reflexivity].
Defined.

End TokenizerClaims.

(** ** Date arithmetic *)

Module DateFacts.

Import DateTime.

Local Open Scope Z_scope.

Lemma monthStart_bound l m : 0 <= monthStart l m <= 335.
Proof.
  unfold monthStart. destruct l; destruct m as [|p|p]; try lia;
  do 4 (try destruct p as [p|p|]); lia.
Qed.

Lemma isLeap_spec y :
  isLeap y = true <-> (y mod 4 = 0 /\ y mod 100 <> 0) \/ y mod 400 = 0.
Proof.
  unfold isLeap. rewrite orb_true_iff, andb_true_iff, negb_true_iff.
  rewrite !Z.eqb_eq, Z.eqb_neq. tauto.
Qed.

Lemma DayFromYear_step y : DayFromYear (y + 1) = DayFromYear y + DaysInYear y.
Proof.
  unfold DayFromYear, DaysInYear.
  destruct (isLeap y) eqn:L.
  - apply isLeap_spec in L. Z.div_mod_to_equations. lia.
  - assert (N : ~ ((y mod 4 = 0 /\ y mod 100 <> 0) \/ y mod 400 = 0)).
    { rewrite <- isLeap_spec. congruence. }
    Z.div_mod_to_equations. lia.
Qed.

Lemma DayFromYear_lt y : DayFromYear y < DayFromYear (y + 1).
Proof. rewrite DayFromYear_step. unfold DaysInYear. destruct (isLeap y); lia. Qed.

Lemma DayFromYear_mono a b : a <= b -> DayFromYear a <= DayFromYear b.
Proof.
  intros L. replace b with (a + (b - a)) by lia.
  assert (H : 0 <= b - a) by lia. revert H. generalize (b - a). clear.
  apply natlike_ind.
  - rewrite Z.add_0_r. lia.
  - intros x Hx IH. replace (a + Z.succ x) with ((a + x) + 1) by lia.
    pose proof (DayFromYear_lt (a + x)). lia.
Qed.

Lemma estimate_close y d :
  DayFromYear y <= d < DayFromYear (y + 1) ->
  y - 1 <= 1970 + (d * 400) / 146097 <= y + 1.
Proof.
  unfold DayFromYear. intros H. Z.div_mod_to_equations. lia.
Qed.

Lemma YearFromTime_unique y t :
  DayFromYear y <= Day t < DayFromYear (y + 1) -> YearFromTime t = y.
Proof.
  intros H. pose proof (@estimate_close y (Day t) H) as E.
  unfold YearFromTime. cbv zeta.
  set (y0 := 1970 + Day t * 400 / 146097) in *.
  destruct (DayFromYear (y0 + 1) <=? Day t) eqn:C1.
  - apply Z.leb_le in C1.
    destruct (Z.eq_dec y (y0 + 1)); [congruence|].
    pose proof (@DayFromYear_mono (y + 1) (y0 + 1)). lia.
  - apply Z.leb_gt in C1. destruct (DayFromYear y0 <=? Day t) eqn:C2.
    + apply Z.leb_le in C2.
      destruct (Z.eq_dec y y0); [congruence|].
      pose proof (@DayFromYear_mono (y + 1) y0).
      pose proof (@DayFromYear_mono (y0 + 1) y). lia.
    + apply Z.leb_gt in C2.
      pose proof (@DayFromYear_mono y0 y). lia.
Qed.

Lemma Day_MakeDate dn time :
  0 <= time < msPerDay -> Day (MakeDate dn time) = dn.
Proof.
  unfold Day, MakeDate, msPerDay. intros H. Z.div_mod_to_equations. lia.
Qed.

Lemma clock_roundtrip dn h mi s ms :
  0 <= h <= 23 -> 0 <= mi <= 59 -> 0 <= s <= 59 -> 0 <= ms <= 999 ->
  let t := MakeDate dn (MakeTime h mi s ms) in
  0 <= MakeTime h mi s ms < msPerDay /\
  HourFromTime t = h /\ MinFromTime t = mi /\ SecFromTime t = s /\ msFromTime t = ms.
Proof.
  intros Hh Hm Hs Hms t. subst t.
  unfold HourFromTime, MinFromTime, SecFromTime, msFromTime, MakeDate, MakeTime,
    msPerDay, msPerHour, msPerMinute, msPerSecond.
  repeat split; try lia.
  - rewrite <- (Z.mod_unique ((dn * 86400000 + (h * 3600000 + mi * 60000 + s * 1000 + ms)) / 3600000) 24 dn h); try lia.
    assert ((dn * 86400000 + (h * 3600000 + mi * 60000 + s * 1000 + ms)) / 3600000 = dn * 24 + h).
    { symmetry. apply (Z.div_unique _ _ _ (mi * 60000 + s * 1000 + ms)); lia. }
    lia.
  - assert (E : (dn * 86400000 + (h * 3600000 + mi * 60000 + s * 1000 + ms)) / 60000 = dn * 1440 + h * 60 + mi).
    { symmetry. apply (Z.div_unique _ _ _ (s * 1000 + ms)); lia. }
    rewrite E. symmetry. apply (Z.mod_unique _ _ (dn * 24 + h)); lia.
  - assert (E : (dn * 86400000 + (h * 3600000 + mi * 60000 + s * 1000 + ms)) / 1000 = dn * 86400 + h * 3600 + mi * 60 + s).
    { symmetry. apply (Z.div_unique _ _ _ ms); lia. }
    rewrite E. symmetry. apply (Z.mod_unique _ _ (dn * 1440 + h * 60 + mi)); lia.
  - symmetry. apply (Z.mod_unique _ _ (dn * 86400 + h * 3600 + mi * 60 + s)); lia.
Qed.

Lemma month_table l m d :
  0 <= m <= 11 -> 1 <= d <= monthLength l m ->
  0 <= monthStart l m + d - 1 < (if l then 366 else 365) /\
  monthOfDay l (monthStart l m + d - 1) = m.
Proof.
  intros Hm.
  assert (M : m = 0 \/ m = 1 \/ m = 2 \/ m = 3 \/ m = 4 \/ m = 5 \/ m = 6 \/ m = 7
              \/ m = 8 \/ m = 9 \/ m = 10 \/ m = 11) by lia.
  destruct M as [->|[->|[->|[->|[->|[->|[->|[->|[->|[->|[->| ->]]]]]]]]]]];
    destruct l; cbv beta iota zeta delta [monthLength monthStart monthOfDay]; intros Hd;
    (split; [lia|]);
    repeat match goal with
    | |- context [?a <? ?b] => destruct (Z.ltb_spec a b); try lia
    end.
Qed.

Lemma civil_roundtrip c :
  validCivil c ->
  civilOf (MakeDate (MakeDay (cYear c) (cMonth c - 1) (cDay c))
                    (MakeTime (cHour c) (cMinute c) (cSecond c) (cMilli c))) = c.
Proof.
  destruct c as [y m d h mi s ms]. unfold validCivil, daysInMonth. simpl.
  intros (Hm & Hd & Hh & Hmi & Hs & Hms).
  destruct (@clock_roundtrip (MakeDay y (m - 1) d) h mi s ms Hh Hmi Hs Hms)
    as (T & R1 & R2 & R3 & R4).
  set (t := MakeDate (MakeDay y (m - 1) d) (MakeTime h mi s ms)) in *.
  assert (Dt : Day t = MakeDay y (m - 1) d) by (now apply Day_MakeDate).
  assert (Q : (m - 1) / 12 = 0) by (apply Z.div_small; lia).
  assert (Rm : (m - 1) mod 12 = m - 1) by (apply Z.mod_small; lia).
  assert (MD : MakeDay y (m - 1) d = DayFromYear y + monthStart (isLeap y) (m - 1) + d - 1).
  { unfold MakeDay. cbv zeta. rewrite Q, Rm, Z.add_0_r. reflexivity. }
  destruct (@month_table (isLeap y) (m - 1) d) as [Off MO]; [lia | assumption |].
  assert (Y : YearFromTime t = y).
  { apply YearFromTime_unique. rewrite Dt, MD, DayFromYear_step. unfold DaysInYear. lia. }
  assert (DW : DayWithinYear t = monthStart (isLeap y) (m - 1) + d - 1).
  { unfold DayWithinYear. rewrite Y, Dt, MD. lia. }
  assert (MF : MonthFromTime t = m - 1).
  { unfold MonthFromTime, InLeapYear. now rewrite DW, Y. }
  unfold civilOf. rewrite R1, R2, R3, R4, Y.
  unfold DateFromTime, InLeapYear. rewrite MF, DW, Y.
  f_equal; lia.
Qed.

(** For fields in the ranges that two, three and four digits allow,
    [Date.UTC] is a number: the time is far inside the range of [TimeClip]. *)
Lemma UTC_defined y m d h mi s ms :
  0 <= y < 10000 -> -1 <= m < 99 -> 0 <= d < 100 ->
  0 <= h < 100 -> 0 <= mi < 100 -> 0 <= s < 100 -> 0 <= ms < 1000 ->
  exists t, UTC y m d h mi s ms = Some t.
Proof.
  intros Hy Hm Hd Hh Hmi Hs Hms. unfold UTC, TimeClip. cbv zeta.
  set (yr := if (0 <=? y) && (y <=? 99) then 1900 + y else y).
  assert (Yr : 100 <= yr < 10000).
  { unfold yr. destruct ((0 <=? y) && (y <=? 99)) eqn:E; [lia|].
    apply andb_false_iff in E as [E|E]; [apply Z.leb_gt in E | apply Z.leb_gt in E]; lia. }
  match goal with
  | |- exists t, (if ?c then _ else _) = _ => assert (C : c = true)
  end.
  { apply Z.leb_le. unfold MakeDate, MakeDay, MakeTime, DayFromYear,
      msPerDay, msPerHour, msPerMinute, msPerSecond. cbv zeta.
    pose proof (monthStart_bound (isLeap (yr + m / 12)) (m mod 12)) as B.
    revert B. generalize (monthStart (isLeap (yr + m / 12)) (m mod 12)). intros ms0 B.
    Z.div_mod_to_equations. lia. }
  rewrite C. eexists. reflexivity.
Qed.

(** A year from 100 on is taken as it is. *)
Lemma UTC_year_from_100 y m d h mi s ms t :
  100 <= y -> UTC y m d h mi s ms = Some t ->
  t = MakeDate (MakeDay y m d) (MakeTime h mi s ms).
Proof.
  intros Hy. unfold UTC, TimeClip. cbv zeta.
  assert (E : (0 <=? y) && (y <=? 99) = false).
  { apply andb_false_iff. right. apply Z.leb_gt. lia. }
  rewrite E. destruct (Z.abs _ <=? _); [|discriminate]. intros H; now inversion H.
Qed.

End DateFacts.

(** ** The timestamp normalizer *)

Module TimestampFacts.

Import JS Parser Spec DateTime.

Local Open Scope Z_scope.

Lemma splitOn_nonempty c s : splitOn c s <> [].
Proof.
  destruct s as [|x r]; simpl; [discriminate|].
  destruct (Ascii.eqb x c); [discriminate|]. destruct (splitOn c r); discriminate.
Qed.

Lemma splitOn_pieces c s : forall p x,
  In p (splitOn c s) -> In x p -> In x s /\ x <> c.
Proof.
  induction s as [|y r IH]; intros p x Ip Ix; simpl in Ip.
  - destruct Ip as [<-|[]]. destruct Ix.
  - destruct (Ascii.eqb y c) eqn:E.
    + destruct Ip as [<-|Ip]; [destruct Ix|].
      destruct (IH p x Ip Ix). split; [now right | assumption].
    + apply Ascii.eqb_neq in E.
      pose proof (splitOn_nonempty c r) as N.
      destruct (splitOn c r) as [|h t]; [congruence|].
      destruct Ip as [<-|Ip].
      * destruct Ix as [<-|Ix]; [split; [now left | assumption]|].
        destruct (IH h x (or_introl eq_refl) Ix). split; [now right | assumption].
      * destruct (IH p x (or_intror Ip) Ix). split; [now right | assumption].
Qed.

(** Every part of the numeric string is made of digits only. *)
Lemma parts_digits ts p :
  In p (splitOn dot (numericString ts)) -> Forall (fun c => isDigit c = true) p.
Proof.
  intros Ip. apply Forall_forall. intros x Ix.
  destruct (@splitOn_pieces dot (numericString ts) p x Ip Ix) as [I D].
  unfold numericString in I. apply filter_In in I as [_ I].
  apply orb_true_iff in I as [I|I]; [assumption|].
  apply Ascii.eqb_eq in I. contradiction.
Qed.

Lemma mainPart_digits ts : Forall (fun c => isDigit c = true) (mainPart ts).
Proof.
  unfold mainPart. pose proof (splitOn_nonempty dot (numericString ts)) as N.
  destruct (splitOn dot (numericString ts)) as [|h t] eqn:E; [congruence|].
  apply (parts_digits ts). rewrite E. now left.
Qed.

Lemma digit_not_white c : isDigit c = true -> isWhite c = false.
Proof.
  unfold isDigit, isWhite. intros H. apply andb_true_iff in H as [H1 H2].
  apply Nat.leb_le in H1, H2.
  repeat rewrite orb_false_iff. repeat split.
  - apply andb_false_iff. right. apply Nat.leb_gt. lia.
  - apply Nat.eqb_neq. lia.
  - apply Nat.eqb_neq. lia.
Qed.

Lemma digitsPrefix_all s : Forall (fun c => isDigit c = true) s -> digitsPrefix s = s.
Proof. induction 1 as [|c s H _ IH]; simpl; [reflexivity|]. now rewrite H, IH. Qed.

(** [parseInt] of a non-empty run of digits is its decimal value, never NaN. *)
Lemma parseInt_digits s :
  s <> [] -> Forall (fun c => isDigit c = true) s -> parseInt s = Some (decimalValue s).
Proof.
  intros N F. destruct s as [|c r]; [congruence|].
  inversion F as [|? ? Hc Hr]; subst.
  unfold parseInt. simpl trimStart. rewrite digit_not_white by exact Hc.
  destruct c as [[] [] [] [] [] [] [] []]; try (vm_compute in Hc; discriminate);
    cbv beta iota zeta; rewrite digitsPrefix_all by exact F; reflexivity.
Qed.

Lemma decimalValue_snoc s c : decimalValue (s ++ [c]) = 10 * decimalValue s + digitVal c.
Proof. unfold decimalValue. now rewrite fold_left_app. Qed.

Lemma digitVal_bound c : isDigit c = true -> 0 <= digitVal c <= 9.
Proof.
  unfold isDigit, digitVal. intros H. apply andb_true_iff in H as [H1 H2].
  apply Nat.leb_le in H1, H2. lia.
Qed.

Lemma decimalValue_bound s :
  Forall (fun c => isDigit c = true) s -> 0 <= decimalValue s < 10 ^ Z.of_nat (length s).
Proof.
  induction s as [|c s IH] using rev_ind; intros F.
  - simpl. unfold decimalValue. simpl. lia.
  - apply Forall_app in F as [F1 F2]. inversion F2 as [|? ? Hc _]; subst.
    specialize (IH F1). pose proof (@digitVal_bound c Hc).
    rewrite decimalValue_snoc, length_app. simpl length.
    rewrite Nat2Z.inj_add, Z.pow_add_r by lia. change (10 ^ Z.of_nat 1) with 10. lia.
Qed.

Lemma substring_firstn_skipn a b (s : str) :
  (a <= b)%nat -> (b <= length s)%nat -> substring a b s = firstn (b - a) (skipn a s).
Proof.
  intros L1 L2. unfold substring.
  replace (Nat.min a (length s)) with a by lia.
  replace (Nat.min b (length s)) with b by lia.
  replace (Nat.min a b) with a by lia. replace (Nat.max a b) with b by lia. reflexivity.
Qed.

Lemma In_firstn {A} n (l : list A) x : In x (firstn n l) -> In x l.
Proof. intros I. rewrite <- (firstn_skipn n l). apply in_or_app. now left. Qed.

Lemma In_skipn {A} n (l : list A) x : In x (skipn n l) -> In x l.
Proof. intros I. rewrite <- (firstn_skipn n l). apply in_or_app. now right. Qed.

Lemma Forall_firstn_skipn {A} (P : A -> Prop) a n (s : list A) :
  Forall P s -> Forall P (firstn n (skipn a s)).
Proof.
  intros F. apply Forall_forall. intros x I. rewrite Forall_forall in F. apply F.
  apply In_firstn in I. now apply In_skipn in I.
Qed.

Lemma length_firstn_skipn {A} a n (s : list A) :
  (a + n <= length s)%nat -> length (firstn n (skipn a s)) = n.
Proof. intros L. rewrite length_firstn, length_skipn. lia. Qed.

(** A field of [n > 0] digits starting at [a]: what [parseInt] makes of the
    substring, and its range. *)
Lemma parseInt_field a n (s : str) :
  (0 < n)%nat -> (a + n <= length s)%nat -> Forall (fun c => isDigit c = true) s ->
  parseInt (substring a (a + n) s) = Some (digitsAt a n s) /\
  0 <= digitsAt a n s < 10 ^ Z.of_nat n.
Proof.
  intros Hn L F. unfold digitsAt.
  rewrite substring_firstn_skipn by lia. replace (a + n - a)%nat with n by lia.
  pose proof (@Forall_firstn_skipn _ _ a n s F) as Fd.
  pose proof (@length_firstn_skipn _ a n s L) as Ld.
  split.
  - apply parseInt_digits; [|assumption]. intros E. rewrite E in Ld. simpl in Ld. lia.
  - pose proof (@decimalValue_bound _ Fd) as B. rewrite Ld in B. exact B.
Qed.

(** The milliseconds field: the first three fractional digits, padded. *)
Lemma parseInt_millis (f : str) :
  Forall (fun c => isDigit c = true) f ->
  parseInt (padEnd 3 "0"%char (substring 0 3 f))
  = Some (decimalValue (padEnd 3 "0"%char (firstn 3 f))) /\
  0 <= decimalValue (padEnd 3 "0"%char (firstn 3 f)) < 1000.
Proof.
  intros F.
  assert (E : substring 0 3 f = firstn 3 f).
  { unfold substring. simpl Nat.min at 1.
    replace (Nat.min 0 (Nat.min 3 (length f))) with 0%nat by lia.
    replace (Nat.max 0 (Nat.min 3 (length f))) with (Nat.min 3 (length f)) by lia.
    rewrite Nat.sub_0_r. simpl skipn.
    destruct (Nat.le_ge_cases 3 (length f)) as [L|L].
    - now replace (Nat.min 3 (length f)) with 3%nat by lia.
    - replace (Nat.min 3 (length f)) with (length f) by lia.
      now rewrite firstn_all, firstn_all2 by lia. }
  rewrite E.
  assert (Fp : Forall (fun c => isDigit c = true) (padEnd 3 "0"%char (firstn 3 f))).
  { unfold padEnd. apply Forall_app. split.
    - apply Forall_forall. intros x I. apply In_firstn in I.
      rewrite Forall_forall in F. now apply F.
    - apply Forall_forall. intros x I. apply repeat_spec in I. now subst. }
  assert (Lp : length (padEnd 3 "0"%char (firstn 3 f)) = 3%nat).
  { unfold padEnd. rewrite length_app, repeat_length, length_firstn. lia. }
  split.
  - apply parseInt_digits; [|assumption]. intros C. rewrite C in Lp. discriminate.
  - pose proof (@decimalValue_bound _ Fp) as B. rewrite Lp in B. exact B.
Qed.

Lemma fractional_digits ts :
  Forall (fun c => isDigit c = true)
    (if (1 <? length (splitOn dot (numericString ts)))%nat
     then nth 1 (splitOn dot (numericString ts)) [] else lit "0").
Proof.
  destruct (splitOn dot (numericString ts)) as [|h [|f t]] eqn:E; simpl.
  - repeat constructor.
  - repeat constructor.
  - apply (parts_digits ts). rewrite E. right; now left.
Qed.

Lemma fractional_eq ts :
  (if (1 <? length (splitOn dot (numericString ts)))%nat
   then nth 1 (splitOn dot (numericString ts)) [] else lit "0") = fractionalPart ts.
Proof.
  unfold fractionalPart.
  destruct (splitOn dot (numericString ts)) as [|h [|f t]]; reflexivity.
Qed.

(** With fourteen digits at hand the normalizer returns [Date.UTC] of the
    fields it reads, the month moved to base 0. *)
Lemma parseTimestamp_long ts :
  (14 <= length (mainPart ts))%nat ->
  let c := readCivil ts in
  parseTimestamp ts = UTC (cYear c) (cMonth c - 1) (cDay c)
                          (cHour c) (cMinute c) (cSecond c) (cMilli c) /\
  0 <= cYear c < 10000 /\ 0 <= cMonth c < 100 /\ 0 <= cDay c < 100 /\
  0 <= cHour c < 100 /\ 0 <= cMinute c < 100 /\ 0 <= cSecond c < 100 /\
  0 <= cMilli c < 1000.
Proof.
  intros L. pose proof (mainPart_digits ts) as F.
  unfold parseTimestamp. fold (numericString ts). fold (mainPart ts).
  assert (X : (length (mainPart ts) <? 14)%nat = false) by (apply Nat.ltb_ge; lia).
  rewrite X.
  destruct (@parseInt_field 0 4 (mainPart ts)) as [P1 B1]; try lia; try assumption.
  destruct (@parseInt_field 4 2 (mainPart ts)) as [P2 B2]; try lia; try assumption.
  destruct (@parseInt_field 6 2 (mainPart ts)) as [P3 B3]; try lia; try assumption.
  destruct (@parseInt_field 8 2 (mainPart ts)) as [P4 B4]; try lia; try assumption.
  destruct (@parseInt_field 10 2 (mainPart ts)) as [P5 B5]; try lia; try assumption.
  destruct (@parseInt_field 12 2 (mainPart ts)) as [P6 B6]; try lia; try assumption.
  simpl Nat.add in P1, P2, P3, P4, P5, P6.
  rewrite P1, P2, P3, P4, P5, P6.
  pose proof (fractional_digits ts) as FF. rewrite fractional_eq in *.
  destruct (@parseInt_millis _ FF) as [P7 B7]. rewrite P7.
  cbn [option_map]. unfold readCivil. cbn [cYear cMonth cDay cHour cMinute cSecond cMilli].
  change (10 ^ Z.of_nat 4) with 10000 in B1.
  change (10 ^ Z.of_nat 2) with 100 in B2, B3, B4, B5, B6.
  repeat split; lia.
Qed.

End TimestampFacts.

Module TimestampClaims.

Import JS Parser Spec DateTime DateFacts TimestampFacts.

Local Open Scope Z_scope.

(** X21: the normalizer reports a field as unparseable exactly when fewer than
    fourteen digits precede the first decimal point: no field with fourteen
    digits is ever refused, whatever calendar components the digits spell. *)
Lemma parseTimestamp_absent_iff ts :
  parseTimestamp ts = None <-> (length (mainPart ts) < 14)%nat.
Proof.
  split.
  - intros H. destruct (Nat.lt_ge_cases (length (mainPart ts)) 14) as [L|L]; [assumption|].
    destruct (parseTimestamp_long ts L) as (E & B1 & B2 & B3 & B4 & B5 & B6 & B7).
    destruct (@UTC_defined (cYear (readCivil ts)) (cMonth (readCivil ts) - 1)
                (cDay (readCivil ts)) (cHour (readCivil ts)) (cMinute (readCivil ts))
                (cSecond (readCivil ts)) (cMilli (readCivil ts))) as [t U]; try lia.
    rewrite E, U in H. discriminate.
  - intros L. unfold parseTimestamp. fold (numericString ts). fold (mainPart ts).
    apply Nat.ltb_lt in L. now rewrite L.
Qed.

(** X22: when the fourteen digits and the fraction spell a real calendar date and
    time of day in a year from 100 on, the instant returned is the one whose
    UTC reading is those components. *)
Lemma parseTimestamp_valid_civil ts :
  (14 <= length (mainPart ts))%nat ->
  validCivil (readCivil ts) -> 100 <= cYear (readCivil ts) ->
  exists t, parseTimestamp ts = Some t /\ civilOf t = readCivil ts.
Proof.
  intros L V Y.
  destruct (parseTimestamp_long ts L) as (E & B1 & B2 & B3 & B4 & B5 & B6 & B7).
  destruct (@UTC_defined (cYear (readCivil ts)) (cMonth (readCivil ts) - 1)
              (cDay (readCivil ts)) (cHour (readCivil ts)) (cMinute (readCivil ts))
              (cSecond (readCivil ts)) (cMilli (readCivil ts))) as [t U]; try lia.
  exists t. split; [now rewrite E|].
  apply UTC_year_from_100 in U; [|assumption]. subst t. now apply civil_roundtrip.
Qed.

(** The example of the specification: [20240115103045.123] is
    2024-01-15T10:30:45.123Z. *)
Lemma parseTimestamp_example :
  parseTimestamp (lit "20240115103045.123") = Some 1705314645123 /\
  civilOf 1705314645123 = mkCivil 2024 1 15 10 30 45 123.
Proof. split; vm_compute; reflexivity. Qed.

(** C3: the digits [00240115103045] read as yyyyMMddHHmmss name the year 24,
    but the instant returned is 1924-01-15T10:30:45.000Z: [Date.UTC] takes a
    year from 0 to 99 as 1900 + year. *)
Theorem parseTimestamp_year_below_100 :
  cYear (readCivil (lit "00240115103045")) = 24 /\
  parseTimestamp (lit "00240115103045") = Some (-1450445355000) /\
  civilOf (-1450445355000) = mkCivil 1924 1 15 10 30 45 0.
Proof. repeat split; vm_compute; reflexivity. Qed.

(** C4: the digits [20240132103045] carry the day 32, which January does not
    have; the result is not absent but the instant 2024-02-01T10:30:45.000Z,
    one day past January 31. *)
Theorem parseTimestamp_day_32_rolls_over :
  cDay (readCivil (lit "20240132103045")) = 32 /\
  parseTimestamp (lit "20240132103045") = Some 1706783445000 /\
  civilOf 1706783445000 = mkCivil 2024 2 1 10 30 45 0.
Proof. repeat split; vm_compute; reflexivity. Qed.

End TimestampClaims.

(** ** The grouper *)

Module GrouperFacts.

Import JS Parser Spec JSFacts.

Section Maps.

Context {V : Type}.
Implicit Types (m : SMap V) (k : str) (f : V -> V).

Lemma mapHas_In k m : mapHas k m = true <-> In k (map fst m).
Proof.
  induction m as [|[k' v] m IH]; simpl.
  - split; [discriminate | tauto].
  - rewrite orb_true_iff, IH, str_eqb_eq. tauto.
Qed.

Lemma mapHas_false k m : mapHas k m = false <-> ~ In k (map fst m).
Proof.
  rewrite <- mapHas_In. destruct (mapHas k m); split; congruence.
Qed.

Lemma keys_mapMutate k f m : map fst (mapMutate k f m) = map fst m.
Proof.
  induction m as [|[k' v] m IH]; simpl; [reflexivity|].
  destruct (str_eqb k' k); simpl; [reflexivity | now rewrite IH].
Qed.

Lemma keys_mapSet_new k v m :
  mapHas k m = false -> map fst (mapSet k v m) = map fst m ++ [k].
Proof.
  induction m as [|[k' v'] m IH]; simpl; intros H; [reflexivity|].
  apply orb_false_iff in H as [E H]. rewrite E. simpl. now rewrite IH.
Qed.

Lemma mapGet_mapMutate k k' f m :
  mapGet k (mapMutate k' f m) =
  if str_eqb k' k then option_map f (mapGet k m) else mapGet k m.
Proof.
  induction m as [|[k0 v] m IH]; simpl.
  - now destruct (str_eqb k' k).
  - destruct (str_eqb k0 k') eqn:E0; simpl.
    + apply str_eqb_eq in E0; subst k0.
      destruct (str_eqb k' k) eqn:E; reflexivity.
    + destruct (str_eqb k0 k) eqn:E1.
      * apply str_eqb_eq in E1; subst k0. rewrite str_eqb_sym in E0. now rewrite E0.
      * apply IH.
Qed.

Lemma mapGet_mapSet_new k k' v m :
  mapHas k' m = false ->
  mapGet k (mapSet k' v m) = if str_eqb k' k then Some v else mapGet k m.
Proof.
  induction m as [|[k0 v0] m IH]; simpl; intros H.
  - reflexivity.
  - apply orb_false_iff in H as [E0 H]. rewrite E0. simpl.
    destruct (str_eqb k0 k) eqn:E1.
    + apply str_eqb_eq in E1; subst k0. rewrite str_eqb_sym in E0. now rewrite E0.
    + now apply IH.
Qed.




Lemma In_mapGet k m v : NoDup (map fst m) -> In (k, v) m -> mapGet k m = Some v.
Proof.
  induction m as [|[k0 v0] m IH]; simpl; intros N H; [tauto|].
  inversion N as [|? ? N1 N2]; subst.
  destruct H as [H|H].
  - inversion H; subst. now rewrite str_eqb_refl.
  - destruct (str_eqb k0 k) eqn:E.
    + apply str_eqb_eq in E; subst. exfalso. apply N1.
      change k with (fst (k, v)). now apply in_map.
    + now apply IH.
Qed.

Lemma mapMutate_compose k f g m :
  mapMutate k f (mapMutate k g m) = mapMutate k (fun v => f (g v)) m.
Proof.
  induction m as [|[k0 v0] m IH]; simpl; [reflexivity|].
  destruct (str_eqb k0 k) eqn:E; simpl; rewrite E; [reflexivity | now rewrite IH].
Qed.

Lemma mapMutate_ext k f g m :
  (forall v, f v = g v) -> mapMutate k f m = mapMutate k g m.
Proof.
  intros H. induction m as [|[k0 v0] m IH]; simpl; [reflexivity|].
  destruct (str_eqb k0 k); [now rewrite H | now rewrite IH].
Qed.

Lemma mapMutate_id k f m : (forall v, f v = v) -> mapMutate k f m = m.
Proof.
  intros H. induction m as [|[k0 v0] m IH]; simpl; [reflexivity|].
  destruct (str_eqb k0 k); [now rewrite H | now rewrite IH].
Qed.



End Maps.

Lemma group_eta g : mkGroup (entries g) (coCd g) (timestamps g) = g.
Proof. now destruct g. Qed.

(** The loop body is [addRow] on the rows that are not skipped. *)
Lemma processRow_addRow c grouped line :
  processRow c grouped line =
  match rowInfo c line with
  | Some i => addRow grouped i
  | None => grouped
  end.
Proof.
  unfold processRow, rowInfo.
  destruct ((length (parseCsvLine line) <=? docIdIndex c)
            || (length (parseCsvLine line) <=? messageIndex c)
            || (length (parseCsvLine line) <=? coCdIndex c)
            || (length (parseCsvLine line) <=? timestampIndex c)
            || (length (parseCsvLine line) <=? typeIndex c)); [reflexivity|].
  destruct (truthy (trim (nth (docIdIndex c) (parseCsvLine line) []))
            && truthy (trim (nth (coCdIndex c) (parseCsvLine line) []))); [|reflexivity].
  unfold addRow, riKey, riEntries, riTimes; simpl.
  set (k := makeKey _ _ _).
  set (g1 := if negb (mapHas k grouped) then _ else grouped).
  assert (G : (if mapHas k grouped then grouped
               else mapSet k (mkGroup [] (trim (nth (coCdIndex c) (parseCsvLine line) [])) [])
                      grouped) = g1).
  { unfold g1. now destruct (mapHas k grouped). }
  rewrite G. clear G.
  destruct (truthy (trim (nth (messageIndex c) (parseCsvLine line) [])));
    destruct (parseTimestamp (trim (nth (timestampIndex c) (parseCsvLine line) []))).
  - rewrite mapMutate_compose. reflexivity.
  - apply mapMutate_ext. intros g. simpl. now rewrite app_nil_r.
  - apply mapMutate_ext. intros g. simpl. now rewrite app_nil_r.
  - symmetry. apply mapMutate_id. intros g. rewrite !app_nil_r. apply group_eta.
Qed.

Lemma fold_processRow c rows grouped :
  fold_left (processRow c) rows grouped = fold_left addRow (rowInfos c rows) grouped.
Proof.
  revert grouped; induction rows as [|r rows IH]; intros grouped; [reflexivity|].
  simpl. rewrite IH, processRow_addRow. unfold rowInfos at 2. simpl.
  fold (rowInfos c rows). destruct (rowInfo c r); reflexivity.
Qed.

Lemma groupRows_addRow c rows :
  groupRows c rows = fold_left addRow (rowInfos c rows) [].
Proof. apply fold_processRow. Qed.

End GrouperFacts.

Module GroupingInvariant.

Import JS Parser Spec JSFacts GrouperFacts.

Lemma withKey_app k a b : withKey k (a ++ b) = withKey k a ++ withKey k b.
Proof. apply filter_app. Qed.

Lemma withKey_nil_iff k infos :
  withKey k infos = [] <-> ~ exists i, In i infos /\ riKey i = k.
Proof.
  unfold withKey. induction infos as [|i infos IH]; simpl.
  - split; [intros _ [i [[] _]] | reflexivity].
  - destruct (str_eqb (riKey i) k) eqn:E.
    + apply str_eqb_eq in E. split; [discriminate|].
      intros H. exfalso. apply H. exists i. split; [now left | assumption].
    + apply str_eqb_neq in E. rewrite IH. split.
      * intros H [j [[->|I] K]]; [contradiction|]. apply H. now exists j.
      * intros H [j [I K]]. apply H. exists j. split; [now right | assumption].
Qed.

Lemma firstCode_app k a b :
  withKey k a <> [] -> firstCode k (a ++ b) = firstCode k a.
Proof.
  unfold firstCode. rewrite withKey_app. destruct (withKey k a); [congruence | reflexivity].
Qed.

Lemma Grouped_nil : Grouped [] [].
Proof.
  split; [constructor|]. split.
  - intros k. simpl. split; [tauto | intros [i [[] _]]].
  - intros k g H. discriminate.
Qed.

Lemma Grouped_addRow grouped infos i :
  Grouped grouped infos -> Grouped (addRow grouped i) (infos ++ [i]).
Proof.
  intros (N & K & G). unfold addRow.
  set (k0 := riKey i).
  set (f := fun g => mkGroup (entries g ++ riEntries i) (coCd g) (timestamps g ++ riTimes i)).
  assert (W0 : withKey k0 [i] = [i]).
  { unfold withKey. simpl. fold k0. now rewrite str_eqb_refl. }
  assert (Wn : forall k, k <> k0 -> withKey k [i] = []).
  { intros k D. unfold withKey. simpl. fold k0.
    destruct (str_eqb k0 k) eqn:E; [apply str_eqb_eq in E; congruence | reflexivity]. }
  destruct (mapHas k0 grouped) eqn:H.
  - (* the key is known: its group grows *)
    split; [now rewrite keys_mapMutate|]. split.
    + intros k. rewrite keys_mapMutate, K. split.
      * intros [j [I E]]. exists j. split; [apply in_or_app; now left | assumption].
      * intros [j [I E]]. apply in_app_or in I as [I|[<-|[]]].
        -- now exists j.
        -- apply K. apply mapHas_In. now rewrite <- E.
    + intros k g. rewrite mapGet_mapMutate.
      destruct (str_eqb k0 k) eqn:E.
      * apply str_eqb_eq in E; subst k.
        destruct (mapGet k0 grouped) as [g0|] eqn:G0; [|discriminate].
        simpl. intros X; inversion X; subst g. rewrite (G _ _ G0).
        unfold f, groupOf. simpl.
        assert (NE : withKey k0 infos <> []).
        { intros C. apply withKey_nil_iff in C. apply C. apply K. now apply mapHas_In. }
        rewrite firstCode_app by exact NE. rewrite withKey_app, W0, !flat_map_app.
        simpl. now rewrite !app_nil_r.
      * apply str_eqb_neq in E. intros X. rewrite (G _ _ X).
        unfold groupOf, firstCode. rewrite withKey_app, (Wn k) by congruence.
        now rewrite app_nil_r.
  - (* a new key: a fresh group is appended, then grows *)
    assert (NI : ~ In k0 (map fst grouped)) by now apply mapHas_false.
    assert (E0 : withKey k0 infos = []).
    { apply withKey_nil_iff. intros C. apply NI. now apply K. }
    split.
    { rewrite keys_mapMutate, keys_mapSet_new by assumption.
      apply NoDup_app; [assumption | constructor; [tauto | constructor] |].
      intros a I [<-|[]]. contradiction. }
    split.
    + intros k. rewrite keys_mapMutate, keys_mapSet_new by assumption.
      rewrite in_app_iff, K. simpl. split.
      * intros [[j [I E]]|[<-|[]]].
        -- exists j. split; [apply in_or_app; now left | assumption].
        -- exists i. split; [apply in_or_app; right; now left | reflexivity].
      * intros [j [I E]]. apply in_app_or in I as [I|[<-|[]]].
        -- left. now exists j.
        -- right. now left.
    + intros k g. rewrite mapGet_mapMutate, mapGet_mapSet_new by assumption.
      destruct (str_eqb k0 k) eqn:E.
      * apply str_eqb_eq in E; subst k. simpl. intros X; inversion X; subst g.
        unfold f, groupOf, firstCode. rewrite withKey_app, E0, W0. simpl.
        now rewrite !app_nil_r.
      * apply str_eqb_neq in E. intros X. rewrite (G _ _ X).
        unfold groupOf, firstCode. rewrite withKey_app, (Wn k) by congruence.
        now rewrite app_nil_r.
Qed.

Lemma Grouped_fold infos : forall grouped done,
  Grouped grouped done -> Grouped (fold_left addRow infos grouped) (done ++ infos).
Proof.
  induction infos as [|i infos IH]; intros grouped done H; simpl.
  - now rewrite app_nil_r.
  - replace (done ++ i :: infos) with ((done ++ [i]) ++ infos)
      by (rewrite <- app_assoc; reflexivity).
    apply IH. now apply Grouped_addRow.
Qed.

(** The map the loop leaves is the one its rows build. *)
Lemma Grouped_groupRows c rows : Grouped (groupRows c rows) (rowInfos c rows).
Proof.
  rewrite groupRows_addRow.
  exact (Grouped_fold (rowInfos c rows) Grouped_nil).
Qed.

Lemma rowInfos_In c rows r i :
  In r rows -> rowInfo c r = Some i -> In i (rowInfos c rows).
Proof.
  intros I H. unfold rowInfos. apply in_flat_map. exists r. split; [assumption|].
  rewrite H. now left.
Qed.

Lemma rowInfos_inv c rows i :
  In i (rowInfos c rows) -> exists r, In r rows /\ rowInfo c r = Some i.
Proof.
  unfold rowInfos. rewrite in_flat_map. intros [r [I H]]. exists r. split; [assumption|].
  destruct (rowInfo c r); [destruct H as [->|[]]; reflexivity | destruct H].
Qed.

Lemma rowInfo_codes c r i :
  rowInfo c r = Some i -> riDocumentId i <> [] /\ riCompanyCode i <> [].
Proof.
  unfold rowInfo.
  destruct (_ || _ || _ || _ || _); [discriminate|].
  destruct (truthy (trim (nth (docIdIndex c) (parseCsvLine r) []))) eqn:T1; [|discriminate].
  destruct (truthy (trim (nth (coCdIndex c) (parseCsvLine r) []))) eqn:T2; [|discriminate].
  simpl. intros H; inversion H; subst; simpl.
  split; intros E; [rewrite E in T1 | rewrite E in T2]; discriminate.
Qed.

End GroupingInvariant.

(** ** The classifier *)

Module ClassifierFacts.

Import JS Parser Spec JSFacts.

Local Open Scope Z_scope.

(** What the loop over the entries changes and what it leaves alone. *)
Lemma fold_classifyEntry es : forall run set,
  let run' := fst (fold_left classifyEntry es (run, set)) in
  uniqueKey run' = uniqueKey run /\
  companyCode run' = companyCode run /\
  transactionDate run' = transactionDate run /\
  startTime run' = startTime run /\
  endTime run' = endTime run /\
  flags run' = orFlags (flags run) (groupFlags es).
Proof.
  induction es as [|e es IH]; intros run set.
  - simpl. repeat split. unfold flags, orFlags; simpl. now rewrite !orb_false_r.
  - cbn [fold_left].
    destruct (classifyEntry (run, set) e) as [r1 s1] eqn:E1.
    specialize (IH r1 s1). cbv zeta in *.
    destruct IH as (I1 & I2 & I3 & I4 & I5 & I6).
    rewrite I1, I2, I3, I4, I5, I6.
    unfold classifyEntry in E1. inversion E1; subst r1. clear E1.
    repeat split. unfold flags, orFlags, groupFlags, entryFlags. cbn.
    repeat match goal with
    | |- context [if ?b then true else ?x] => destruct b; simpl
    end;
    rewrite ?orb_true_r, ?orb_false_r; reflexivity.
Qed.

Lemma classify_fields key data :
  uniqueKey (classify (key, data)) = key /\
  companyCode (classify (key, data)) = Some (coCd data) /\
  transactionDate (classify (key, data)) =
    (if (0 <? length (timestamps data))%nat then maxTime (timestamps data) else 0) /\
  startTime (classify (key, data)) = markerTime startProcessingMessage (entries data) /\
  endTime (classify (key, data)) = markerTime endProcessingMessage (entries data) /\
  flags (classify (key, data)) = groupFlags (entries data).
Proof.
  unfold classify.
  match goal with
  | |- context [fold_left classifyEntry ?es (?r, ?s)] =>
      pose proof (fold_classifyEntry es r s) as H; cbv zeta in H;
      destruct (fold_left classifyEntry es (r, s)) as [run' set']
  end.
  simpl in H. destruct H as (I1 & I2 & I3 & I4 & I5 & I6).
  simpl. repeat split; assumption.
Qed.

Lemma groupFlags_app a b : groupFlags (a ++ b) = orFlags (groupFlags a) (groupFlags b).
Proof. unfold groupFlags, orFlags. rewrite !existsb_app. reflexivity. Qed.

Lemma fold_max_ge ts : forall t, t <= fold_left Z.max ts t.
Proof.
  induction ts as [|x ts IH]; intros t; simpl; [lia|].
  specialize (IH (Z.max t x)). lia.
Qed.

Lemma fold_max_bound ts : forall t x, In x ts -> x <= fold_left Z.max ts t.
Proof.
  induction ts as [|y ts IH]; intros t x I; [destruct I|].
  simpl. destruct I as [->|I].
  - pose proof (fold_max_ge ts (Z.max t x)). lia.
  - now apply IH.
Qed.

Lemma maxTime_bound ts x : In x ts -> x <= maxTime ts.
Proof.
  destruct ts as [|t ts]; [intros []|]. simpl. intros [->|I].
  - apply fold_max_ge.
  - now apply fold_max_bound.
Qed.

(** The first element of the entries sorted newest first is a newest one. *)
Lemma sortBy_head es :
  Forall (fun e => isSome (timestamp e) = true) es ->
  match sortBy byTimeDesc es with
  | [] => es = []
  | e :: _ =>
      In e es /\
      forall e' t t', In e' es -> timestamp e = Some t -> timestamp e' = Some t' -> t' <= t
  end.
Proof.
  induction 1 as [|x es Hx H IH]; [reflexivity|].
  simpl. destruct (sortBy byTimeDesc es) as [|e r].
  - subst es. simpl. split; [now left|].
    intros e' t t' [<-|[]] E1 E2. rewrite E1 in E2. inversion E2; lia.
  - destruct IH as [I M]. simpl.
    destruct (timestamp x) as [tx|] eqn:Tx; [|discriminate].
    assert (He : isSome (timestamp e) = true).
    { rewrite Forall_forall in H. now apply H. }
    destruct (timestamp e) as [te|] eqn:Te; [|discriminate].
    unfold byTimeDesc. rewrite Tx, Te.
    destruct (te - tx <=? 0) eqn:C.
    + apply Z.leb_le in C. split; [now left|].
      intros e' t t' [<-|I'] E1 E2.
      * rewrite Tx in E1, E2. inversion E1; inversion E2; lia.
      * rewrite Tx in E1. inversion E1; subst t.
        specialize (M e' te t' I' eq_refl E2). lia.
    + apply Z.leb_gt in C. split; [now right|].
      intros e' t t' [<-|I'] E1 E2.
      * rewrite Te in E1. rewrite Tx in E2. inversion E1; inversion E2; lia.
      * rewrite Te in E1. now apply (M e' t t' I').
Qed.

Lemma In_markerTimes marker es t :
  In t (markerTimes marker es) <->
  exists e, In e es /\ message e = marker /\ timestamp e = Some t.
Proof.
  unfold markerTimes. rewrite in_flat_map. split.
  - intros [e [I H]]. exists e. split; [assumption|].
    destruct (str_eqb (message e) marker) eqn:E; [|destruct H].
    apply str_eqb_eq in E. destruct (timestamp e); [|destruct H].
    destruct H as [->|[]]. now split.
  - intros [e [I [M T]]]. exists e. split; [assumption|].
    rewrite <- M, str_eqb_refl, T. now left.
Qed.

(** [markerTime] is the latest of the marker's timestamps. *)
Lemma markerTime_latest marker es :
  isLatest (markerTimes marker es) (markerTime marker es).
Proof.
  unfold markerTime.
  set (p := fun e => str_eqb (message e) marker && isSome (timestamp e)).
  assert (F : Forall (fun e => isSome (timestamp e) = true) (filter p es)).
  { apply Forall_forall. intros e I. apply filter_In in I as [_ I].
    unfold p in I. now apply andb_true_iff in I. }
  pose proof (sortBy_head F) as S.
  destruct (sortBy byTimeDesc (filter p es)) as [|e r].
  - simpl. destruct (markerTimes marker es) as [|t ts] eqn:M; [reflexivity|].
    assert (I : In t (markerTimes marker es)) by (rewrite M; now left).
    apply In_markerTimes in I as [e [I [E T]]].
    assert (I' : In e (filter p es)).
    { apply filter_In. split; [assumption|]. unfold p. now rewrite <- E, str_eqb_refl, T. }
    rewrite S in I'. destruct I'.
  - destruct S as [I M]. apply filter_In in I as [I P]. unfold p in P.
    apply andb_true_iff in P as [P1 P2]. apply str_eqb_eq in P1.
    destruct (timestamp e) as [t|] eqn:T; [|discriminate]. simpl. split.
    + apply In_markerTimes. now exists e.
    + intros t' I'. apply In_markerTimes in I' as [e' [I' [E' T']]].
      apply (M e' t t'); [|reflexivity|assumption].
      apply filter_In. split; [assumption|]. unfold p. now rewrite E', str_eqb_refl, T'.
Qed.

End ClassifierFacts.

(** ** The aggregator *)

Module DashboardFacts.

Import JS Parser Dashboard Spec JSFacts GrouperFacts.

Lemma keys_mapSet_old {V} k (v : V) m :
  mapHas k m = true -> map fst (mapSet k v m) = map fst m.
Proof.
  induction m as [|[k' v'] m IH]; simpl; [discriminate|].
  destruct (str_eqb k' k) eqn:E; simpl; [reflexivity|].
  intros H. now rewrite IH.
Qed.

Lemma getCount_mapSet k k' n o :
  getCount k (mapSet k' n o) = if str_eqb k' k then n else getCount k o.
Proof.
  induction o as [|[k0 n0] o IH]; simpl.
  - reflexivity.
  - destruct (str_eqb k0 k') eqn:E0; simpl.
    + apply str_eqb_eq in E0; subst k0. now destruct (str_eqb k' k).
    + destruct (str_eqb k0 k) eqn:E1; [|exact IH].
      apply str_eqb_eq in E1; subst k0. rewrite str_eqb_sym in E0. now rewrite E0.
Qed.

Lemma occurrences_app k a b : occurrences k (a ++ b) = occurrences k a + occurrences k b.
Proof. unfold occurrences. now rewrite filter_app, length_app. Qed.

Lemma Counted_nil : Counted [] [].
Proof.
  split; [constructor|]. intros k. simpl. split; [reflexivity|].
  unfold occurrences; simpl. split; [tauto | lia].
Qed.

Lemma Counted_bump o seen k o' :
  Counted o seen -> bump o k = Some o' -> Counted o' (seen ++ [k]).
Proof.
  intros [N C] B. unfold bump in B.
  destruct (inheritedKey k); [discriminate|]. inversion B; subst o'; clear B.
  assert (O1 : occurrences k [k] = 1).
  { unfold occurrences. simpl. now rewrite str_eqb_refl. }
  assert (On : forall k', k' <> k -> occurrences k' [k] = 0).
  { intros k' D. unfold occurrences. simpl.
    destruct (str_eqb k' k) eqn:E; [apply str_eqb_eq in E; congruence | reflexivity]. }
  split.
  - destruct (mapHas k o) eqn:H.
    + now rewrite keys_mapSet_old.
    + rewrite keys_mapSet_new by assumption.
      apply NoDup_app; [assumption | constructor; [tauto | constructor] |].
      intros a I [<-|[]]. apply mapHas_false in H. contradiction.
  - intros k'. rewrite getCount_mapSet, occurrences_app.
    destruct (str_eqb k k') eqn:E.
    + apply str_eqb_eq in E; subst k'. rewrite O1. destruct (C k) as [-> HK].
      split; [reflexivity|]. split; [lia|]. intros _.
      destruct (mapHas k o) eqn:H.
      * rewrite keys_mapSet_old by assumption. now apply mapHas_In.
      * rewrite keys_mapSet_new by assumption. apply in_or_app. right; now left.
    + apply str_eqb_neq in E. rewrite On by congruence. rewrite Nat.add_0_r.
      destruct (C k') as [-> HK]. split; [reflexivity|]. rewrite <- HK.
      destruct (mapHas k o) eqn:H.
      * now rewrite keys_mapSet_old.
      * rewrite keys_mapSet_new by assumption. rewrite in_app_iff. simpl.
        split; [intros [I|[I|[]]]; [assumption | congruence] | tauto].
Qed.

Lemma Counted_foldM ks : forall o seen o',
  Counted o seen -> foldM bump ks o = Some o' -> Counted o' (seen ++ ks).
Proof.
  induction ks as [|k ks IH]; intros o seen o' C F; simpl in F.
  - inversion F; subst. now rewrite app_nil_r.
  - destruct (bump o k) as [o1|] eqn:B; [|discriminate].
    replace (seen ++ k :: ks) with ((seen ++ [k]) ++ ks)
      by (rewrite <- app_assoc; reflexivity).
    eapply IH; [|exact F]. eapply Counted_bump; eassumption.
Qed.

(** The two counting loops count the keys of their Runs. *)
Lemma foldM_codes rs : forall o,
  foldM (fun (companyCodeCounts : Counts) (run : Run) =>
           match companyCode run with
           | Some c => if truthy c then bump companyCodeCounts c else Some companyCodeCounts
           | None => Some companyCodeCounts
           end) rs o
  = foldM bump (codeKeys rs) o.
Proof.
  induction rs as [|r rs IH]; intros o; [reflexivity|].
  simpl. destruct (companyCode r) as [c|]; [|apply IH].
  destruct (truthy c); [|apply IH].
  simpl. destruct (bump o c); [apply IH | reflexivity].
Qed.

Lemma foldM_app {A B} (f : A -> B -> option A) l1 l2 a :
  foldM f (l1 ++ l2) a =
  match foldM f l1 a with
  | Some a' => foldM f l2 a'
  | None => None
  end.
Proof.
  revert a; induction l1 as [|x l1 IH]; intros a; simpl; [reflexivity|].
  destruct (f a x); [apply IH | reflexivity].
Qed.

Lemma foldM_types rs : forall o,
  foldM (fun (requestTypeCounts : Counts) (run : Run) =>
           foldM bump (requestTypes run) requestTypeCounts) rs o
  = foldM bump (typeKeys rs) o.
Proof.
  induction rs as [|r rs IH]; intros o; [reflexivity|].
  simpl. unfold typeKeys in *. rewrite foldM_app.
  destruct (foldM bump (requestTypes r) o); [apply IH | reflexivity].
Qed.

Lemma insertBy_perm {A} (cmp : A -> A -> Z) x l : Permutation (insertBy cmp x l) (x :: l).
Proof.
  induction l as [|y l IH]; simpl; [apply Permutation_refl|].
  destruct (cmp x y <=? 0)%Z; [apply Permutation_refl|].
  eapply perm_trans; [apply perm_skip, IH | apply perm_swap].
Qed.

Lemma sortBy_perm {A} (cmp : A -> A -> Z) l : Permutation (sortBy cmp l) l.
Proof.
  induction l as [|x l IH]; simpl; [constructor|].
  eapply perm_trans; [apply insertBy_perm | now apply perm_skip].
Qed.

Lemma filter_partition_perm {A} (p : A -> bool) l :
  Permutation (filter p l ++ filter (fun x => negb (p x)) l) l.
Proof.
  induction l as [|x l IH]; simpl; [constructor|].
  destruct (p x); simpl.
  - now apply perm_skip.
  - eapply perm_trans; [apply Permutation_sym, Permutation_middle | now apply perm_skip].
Qed.

Lemma objectEntries_perm o : Permutation (objectEntries o) o.
Proof.
  unfold objectEntries.
  eapply perm_trans; [|apply (filter_partition_perm (fun kv => isSome (arrayIndex (fst kv))))].
  apply Permutation_app_tail, sortBy_perm.
Qed.

Lemma getCount_In o k n : NoDup (map fst o) -> In (k, n) o -> getCount k o = n.
Proof.
  induction o as [|[k0 n0] o IH]; simpl; intros N I; [destruct I|].
  inversion N as [|? ? N1 N2]; subst. destruct I as [I|I].
  - inversion I; subst. now rewrite str_eqb_refl.
  - destruct (str_eqb k0 k) eqn:E; [|now apply IH].
    apply str_eqb_eq in E; subst k0. exfalso. apply N1.
    change k with (fst (k, n)). now apply in_map.
Qed.

Lemma In_getCount o k : In k (map fst o) -> In (k, getCount k o) o.
Proof.
  induction o as [|[k0 n0] o IH]; simpl; [tauto|].
  destruct (str_eqb k0 k) eqn:E.
  - apply str_eqb_eq in E; subst k0. intros _. now left.
  - apply str_eqb_neq in E. intros [I|I]; [congruence|]. right. now apply IH.
Qed.

(** A finished table, listed and sorted, still holds the counts. *)
Lemma breakdown_counts ks o :
  foldM bump ks [] = Some o ->
  countsOf ks (sortBy byCountDesc (objectEntries o)).
Proof.
  intros F. pose proof (Counted_foldM ks Counted_nil F) as [N C]. simpl in C.
  assert (P : Permutation (sortBy byCountDesc (objectEntries o)) o).
  { eapply perm_trans; [apply sortBy_perm | apply objectEntries_perm]. }
  split.
  - eapply Permutation_NoDup; [apply Permutation_sym, Permutation_map, P | exact N].
  - intros k n. destruct (C k) as [G HK]. split.
    + intros I. apply (Permutation_in _ P) in I.
      pose proof (@getCount_In o k n N I) as E. rewrite G in E. subst n.
      split; [|reflexivity]. apply HK. change k with (fst (k, occurrences k ks)).
      now apply in_map.
    + intros [L ->]. apply (Permutation_in _ (Permutation_sym P)).
      rewrite <- G. apply In_getCount. now apply HK.
Qed.

End DashboardFacts.

Module DashboardClaims.

Import JS Parser Dashboard Spec JSFacts DashboardFacts.

Lemma foldM_bump_total ks : forall o,
  Forall (fun k => inheritedKey k = false) ks -> exists o', foldM bump ks o = Some o'.
Proof.
  induction ks as [|k ks IH]; intros o F; simpl.
  - now exists o.
  - inversion F as [|? ? Hk Hks]; subst. unfold bump at 1. rewrite Hk. now apply IH.
Qed.

Lemma breakdown_result ks :
  Forall (fun k => inheritedKey k = false) ks ->
  exists items,
    option_map (fun o => sortBy byCountDesc (objectEntries o)) (foldM bump ks [])
    = Some items /\ countsOf ks items.
Proof.
  intros F. destruct (foldM_bump_total [] F) as [o E].
  exists (sortBy byCountDesc (objectEntries o)). rewrite E. split; [reflexivity|].
  now apply breakdown_counts.
Qed.

(** C2: the request-type breakdown does not depend on the selected request
    type and the company-code breakdown does not depend on the selected
    company codes.  The request-type breakdown counts the (Run, type)
    memberships of the Runs that pass the company-code selection alone, and
    the company-code breakdown counts the company codes of the Runs that pass
    the request-type selection alone (keys that name an inherited member of
    a plain object are left out of the model). *)
Theorem breakdowns_ignore_own_filter
        (runs : list Run) (codes codes' : list str) (rt rt' : option str) :
  let st := mkState runs codes rt in
  requestTypeBreakdown st = requestTypeBreakdown (mkState runs codes rt') /\
  companyCodeBreakdown st = companyCodeBreakdown (mkState runs codes' rt) /\
  (Forall (fun k => inheritedKey k = false) (typeKeys (byCompanyCodesOnly st)) ->
   exists items, requestTypeBreakdown st = Some items /\
                 countsOf (typeKeys (byCompanyCodesOnly st)) items) /\
  (Forall (fun k => inheritedKey k = false) (codeKeys (byRequestTypeOnly st)) ->
   exists items, companyCodeBreakdown st = Some items /\
                 countsOf (codeKeys (byRequestTypeOnly st)) items).
Proof.
  intros st. split; [reflexivity|]. split; [reflexivity|]. split.
  - unfold requestTypeBreakdown. rewrite foldM_types. apply breakdown_result.
  - unfold companyCodeBreakdown. rewrite foldM_codes. apply breakdown_result.
Qed.

(** On three sample Runs: selecting the type XYZ leaves the request-type
    breakdown as it is and changes the company-code breakdown; selecting the
    company code DE1 leaves the company-code breakdown as it is and changes
    the request-type breakdown. *)
Lemma breakdowns_ignore_own_filter_witness :
  (exists items,
     companyCodeBreakdown (mkState sampleRuns [lit "DE1"] (Some (lit "XYZ"))) = Some items /\
     countsOf (codeKeys (byRequestTypeOnly (mkState sampleRuns [lit "DE1"] (Some (lit "XYZ")))))
              items) /\
  requestTypeBreakdown (mkState sampleRuns [] None)
  = requestTypeBreakdown (mkState sampleRuns [] (Some (lit "XYZ"))) /\
  companyCodeBreakdown (mkState sampleRuns [] None)
  <> companyCodeBreakdown (mkState sampleRuns [] (Some (lit "XYZ"))) /\
  companyCodeBreakdown (mkState sampleRuns [] None)
  = companyCodeBreakdown (mkState sampleRuns [lit "DE1"] None) /\
  requestTypeBreakdown (mkState sampleRuns [] None)
  <> requestTypeBreakdown (mkState sampleRuns [lit "DE1"] None).
Proof.
  split.
  { apply (proj2 (proj2 (proj2
      (breakdowns_ignore_own_filter sampleRuns [lit "DE1"] [] (Some (lit "XYZ")) None)))).
    vm_compute. repeat constructor. }
  split; [apply (breakdowns_ignore_own_filter sampleRuns [] [] None (Some (lit "XYZ")))|].
  split; [vm_compute; discriminate|].
  split; [apply (breakdowns_ignore_own_filter sampleRuns [] [lit "DE1"] None None)|].
  vm_compute; discriminate.
Defined.

(** C8: four Runs with durations 999, 1000, 1000 and 1000 ms have a mean of
    999.75 ms; the display shows a residual of 1000 milliseconds, which is
    not strictly under 1000.  With durations 1999 and 2000 ms the display is
    one second and 1000 milliseconds. *)
Theorem avgProcessingTime_residual_1000 :
  avgProcessingTime
    (mkState [timedRun 0 999; timedRun 0 1000; timedRun 0 1000; timedRun 0 1000] [] None)
  = lit "1000 ms" /\
  avgProcessingTime (mkState [timedRun 0 1999; timedRun 0 2000] [] None)
  = lit "1 sec, 1000 ms".
Proof. split; vm_compute; reflexivity. Qed.

(** The other cases of the display: nothing to average, a mean of exactly
    zero, a sub-second mean, and a mean of a minute and more. *)
Lemma avgProcessingTime_examples :
  avgProcessingTime (mkState [] [] None) = lit "N/A" /\
  avgProcessingTime (mkState sampleRuns [] None) = lit "N/A" /\
  avgProcessingTime (mkState [timedRun 5 5] [] None) = lit "0 sec" /\
  avgProcessingTime (mkState [timedRun 0 250] [] None) = lit "250 ms" /\
  avgProcessingTime (mkState [timedRun 0 61001] [] None) = lit "61 sec, 1 ms".
Proof. repeat split; vm_compute; reflexivity. Qed.

Lemma ms_suffix_not_NA x : x ++ lit " ms" <> lit "N/A".
Proof.
  intros H. apply (f_equal (@rev ascii)) in H. rewrite rev_app_distr in H.
  simpl in H. discriminate.
Qed.

(** X23: the display is the not-applicable text exactly when no Run of the
    effective filtered set has both its start and its end time, or the mean
    is not a number. *)
Lemma avgProcessingTime_not_applicable_iff st :
  avgProcessingTime st = lit "N/A" <->
  validRuns st = [] \/ PrimFloat.is_nan (meanDuration (validRuns st)) = true.
Proof.
  unfold avgProcessingTime. fold (validRuns st).
  destruct (validRuns st) as [|r rs] eqn:V.
  - simpl. split; [now left | reflexivity].
  - change (length (r :: rs) =? 0)%nat with false. cbv iota.
    fold (meanDuration (r :: rs)).
    destruct (PrimFloat.is_nan (meanDuration (r :: rs))).
    + split; [now right | reflexivity].
    + split; [|intros [H|H]; discriminate].
      intros H. exfalso.
      destruct (PrimFloat.eqb (meanDuration (r :: rs)) 0); [discriminate|].
      cbv zeta in H.
      destruct (PrimFloat.ltb 0 _).
      * rewrite !app_assoc in H. now apply ms_suffix_not_NA in H.
      * now apply ms_suffix_not_NA in H.
Qed.

End DashboardClaims.

(** ** Claims about the classifier and [processLogFile] *)

Module ParserClaims.

Import JS Parser Spec JSFacts GrouperFacts GroupingInvariant ClassifierFacts.

Local Open Scope Z_scope.

(** C6: the start time of a Run is the latest parsed timestamp among the
    entries of its group whose message is exactly the start marker, and is
    absent when there is none; the end time is the same with the end marker;
    with start markers at T1 and T2, T1 < T2, the start time is T2. *)
Theorem classify_marker_times (key : str) (data : Group) (T1 T2 : Z) :
  isLatest (markerTimes startProcessingMessage (entries data))
           (startTime (classify (key, data))) /\
  isLatest (markerTimes endProcessingMessage (entries data))
           (endTime (classify (key, data))) /\
  (Permutation [T1; T2] (markerTimes startProcessingMessage (entries data)) ->
   T1 < T2 -> startTime (classify (key, data)) = Some T2).
Proof.
  destruct (classify_fields key data) as (_ & _ & _ & S & E & _).
  rewrite S, E.
  pose proof (markerTime_latest startProcessingMessage (entries data)) as LS.
  pose proof (markerTime_latest endProcessingMessage (entries data)) as LE.
  split; [exact LS|]. split; [exact LE|].
  intros P L.
  destruct (markerTime startProcessingMessage (entries data)) as [t|]; simpl in LS.
  - destruct LS as [I M]. f_equal.
    assert (I2 : In T2 (markerTimes startProcessingMessage (entries data))).
    { eapply Permutation_in; [exact P|]. right; now left. }
    apply (Permutation_in _ (Permutation_sym P)) in I.
    specialize (M _ I2). destruct I as [<-|[<-|[]]]; lia.
  - rewrite LS in P. apply Permutation_sym, Permutation_nil in P. discriminate.
Qed.

Lemma classify_marker_times_witness :
  startTime (classify (lit "D1--US1",
    mkGroup [mkEntry startProcessingMessage (lit "I") (Some 1000);
             mkEntry autoApprovalMessage (lit "I") (Some 3000);
             mkEntry startProcessingMessage (lit "I") (Some 2000)]
            (lit "US1") [1000; 3000; 2000])) = Some 2000.
Proof.
  refine (proj2 (proj2 (classify_marker_times _ _ 1000 2000)) _ _).
  - vm_compute. apply Permutation_refl.
  - reflexivity.
Defined.

Lemma headerHas_indexOf lines name :
  indexOf name (map (fun h => toLowerCase (trim h)) (parseCsvLine (nth 0 lines [])))
  = None <-> ~ headerHas lines name.
Proof.
  rewrite indexOf_None. unfold headerHas. rewrite in_map_iff.
  split; intros H [f F]; apply H; exists f; tauto.
Qed.

Lemma processLines_cases lines :
  ((exists e, processLines lines = Error e) <->
   (length lines < 2)%nat \/
   exists name, In name requiredColumns /\ ~ headerHas lines name) /\
  (forall e, processLines lines = Error e -> In e errorTexts).
Proof.
  unfold processLines.
  destruct (length lines <? 2)%nat eqn:L.
  { apply Nat.ltb_lt in L. split.
    - split; [intros _; now left | intros _; now eexists].
    - intros e H; inversion H. now left. }
  apply Nat.ltb_ge in L.
  set (header := map (fun h => toLowerCase (trim h)) (parseCsvLine (nth 0 lines []))).
  pose proof (headerHas_indexOf lines (lit "document id")) as H1.
  pose proof (headerHas_indexOf lines (lit "cocd")) as H2.
  pose proof (headerHas_indexOf lines (lit "message")) as H3.
  pose proof (headerHas_indexOf lines (lit "timestamp")) as H4.
  pose proof (headerHas_indexOf lines (lit "type")) as H5.
  destruct (indexOf (lit "document id") header) as [di|] eqn:E1.
  2:{ split.
      - split; [intros _; right | intros _; now eexists].
        exists (lit "document id"). split; [now left | exact (proj1 H1 E1)].
      - intros e H; inversion H. right; now left. }
  destruct (indexOf (lit "cocd") header) as [ci|] eqn:E2.
  2:{ split.
      - split; [intros _; right | intros _; now eexists].
        exists (lit "cocd"). split; [right; now left | exact (proj1 H2 E2)].
      - intros e H; inversion H. right; right; now left. }
  destruct (indexOf (lit "message") header) as [mi|] eqn:E3.
  2:{ split.
      - split; [intros _; right | intros _; now eexists].
        exists (lit "message"). split; [right; right; now left | exact (proj1 H3 E3)].
      - intros e H; inversion H. right; right; right; now left. }
  destruct (indexOf (lit "timestamp") header) as [ti|] eqn:E4.
  2:{ split.
      - split; [intros _; right | intros _; now eexists].
        exists (lit "timestamp"). split; [right; right; right; now left | exact (proj1 H4 E4)].
      - intros e H; inversion H. right; right; right; right; now left. }
  destruct (indexOf (lit "type") header) as [yi|] eqn:E5.
  2:{ split.
      - split; [intros _; right | intros _; now eexists].
        exists (lit "type"). split; [right; right; right; right; now left | exact (proj1 H5 E5)].
      - intros e H; inversion H. right; right; right; right; right; now left. }
  split; [|intros e H; discriminate].
  split; [intros [e H]; discriminate|].
  intros [C|[name [I N]]]; [lia|]. exfalso.
  destruct I as [<-|[<-|[<-|[<-|[<-|[]]]]]].
  - apply (proj2 H1) in N. assert (X : Some di = None) by (rewrite <- E1; exact N). discriminate.
  - apply (proj2 H2) in N. assert (X : Some ci = None) by (rewrite <- E2; exact N). discriminate.
  - apply (proj2 H3) in N. assert (X : Some mi = None) by (rewrite <- E3; exact N). discriminate.
  - apply (proj2 H4) in N. assert (X : Some ti = None) by (rewrite <- E4; exact N). discriminate.
  - apply (proj2 H5) in N. assert (X : Some yi = None) by (rewrite <- E5; exact N). discriminate.
Qed.

(** C7: [processLogFile] answers with an error text, and no Runs, exactly
    when the input has fewer than two lines that are not blank or the header
    (the first such line) lacks one of the five required columns, compared in
    lower case after trimming; the error is one fixed descriptive text; every
    other input yields a collection of Runs. *)
Theorem processLogFile_error_iff (fileContent : str) :
  ((exists e, processLogFile fileContent = Error e) <->
   (length (linesOf fileContent) < 2)%nat \/
   exists name, In name requiredColumns /\ ~ headerHas (linesOf fileContent) name) /\
  (forall e, processLogFile fileContent = Error e -> In e errorTexts) /\
  (~ ((length (linesOf fileContent) < 2)%nat \/
      exists name, In name requiredColumns /\ ~ headerHas (linesOf fileContent) name) ->
   exists runs, processLogFile fileContent = Runs runs).
Proof.
  unfold processLogFile. fold (linesOf fileContent).
  destruct (processLines_cases (linesOf fileContent)) as [A B].
  split; [exact A|]. split; [exact B|].
  intros N. destruct (processLines (linesOf fileContent)) as [runs|e] eqn:E.
  - now exists runs.
  - exfalso. apply N, A. now exists e.
Qed.

(** A file without data rows is refused; the scenario file is accepted. *)
Lemma processLogFile_error_iff_witness :
  processLogFile (fileOf [sampleHeader]) = Error errEmpty /\
  exists runs, processLogFile (fileOf [sampleHeader; scenarioRow1; scenarioRow2]) = Runs runs.
Proof.
  split; [reflexivity|].
  apply (proj2 (proj2 (processLogFile_error_iff _))).
  intros [L|[name [I N]]].
  - vm_compute in L. lia.
  - apply N. unfold headerHas.
    destruct I as [<-|[<-|[<-|[<-|[<-|[]]]]]].
    + exists (lit "Document ID"). split; [vm_compute; tauto | reflexivity].
    + exists (lit "CoCd"). split; [vm_compute; tauto | reflexivity].
    + exists (lit "Message"). split; [vm_compute; tauto | reflexivity].
    + exists (lit "TimeStamp"). split; [vm_compute; tauto | reflexivity].
    + exists (lit "Type"). split; [vm_compute; tauto | reflexivity].
Defined.

(** The Runs of an accepted file are those of its data rows under the column
    layout read from the header. *)
Lemma processLogFile_runsOf fileContent runs :
  processLogFile fileContent = Runs runs ->
  exists c, runs = runsOf c (skipn 1 (linesOf fileContent)).
Proof.
  unfold processLogFile, processLines. fold (linesOf fileContent).
  destruct (length (linesOf fileContent) <? 2)%nat; [discriminate|].
  repeat match goal with
  | |- context [match indexOf ?x ?h with _ => _ end] =>
      destruct (indexOf x h); [|discriminate]
  end.
  intros H; inversion H. eexists. reflexivity.
Qed.

(** Every Run is the classification of the group its key's rows build. *)
Lemma runsOf_inv c rows r :
  In r (runsOf c rows) ->
  exists k, r = classify (k, groupOf k (rowInfos c rows)) /\
            withKey k (rowInfos c rows) <> [].
Proof.
  unfold runsOf. rewrite in_map_iff. intros [[k g] [<- I]].
  destruct (Grouped_groupRows c rows) as (N & K & G).
  exists k. split.
  - f_equal. f_equal. apply G. now apply In_mapGet.
  - intros C. apply withKey_nil_iff in C. apply C, K.
    change k with (fst (k, g)). now apply in_map.
Qed.

Lemma withKey_hd k infos i rest :
  withKey k infos = i :: rest -> In i infos /\ riKey i = k.
Proof.
  intros H. assert (I : In i (withKey k infos)) by (rewrite H; now left).
  unfold withKey in I. apply filter_In in I as [I E]. apply str_eqb_eq in E. now split.
Qed.

(** C9: every Run that [processLogFile] produces carries a company code that
    is a non-empty string. *)
Theorem runs_have_company_code (fileContent : str) (runs : list Run) (r : Run) :
  processLogFile fileContent = Runs runs -> In r runs ->
  exists code, companyCode r = Some code /\ code <> [].
Proof.
  intros H I. apply processLogFile_runsOf in H as [c ->].
  apply runsOf_inv in I as [k [-> NE]].
  destruct (classify_fields k (groupOf k (rowInfos c (skipn 1 (linesOf fileContent)))))
    as (_ & C & _).
  rewrite C. eexists. split; [reflexivity|].
  simpl. unfold firstCode.
  destruct (withKey k _) as [|i rest] eqn:W; [congruence|].
  apply withKey_hd in W as [W _]. apply rowInfos_inv in W as [row [_ R]].
  now apply rowInfo_codes in R.
Qed.

Lemma runs_have_company_code_witness :
  exists code,
    companyCode (classify (lit "D1--US1",
      mkGroup [mkEntry autoApprovalMessage (lit "I") (Some 1709294400000);
               mkEntry endProcessingMessage (lit "I") (Some 1709294405000)]
              (lit "US1") [1709294400000; 1709294405000])) = Some code /\ code <> [].
Proof.
  refine (@runs_have_company_code
            (fileOf [sampleHeader; scenarioRow1; scenarioRow2]) _ _ _ _).
  - vm_compute. reflexivity.
  - vm_compute. now left.
Defined.

Lemma group_times_cover k infos e t :
  In e (entries (groupOf k infos)) -> timestamp e = Some t ->
  In t (timestamps (groupOf k infos)).
Proof.
  simpl. rewrite !in_flat_map. intros [i [I E]] T. exists i. split; [assumption|].
  unfold riEntries in E. destruct (truthy (riMessage i)); [|destruct E].
  destruct E as [<-|[]]. simpl in T. unfold riTimes. rewrite T. now left.
Qed.

Lemma markerTime_le_max marker k infos t :
  markerTime marker (entries (groupOf k infos)) = Some t ->
  t <= (if (0 <? length (timestamps (groupOf k infos)))%nat
        then maxTime (timestamps (groupOf k infos)) else 0).
Proof.
  intros H. pose proof (markerTime_latest marker (entries (groupOf k infos))) as L.
  rewrite H in L. destruct L as [I _].
  apply In_markerTimes in I as [e [I [_ T]]].
  pose proof (group_times_cover _ _ _ I T) as C.
  destruct (timestamps (groupOf k infos)) as [|x ts] eqn:X; [destruct C|].
  change (0 <? length (x :: ts))%nat with true. cbv iota.
  now apply maxTime_bound.
Qed.

(** C10: in every Run that [processLogFile] produces, a start time that is
    present is not later than the transaction date, and neither is an end
    time that is present. *)
Theorem marker_times_not_after_transactionDate
        (fileContent : str) (runs : list Run) (r : Run) :
  processLogFile fileContent = Runs runs -> In r runs ->
  (forall t, startTime r = Some t -> t <= transactionDate r) /\
  (forall t, endTime r = Some t -> t <= transactionDate r).
Proof.
  intros H I. apply processLogFile_runsOf in H as [c ->].
  apply runsOf_inv in I as [k [-> _]].
  destruct (classify_fields k (groupOf k (rowInfos c (skipn 1 (linesOf fileContent)))))
    as (_ & _ & D & S & E & _).
  rewrite D, S, E. split; intros t T; eapply markerTime_le_max; exact T.
Qed.

Lemma marker_times_not_after_transactionDate_witness :
  1709294405000 <=
  transactionDate (classify (lit "D1--US1",
    mkGroup [mkEntry autoApprovalMessage (lit "I") (Some 1709294400000);
             mkEntry endProcessingMessage (lit "I") (Some 1709294405000)]
            (lit "US1") [1709294400000; 1709294405000])).
Proof.
  refine (proj2 (@marker_times_not_after_transactionDate
            (fileOf [sampleHeader; scenarioRow1; scenarioRow2]) _
            (classify (lit "D1--US1",
               mkGroup [mkEntry autoApprovalMessage (lit "I") (Some 1709294400000);
                        mkEntry endProcessingMessage (lit "I") (Some 1709294405000)]
                       (lit "US1") [1709294400000; 1709294405000])) _ _) _ _).
  - vm_compute. reflexivity.
  - vm_compute. now left.
  - vm_compute. reflexivity.
Defined.

(** Two keys with dash-free identifiers and versions are equal only when
    their triples are. *)
Lemma dash_split a a' r r' :
  dashFree a -> dashFree a' -> a ++ dash ++ r = a' ++ dash ++ r' -> a = a' /\ r = r'.
Proof.
  unfold dashFree. revert a'. induction a as [|x a IH]; intros [|y a'] D D' H; simpl in H.
  - inversion H. now split.
  - inversion H; subst y. exfalso. apply D'. now left.
  - inversion H; subst x. exfalso. apply D. now left.
  - inversion H; subst y. destruct (IH a') as [-> ->]; try assumption.
    + intros I. apply D. now right.
    + intros I. apply D'. now right.
    + now split.
Qed.

Lemma makeKey_inj a b c a' b' c' :
  dashFree a -> dashFree b -> dashFree a' -> dashFree b' ->
  makeKey a b c = makeKey a' b' c' -> (a, b, c) = (a', b', c').
Proof.
  unfold makeKey. intros Da Db Da' Db' H.
  apply dash_split in H as [-> H]; try assumption.
  apply dash_split in H as [-> ->]; try assumption.
  reflexivity.
Qed.

Lemma keys_runsOf c rows : map uniqueKey (runsOf c rows) = map fst (groupRows c rows).
Proof.
  unfold runsOf. rewrite map_map. apply map_ext. intros [k g].
  now destruct (classify_fields k g) as [-> _].
Qed.

Lemma slot_of_row c rows r i :
  In r rows -> rowInfo c r = Some i ->
  exists n, slot (riKey i) (groupRows c rows) = Some n /\
            nth_error (runsOf c rows) n =
            Some (classify (riKey i, groupOf (riKey i) (rowInfos c rows))).
Proof.
  intros I R. destruct (Grouped_groupRows c rows) as (N & K & G).
  assert (IK : In (riKey i) (map fst (groupRows c rows))).
  { apply K. exists i. split; [now apply (rowInfos_In c rows r) | reflexivity]. }
  unfold slot. destruct (indexOf (riKey i) (map fst (groupRows c rows))) as [n|] eqn:X.
  - exists n. split; [reflexivity|]. apply indexOf_Some_lt in X.
    unfold runsOf. rewrite nth_error_map in *.
    destruct (nth_error (groupRows c rows) n) as [[k g]|] eqn:Y; [|discriminate].
    cbn [option_map fst] in X. inversion X; subst k. cbn [option_map].
    do 3 f_equal.
    apply G, In_mapGet; [assumption|]. now apply nth_error_In with n.
  - apply indexOf_None in X. contradiction.
Qed.

Lemma rowInfos_one c r i : rowInfo c r = Some i -> rowInfos c [r] = [i].
Proof. intros H. unfold rowInfos. simpl. now rewrite H. Qed.

Lemma rowInfos_two c r1 r2 i1 i2 :
  rowInfo c r1 = Some i1 -> rowInfo c r2 = Some i2 -> rowInfos c [r1; r2] = [i1; i2].
Proof. intros H1 H2. unfold rowInfos. simpl. now rewrite H1, H2. Qed.

Lemma addRow_first i :
  addRow [] i = [(riKey i, mkGroup (riEntries i) (riCompanyCode i) (riTimes i))].
Proof. unfold addRow. simpl. now rewrite str_eqb_refl. Qed.

(** C1, as stated, fails: the rows [a-,b,...] and [a,-b,...] have the
    distinct triples (a-, , b) and (a, , -b), yet both get the key [a---b],
    land in the same group and make one Run, which carries the auto-approved
    flag of the first row and the fallback flag of the second. *)
Lemma distinct_triples_share_a_run :
  exists i1 i2 run,
    rowInfo sampleCols collidingRow1 = Some i1 /\
    rowInfo sampleCols collidingRow2 = Some i2 /\
    riTriple i1 <> riTriple i2 /\
    slot (riKey i1) (groupRows sampleCols [collidingRow1; collidingRow2]) = Some 0%nat /\
    slot (riKey i2) (groupRows sampleCols [collidingRow1; collidingRow2]) = Some 0%nat /\
    processLogFile (fileOf [sampleHeader; collidingRow1; collidingRow2]) = Runs [run] /\
    uniqueKey run = lit "a---b" /\
    flags run = [false; true; false; false; false; false; true].
Proof.
  do 3 eexists.
  split; [vm_compute; reflexivity|].
  split; [vm_compute; reflexivity|].
  split; [vm_compute; discriminate|].
  split; [vm_compute; reflexivity|].
  split; [vm_compute; reflexivity|].
  split; [vm_compute; reflexivity|].
  split; reflexivity.
Qed.

(** C1 (amended): two data rows that are not skipped contribute their entries
    to the same Run if and only if their key strings, the document
    identifier, the version and the company code joined by dashes, are equal.
    The Runs have pairwise distinct keys, and the Run of a row is built from
    all rows with the row's key.  Rows with equal triples have equal keys;
    rows with equal keys have equal triples when their identifiers and
    versions contain no dash.  Two rows with the same key alone in a file
    make exactly one Run, whose flags are the logical OR of the flags of the
    Run each row makes alone; two rows with different keys make the two Runs
    they make alone. *)
Theorem rows_share_a_run_iff_same_key
        (c : Cols) (rows : list str) (r1 r2 : str) (i1 i2 : RowInfo) :
  In r1 rows -> In r2 rows ->
  rowInfo c r1 = Some i1 -> rowInfo c r2 = Some i2 ->
  NoDup (map uniqueKey (runsOf c rows)) /\
  (exists n, slot (riKey i1) (groupRows c rows) = Some n /\
             nth_error (runsOf c rows) n =
             Some (classify (riKey i1, groupOf (riKey i1) (rowInfos c rows)))) /\
  (slot (riKey i1) (groupRows c rows) = slot (riKey i2) (groupRows c rows)
   <-> riKey i1 = riKey i2) /\
  (riTriple i1 = riTriple i2 -> riKey i1 = riKey i2) /\
  (dashFree (riDocumentId i1) -> dashFree (riDocVer i1) ->
   dashFree (riDocumentId i2) -> dashFree (riDocVer i2) ->
   riKey i1 = riKey i2 -> riTriple i1 = riTriple i2) /\
  (riKey i1 = riKey i2 ->
   exists run run1 run2,
     runsOf c [r1; r2] = [run] /\ runsOf c [r1] = [run1] /\ runsOf c [r2] = [run2] /\
     uniqueKey run = riKey i1 /\
     flags run = orFlags (flags run1) (flags run2)) /\
  (riKey i1 <> riKey i2 -> runsOf c [r1; r2] = runsOf c [r1] ++ runsOf c [r2]).
Proof.
  intros I1 I2 R1 R2.
  destruct (Grouped_groupRows c rows) as (N & K & G).
  split; [now rewrite keys_runsOf|].
  destruct (slot_of_row c rows r1 I1 R1) as [n1 [S1 X1]].
  destruct (slot_of_row c rows r2 I2 R2) as [n2 [S2 X2]].
  split; [now exists n1|].
  split.
  { split; [|now intros ->]. rewrite S1, S2. intros E; inversion E; subst n2.
    unfold slot in S1, S2. apply indexOf_Some_lt in S1, S2. congruence. }
  split.
  { unfold riTriple, riKey. intros E; inversion E. congruence. }
  split.
  { unfold riTriple, riKey. intros D1 D2 D3 D4 E. now apply makeKey_inj. }
  unfold runsOf. rewrite !groupRows_addRow.
  rewrite (rowInfos_two _ _ _ R1 R2), (rowInfos_one _ _ R1), (rowInfos_one _ _ R2).
  cbn [fold_left]. rewrite !addRow_first. split.
  - intros E. unfold addRow. rewrite <- E. cbn [mapHas mapMutate].
    rewrite str_eqb_refl. cbn [orb mapMutate]. rewrite str_eqb_refl.
    do 3 eexists. split; [reflexivity|]. split; [reflexivity|]. split; [reflexivity|].
    cbn [map entries].
    match goal with
    | |- uniqueKey (classify (?k, ?g)) = _ /\ _ =>
        destruct (classify_fields k g) as (-> & _ & _ & _ & _ & ->)
    end.
    split; [reflexivity|].
    repeat match goal with
    | |- context [flags (classify (?k, ?g))] =>
        let H := fresh in
        destruct (classify_fields k g) as (_ & _ & _ & _ & _ & H); rewrite H; clear H
    end.
    cbn [entries]. apply groupFlags_app.
  - intros D. unfold addRow.
    assert (E : str_eqb (riKey i1) (riKey i2) = false) by now apply str_eqb_neq.
    cbn [mapHas]. rewrite E. cbn [orb mapSet]. rewrite E.
    cbn [mapMutate]. rewrite E. cbn [mapMutate]. rewrite str_eqb_refl.
    reflexivity.
Qed.

(** The two rows of the end-to-end scenario share the key [D1--US1] and make
    one Run. *)
Lemma rows_share_a_run_iff_same_key_witness :
  exists run run1 run2,
    runsOf sampleCols [scenarioRow1; scenarioRow2] = [run] /\
    runsOf sampleCols [scenarioRow1] = [run1] /\
    runsOf sampleCols [scenarioRow2] = [run2] /\
    uniqueKey run = lit "D1--US1" /\
    flags run = orFlags (flags run1) (flags run2).
Proof.
  pose (i1 := mkRowInfo (lit "D1") [] (lit "US1") autoApprovalMessage (lit "I")
                        (Some 1709294400000)).
  pose (i2 := mkRowInfo (lit "D1") [] (lit "US1") endProcessingMessage (lit "I")
                        (Some 1709294405000)).
  assert (I1 : In scenarioRow1 [scenarioRow1; scenarioRow2]) by (now left).
  assert (I2 : In scenarioRow2 [scenarioRow1; scenarioRow2]) by (right; now left).
  assert (R1 : rowInfo sampleCols scenarioRow1 = Some i1) by (vm_compute; reflexivity).
  assert (R2 : rowInfo sampleCols scenarioRow2 = Some i2) by (vm_compute; reflexivity).
  destruct (rows_share_a_run_iff_same_key sampleCols [scenarioRow1; scenarioRow2]
              scenarioRow1 scenarioRow2 I1 I2 R1 R2) as (_ & _ & _ & _ & _ & F & _).
  exact (F eq_refl).
Defined.

(** The end-to-end scenario of the specification: one Run, auto-approved,
    ended at 2024-03-01T12:00:05Z, which is also its transaction date. *)
Lemma scenario_end_to_end :
  exists run,
    processLogFile (fileOf [sampleHeader; scenarioRow1; scenarioRow2]) = Runs [run] /\
    uniqueKey run = lit "D1--US1" /\
    companyCode run = Some (lit "US1") /\
    isAutoApproved run = true /\
    startTime run = None /\
    endTime run = Some 1709294405000 /\
    transactionDate run = 1709294405000 /\
    DateTime.civilOf 1709294405000 = DateTime.mkCivil 2024 3 1 12 0 5 0.
Proof. eexists. repeat split; vm_compute; reflexivity. Qed.

(** Two start markers in one transaction: the later one is the start time,
    in whichever order the rows come. *)
Lemma latest_start_marker_wins :
  exists run run',
    processLogFile (fileOf [sampleHeader; startRow "20240301120000";
                            startRow "20240301120005"]) = Runs [run] /\
    processLogFile (fileOf [sampleHeader; startRow "20240301120005";
                            startRow "20240301120000"]) = Runs [run'] /\
    startTime run = Some 1709294405000 /\ startTime run' = Some 1709294405000.
Proof. do 2 eexists. repeat split; vm_compute; reflexivity. Qed.

End ParserClaims.

(** ** Further properties of the tokenizer and of line splitting *)

Module TokenizerExtras.

Import JS Parser Spec JSFacts TokenizerFacts.

Lemma In_trimStart s c : In c (trimStart s) -> In c s.
Proof.
  induction s as [|x s IH]; simpl; [tauto|].
  destruct (isWhite x); [intros I; right; now apply IH | tauto].
Qed.

Lemma In_trim s c : In c (trim s) -> In c s.
Proof.
  unfold trim, trimEnd. intros I. apply in_rev in I. apply In_trimStart in I.
  apply in_rev in I. now apply In_trimStart in I.
Qed.

Lemma startsWith_quote_In s : startsWith [dquote] s = true -> In dquote s.
Proof.
  destruct s as [|c s]; cbn [startsWith]; [discriminate|].
  rewrite andb_true_r. intros E. apply Ascii.eqb_eq in E. left. now symmetry.
Qed.

Lemma cleanField_quoteFree f : quoteFree f -> cleanField f = trim f.
Proof.
  intros Q. unfold cleanField.
  destruct (startsWith [dquote] (trim f)) eqn:S; [|reflexivity].
  exfalso. apply Q. apply In_trim. now apply startsWith_quote_In.
Qed.

Lemma countQuotes_quoteFree s : quoteFree s -> countQuotes s = 0.
Proof.
  unfold quoteFree. induction s as [|c s IH]; intros Q; simpl; [reflexivity|].
  destruct (Ascii.eqb c dquote) eqn:E.
  - apply Ascii.eqb_eq in E. exfalso. apply Q. now left.
  - apply IH. intros I. apply Q. now right.
Qed.

Lemma csvSplit_quoteFree s : quoteFree s -> csvSplit s = splitOn comma s.
Proof.
  induction s as [|c s IH]; intros Q; [reflexivity|].
  assert (Q' : quoteFree s) by (intros I; apply Q; now right).
  simpl. rewrite (countQuotes_quoteFree Q'). simpl Nat.even. rewrite andb_true_r.
  rewrite (IH Q'). reflexivity.
Qed.

Lemma splitOn_In c s p x : In p (splitOn c s) -> In x p -> In x s.
Proof.
  revert p. induction s as [|y r IH]; intros p Ip Ix; simpl in Ip.
  - destruct Ip as [<-|[]]. destruct Ix.
  - destruct (Ascii.eqb y c).
    + destruct Ip as [<-|Ip]; [destruct Ix|]. right. now apply (IH p).
    + destruct (splitOn c r) as [|h t] eqn:E.
      * destruct Ip as [<-|[]]. destruct Ix as [<-|[]]. now left.
      * destruct Ip as [<-|Ip].
        -- destruct Ix as [<-|Ix]; [now left|]. right. apply (IH h); [now left | assumption].
        -- right. apply (IH p); [now right | assumption].
Qed.

Lemma length_splitOn c s :
  length (splitOn c s) = S (length (filter (Ascii.eqb c) s)).
Proof.
  induction s as [|x r IH]; [reflexivity|]. cbn [splitOn filter].
  rewrite (Ascii.eqb_sym c x). destruct (Ascii.eqb x c); cbn [length].
  - now rewrite IH.
  - destruct (splitOn c r); cbn [length] in *; [discriminate | exact IH].
Qed.

(** X1: on a line without quote characters the tokenizer is a split at
    every comma followed by a trim of each piece; so such a line yields one
    field more than it has commas. *)
Theorem parseCsvLine_without_quotes (line : str) :
  quoteFree line ->
  parseCsvLine line = map trim (splitOn comma line) /\
  length (parseCsvLine line) = S (length (filter (Ascii.eqb comma) line)).
Proof.
  intros Q. assert (E : parseCsvLine line = map trim (splitOn comma line)).
  { unfold parseCsvLine. rewrite (csvSplit_quoteFree Q).
    apply map_ext_in. intros f I. apply cleanField_quoteFree.
    intros D. apply Q. now apply (splitOn_In comma line f dquote). }
  split; [exact E|]. rewrite E, length_map. apply length_splitOn.
Qed.

Lemma parseCsvLine_without_quotes_witness :
  parseCsvLine (lit " D1 , US1,,x ") = [lit "D1"; lit "US1"; []; lit "x"] /\
  length (parseCsvLine (lit " D1 , US1,,x ")) = 4.
Proof.
  assert (Q : quoteFree (lit " D1 , US1,,x ")).
  { intros I. vm_compute in I. repeat (destruct I as [I|I]; [discriminate|]). exact I. }
  destruct (parseCsvLine_without_quotes Q) as [E L]. split.
  - rewrite E. reflexivity.
  - rewrite L. reflexivity.
Defined.

Lemma even_countQuotes_doubleQuotes f : Nat.even (countQuotes (doubleQuotes f)) = true.
Proof.
  induction f as [|c f IH]; [reflexivity|]. cbn [doubleQuotes].
  destruct (Ascii.eqb c dquote) eqn:E.
  - cbn [countQuotes]. rewrite Ascii.eqb_refl. exact IH.
  - cbn [countQuotes]. now rewrite E.
Qed.

Lemma even_countQuotes_quoteField f : Nat.even (countQuotes (quoteField f)) = true.
Proof.
  unfold quoteField. cbn [countQuotes]. rewrite Ascii.eqb_refl, countQuotes_app.
  cbn [countQuotes]. rewrite Ascii.eqb_refl.
  replace (S (countQuotes (doubleQuotes f) + 1)) with (2 + countQuotes (doubleQuotes f)) by lia.
  rewrite Nat.even_add. now rewrite even_countQuotes_doubleQuotes.
Qed.

Lemma even_countQuotes_join fields :
  Nat.even (countQuotes (joinComma (map quoteField fields))) = true.
Proof.
  induction fields as [|f fs IH]; [reflexivity|].
  cbn [map joinComma]. destruct fs as [|g fs].
  - apply even_countQuotes_quoteField.
  - cbn [map] in *. rewrite countQuotes_app. cbn [countQuotes].
    change (Ascii.eqb comma dquote) with false. cbv iota.
    now rewrite Nat.even_add, even_countQuotes_quoteField, IH.
Qed.

(** A character that is not a comma to cut at is pushed on the first field
    of the rest. *)
Lemma csvSplit_keep c r h t :
  Ascii.eqb c comma && Nat.even (countQuotes r) = false ->
  csvSplit r = h :: t -> csvSplit (c :: r) = (c :: h) :: t.
Proof. intros E R. cbn [csvSplit]. now rewrite E, R. Qed.

Lemma csvSplit_doubled f : forall tail h t,
  Nat.even (countQuotes tail) = true -> csvSplit tail = h :: t ->
  csvSplit (doubleQuotes f ++ dquote :: tail) = (doubleQuotes f ++ dquote :: h) :: t.
Proof.
  induction f as [|c f IH]; intros tail h t E R.
  - cbn [doubleQuotes app]. apply csvSplit_keep; [reflexivity | exact R].
  - assert (Odd : Nat.even (countQuotes (doubleQuotes f ++ dquote :: tail)) = false).
    { rewrite countQuotes_app. cbn [countQuotes]. rewrite Ascii.eqb_refl.
      replace (countQuotes (doubleQuotes f) + S (countQuotes tail))
        with (S (countQuotes (doubleQuotes f) + countQuotes tail)) by lia.
      rewrite Nat.even_succ, <- Nat.negb_even, Nat.even_add,
        even_countQuotes_doubleQuotes, E. reflexivity. }
    cbn [doubleQuotes]. destruct (Ascii.eqb c dquote) eqn:Q.
    + cbn [app]. apply csvSplit_keep; [reflexivity|].
      apply csvSplit_keep; [reflexivity|]. now apply IH.
    + cbn [app]. apply csvSplit_keep; [rewrite Odd; apply andb_false_r|]. now apply IH.
Qed.

Lemma csvSplit_quoteField f tail h t :
  Nat.even (countQuotes tail) = true -> csvSplit tail = h :: t ->
  csvSplit (quoteField f ++ tail) = (quoteField f ++ h) :: t.
Proof.
  intros E R. unfold quoteField. cbn [app]. rewrite <- !app_assoc. cbn [app].
  apply csvSplit_keep; [reflexivity|]. now apply csvSplit_doubled.
Qed.

Lemma csvSplit_join fields :
  fields <> [] -> csvSplit (joinComma (map quoteField fields)) = map quoteField fields.
Proof.
  induction fields as [|f fs IH]; [congruence|]. intros _.
  cbn [map joinComma]. destruct fs as [|g fs].
  - cbn [map]. rewrite <- (app_nil_r (quoteField f)) at 1.
    rewrite (@csvSplit_quoteField f [] [] []); [now rewrite app_nil_r | reflexivity | reflexivity].
  - cbn [map] in *.
    rewrite (@csvSplit_quoteField f _ [] (quoteField g :: map quoteField fs)).
    + now rewrite app_nil_r.
    + cbn [countQuotes]. change (Ascii.eqb comma dquote) with false. cbv iota.
      apply (even_countQuotes_join (g :: fs)).
    + pose proof (even_countQuotes_join (g :: fs)) as EJ. cbn [map] in EJ.
      cbn [csvSplit]. rewrite Ascii.eqb_refl, EJ. cbn [andb]. cbv iota.
      f_equal. apply IH. discriminate.
Qed.

Lemma collapseQuotes_doubleQuotes f : collapseQuotes (doubleQuotes f) = f.
Proof.
  induction f as [|c f IH]; [reflexivity|]. cbn [doubleQuotes].
  destruct (Ascii.eqb c dquote) eqn:E.
  - apply Ascii.eqb_eq in E; subst c. cbn [collapseQuotes].
    rewrite Ascii.eqb_refl. cbn [andb]. cbv iota. now rewrite IH.
  - rewrite collapseQuotes_cons; [now rewrite IH|].
    intros ->. now rewrite Ascii.eqb_refl in E.
Qed.

Lemma trim_quoteField f : trim (quoteField f) = quoteField f.
Proof.
  unfold trim, trimEnd, quoteField.
  change (trimStart (dquote :: doubleQuotes f ++ [dquote]))
    with (dquote :: doubleQuotes f ++ [dquote]).
  replace (rev (dquote :: doubleQuotes f ++ [dquote]))
    with (dquote :: rev (doubleQuotes f) ++ [dquote]).
  - change (trimStart (dquote :: rev (doubleQuotes f) ++ [dquote]))
      with (dquote :: rev (doubleQuotes f) ++ [dquote]).
    cbn [rev]. rewrite rev_app_distr. cbn [rev app]. now rewrite rev_involutive.
  - cbn [rev]. rewrite rev_app_distr. reflexivity.
Qed.

Lemma cleanField_quoteField f : cleanField (quoteField f) = f.
Proof.
  rewrite (@cleanField_quoted (quoteField f) (doubleQuotes f)).
  - apply collapseQuotes_doubleQuotes.
  - apply trim_quoteField.
Qed.

(** X2: quoting round trip.  A line made of fields that are each wrapped in
    quotes, with the quotes inside doubled, and joined by commas is read back
    as exactly those fields, whatever characters (commas, quotes, blanks)
    the fields hold. *)
Theorem parseCsvLine_quoted_roundtrip (fields : list str) :
  fields <> [] ->
  parseCsvLine (joinComma (map quoteField fields)) = fields.
Proof.
  intros N. unfold parseCsvLine. rewrite (csvSplit_join N), map_map.
  rewrite <- (map_id fields) at 2. apply map_ext. apply cleanField_quoteField.
Qed.

Lemma parseCsvLine_quoted_roundtrip_witness :
  parseCsvLine (joinComma (map quoteField [lit "a, b"; [dquote]; []; lit " x "]))
  = [lit "a, b"; [dquote]; []; lit " x "].
Proof. apply parseCsvLine_quoted_roundtrip. discriminate. Defined.

Lemma splitLines_nonempty s : splitLines s <> [].
Proof.
  destruct s as [|c r]; cbn [splitLines]; [discriminate|].
  destruct (Ascii.eqb c LF); [discriminate|].
  destruct r as [|d r']; [discriminate|].
  destruct (Ascii.eqb c CR && Ascii.eqb d LF); [discriminate|].
  destruct (splitLines (d :: r')); discriminate.
Qed.

(** A character that ends no line is pushed on the first line of the rest. *)
Lemma splitLines_keep c d r h t :
  c <> LF -> (c = CR -> d <> LF) ->
  splitLines (d :: r) = h :: t -> splitLines (c :: d :: r) = (c :: h) :: t.
Proof.
  intros N1 N2 R. cbn [splitLines] in *.
  apply Ascii.eqb_neq in N1. rewrite N1.
  assert (E : Ascii.eqb c CR && Ascii.eqb d LF = false).
  { destruct (Ascii.eqb c CR) eqn:E1; [|reflexivity].
    apply Ascii.eqb_eq in E1. apply N2 in E1. now apply Ascii.eqb_neq in E1. }
  rewrite E. now rewrite R.
Qed.

Lemma splitLines_LF (l rest : str) :
  lineLike l -> splitLines (l ++ LF :: rest) = l :: splitLines rest.
Proof.
  intros [N L]. induction l as [|c l IH]; [reflexivity|].
  assert (Nc : c <> LF) by (intros ->; apply N; now left).
  assert (Nl : ~ In LF l) by (intros I; apply N; now right).
  destruct l as [|d l'].
  - cbn [app]. apply splitLines_keep; [exact Nc | | reflexivity].
    intros ->. exfalso. now apply L.
  - cbn [app] in *. apply splitLines_keep; [exact Nc | |].
    + intros _ ->. apply Nl. now left.
    + apply IH; [exact Nl | exact L].
Qed.

Lemma splitLines_CRLF (l rest : str) :
  ~ In LF l -> splitLines (l ++ CR :: LF :: rest) = l :: splitLines rest.
Proof.
  intros N. induction l as [|c l IH]; [reflexivity|].
  assert (Nc : c <> LF) by (intros ->; apply N; now left).
  assert (Nl : ~ In LF l) by (intros I; apply N; now right).
  destruct l as [|d l'].
  - cbn [app]. apply splitLines_keep; [exact Nc | discriminate | reflexivity].
  - cbn [app] in *. apply splitLines_keep; [exact Nc | |].
    + intros _ ->. apply Nl. now left.
    + now apply IH.
Qed.

Lemma splitLines_one (l : str) : ~ In LF l -> splitLines l = [l].
Proof.
  intros N. induction l as [|c l IH]; [reflexivity|].
  assert (Nc : c <> LF) by (intros ->; apply N; now left).
  assert (Nl : ~ In LF l) by (intros I; apply N; now right).
  destruct l as [|d l'].
  - cbn [splitLines]. apply Ascii.eqb_neq in Nc. now rewrite Nc.
  - apply splitLines_keep; [exact Nc | | now apply IH].
    intros _ ->. apply Nl. now left.
Qed.

Lemma splitLines_join sep lines :
  sep = [LF] \/ sep = [CR; LF] -> lines <> [] -> Forall lineLike lines ->
  splitLines (joinWith sep lines) = lines.
Proof.
  intros S N F. induction F as [|l ls Hl F IH]; [congruence|].
  cbn [joinWith]. destruct ls as [|l' ls].
  - apply splitLines_one. apply Hl.
  - destruct S as [-> | ->]; cbn [app].
    + rewrite splitLines_LF by exact Hl. f_equal. apply IH; discriminate.
    + rewrite splitLines_CRLF by apply Hl. f_equal. apply IH; discriminate.
Qed.

Lemma linesOf_join sep lines :
  sep = [LF] \/ sep = [CR; LF] -> Forall lineLike lines ->
  linesOf (joinWith sep lines) = filter nonBlank lines.
Proof.
  intros S F. unfold linesOf. destruct lines as [|l ls]; [reflexivity|].
  rewrite splitLines_join; [reflexivity | exact S | discriminate | exact F].
Qed.

(** X3: a file is read line by line whichever line ending it uses, and
    blank lines do not count.  For texts that hold no line feed and do not
    end in a carriage return, joining them with LF or with CR LF and
    processing the result is processing the texts that are not blank. *)
Theorem processLogFile_line_endings (lines : list str) :
  Forall lineLike lines ->
  linesOf (joinWith [LF] lines) = filter nonBlank lines /\
  linesOf (joinWith [CR; LF] lines) = filter nonBlank lines /\
  processLogFile (joinWith [LF] lines) = processLines (filter nonBlank lines) /\
  processLogFile (joinWith [CR; LF] lines) = processLines (filter nonBlank lines).
Proof.
  intros F. unfold processLogFile. fold (linesOf (joinWith [LF] lines)).
  fold (linesOf (joinWith [CR; LF] lines)).
  rewrite !linesOf_join by (try exact F; tauto). repeat split.
Qed.

Lemma processLogFile_line_endings_witness :
  processLogFile (joinWith [CR; LF] [sampleHeader; []; scenarioRow1; lit "  "; scenarioRow2])
  = processLines [sampleHeader; scenarioRow1; scenarioRow2].
Proof.
  refine (proj2 (proj2 (proj2 (@processLogFile_line_endings
            [sampleHeader; []; scenarioRow1; lit "  "; scenarioRow2] _)))).
  repeat constructor; try discriminate;
    intros I; vm_compute in I; repeat (destruct I as [I|I]; [discriminate|]); exact I.
Defined.

End TokenizerExtras.

(** ** Further properties of the grouper and the classifier *)

Module ParserExtras.

Import JS Parser Spec JSFacts GrouperFacts GroupingInvariant ClassifierFacts ParserClaims.

Local Open Scope Z_scope.

Lemma rowInfos_filter c rows : rowInfos c (filter (rowKept c) rows) = rowInfos c rows.
Proof.
  unfold rowInfos, rowKept. induction rows as [|r rows IH]; [reflexivity|].
  cbn [filter flat_map]. destruct (rowInfo c r) eqn:E; cbn [isSome].
  - cbn [flat_map]. now rewrite E, IH.
  - exact IH.
Qed.

(** X4: rows that are skipped leave no trace.  A row is kept exactly when
    its fields reach all five required columns and its trimmed document
    identifier and company code are not empty; the Runs of a file are the
    Runs of its kept rows alone. *)
Theorem skipped_rows_leave_no_trace (c : Cols) (rows : list str) (line : str) :
  runsOf c rows = runsOf c (filter (rowKept c) rows) /\
  (rowKept c line = true <->
   ((docIdIndex c < length (parseCsvLine line))%nat /\
    (messageIndex c < length (parseCsvLine line))%nat /\
    (coCdIndex c < length (parseCsvLine line))%nat /\
    (timestampIndex c < length (parseCsvLine line))%nat /\
    (typeIndex c < length (parseCsvLine line))%nat) /\
   trim (nth (docIdIndex c) (parseCsvLine line) []) <> [] /\
   trim (nth (coCdIndex c) (parseCsvLine line) []) <> []).
Proof.
  split.
  - unfold runsOf. now rewrite !groupRows_addRow, rowInfos_filter.
  - unfold rowKept, rowInfo.
    destruct (length (parseCsvLine line) <=? docIdIndex c)%nat eqn:L1;
    destruct (length (parseCsvLine line) <=? messageIndex c)%nat eqn:L2;
    destruct (length (parseCsvLine line) <=? coCdIndex c)%nat eqn:L3;
    destruct (length (parseCsvLine line) <=? timestampIndex c)%nat eqn:L4;
    destruct (length (parseCsvLine line) <=? typeIndex c)%nat eqn:L5;
    cbn [orb isSome];
    try (apply Nat.leb_le in L1); try (apply Nat.leb_le in L2);
    try (apply Nat.leb_le in L3); try (apply Nat.leb_le in L4);
    try (apply Nat.leb_le in L5);
    try (split; [discriminate | intros [(?&?&?&?&?) _]; lia]).
    apply Nat.leb_gt in L1, L2, L3, L4, L5.
    destruct (trim (nth (docIdIndex c) (parseCsvLine line) [])) as [|a x];
      destruct (trim (nth (coCdIndex c) (parseCsvLine line) [])) as [|b y];
      cbn [truthy andb isSome]; split; try discriminate; try tauto.
    intros _. repeat split; try lia; discriminate.
Qed.

Lemma mapHas_existsb (m : SMap Group) k : mapHas k m = existsb (str_eqb k) (map fst m).
Proof.
  induction m as [|[k' g] m IH]; [reflexivity|].
  cbn [mapHas map fst existsb]. now rewrite IH, (str_eqb_sym k' k).
Qed.

Lemma keys_addRow m i : map fst (addRow m i) = setAdd (riKey i) (map fst m).
Proof.
  unfold addRow, setAdd. rewrite keys_mapMutate, <- mapHas_existsb.
  destruct (mapHas (riKey i) m) eqn:H; [reflexivity|]. now apply keys_mapSet_new.
Qed.

Lemma keys_fold_addRow infos : forall m,
  map fst (fold_left addRow infos m)
  = fold_left (fun acc k => setAdd k acc) (map riKey infos) (map fst m).
Proof.
  induction infos as [|i infos IH]; intros m; [reflexivity|].
  cbn [fold_left map]. now rewrite IH, keys_addRow.
Qed.

Lemma length_fold_setAdd ks : forall acc,
  (length (fold_left (fun acc k => setAdd k acc) ks acc) <= length acc + length ks)%nat.
Proof.
  induction ks as [|k ks IH]; intros acc; cbn [fold_left length]; [lia|].
  specialize (IH (setAdd k acc)). unfold setAdd in *.
  destruct (existsb (str_eqb k) acc); [lia|]. rewrite length_app in IH. simpl in IH. lia.
Qed.

Lemma length_rowInfos c rows : (length (rowInfos c rows) <= length rows)%nat.
Proof.
  unfold rowInfos. induction rows as [|r rows IH]; [reflexivity|].
  cbn [flat_map length]. rewrite length_app. destruct (rowInfo c r); simpl; lia.
Qed.

(** X5: the Runs come in the order in which their keys first appear among
    the kept rows, one Run per distinct key; so there are never more Runs
    than data rows. *)
Theorem runs_in_order_of_first_appearance (c : Cols) (rows : list str) :
  map uniqueKey (runsOf c rows) = firstSeen (map riKey (rowInfos c rows)) /\
  (length (runsOf c rows) <= length rows)%nat.
Proof.
  assert (E : map uniqueKey (runsOf c rows) = firstSeen (map riKey (rowInfos c rows))).
  { rewrite keys_runsOf, groupRows_addRow. apply (keys_fold_addRow (rowInfos c rows) []). }
  split; [exact E|].
  rewrite <- (length_map uniqueKey), E. unfold firstSeen.
  pose proof (length_fold_setAdd (map riKey (rowInfos c rows)) []) as L.
  rewrite length_map in L. pose proof (length_rowInfos c rows). simpl in L. lia.
Qed.

Lemma fold_max_In ts : forall t, In (fold_left Z.max ts t) (t :: ts).
Proof.
  induction ts as [|x ts IH]; intros t; [now left|].
  cbn [fold_left]. destruct (IH (Z.max t x)) as [E|I].
  - rewrite <- E. destruct (Z.max_spec t x) as [[_ ->]|[_ ->]]; [right; now left | now left].
  - right. now right.
Qed.

Lemma maxTime_In ts : ts <> [] -> In (maxTime ts) ts.
Proof. destruct ts as [|t ts]; [congruence|]. intros _. apply fold_max_In. Qed.

Lemma In_group_times k infos t :
  In t (timestamps (groupOf k infos)) <->
  exists i, In i infos /\ riKey i = k /\ riTimestamp i = Some t.
Proof.
  cbn [groupOf timestamps]. rewrite in_flat_map. unfold withKey. split.
  - intros [i [I T]]. apply filter_In in I as [I K]. apply str_eqb_eq in K.
    exists i. repeat split; try assumption.
    unfold riTimes in T. destruct (riTimestamp i); [|destruct T].
    destruct T as [->|[]]. reflexivity.
  - intros [i [I [K T]]]. exists i. split.
    + apply filter_In. split; [assumption|]. now apply str_eqb_eq.
    + unfold riTimes. rewrite T. now left.
Qed.

(** X6: the transaction date of a Run is the latest parsed timestamp among
    all kept rows with the Run's key, whether or not the row has a message:
    no such timestamp is later, and the date is one of them, or the epoch
    when none of those rows has a timestamp that parses. *)
Theorem transactionDate_is_latest_timestamp
        (c : Cols) (rows : list str) (r : str) (i : RowInfo) :
  In r rows -> rowInfo c r = Some i ->
  exists run,
    In run (runsOf c rows) /\ uniqueKey run = riKey i /\
    (forall i' t, In i' (rowInfos c rows) -> riKey i' = riKey i ->
                  riTimestamp i' = Some t -> t <= transactionDate run) /\
    ((transactionDate run = 0 /\
      forall i', In i' (rowInfos c rows) -> riKey i' = riKey i -> riTimestamp i' = None)
     \/ exists i', In i' (rowInfos c rows) /\ riKey i' = riKey i /\
                   riTimestamp i' = Some (transactionDate run)).
Proof.
  intros I R. destruct (slot_of_row c rows r I R) as [n [_ X]].
  set (infos := rowInfos c rows) in *. set (k := riKey i) in *.
  exists (classify (k, groupOf k infos)).
  destruct (classify_fields k (groupOf k infos)) as (K & _ & D & _).
  split; [now apply nth_error_In with n|]. split; [exact K|]. rewrite D.
  destruct (timestamps (groupOf k infos)) as [|t0 ts] eqn:T.
  - assert (No : forall i' t, In i' infos -> riKey i' = k -> riTimestamp i' = Some t -> False).
    { intros i' t I' K' T'.
      assert (X' : In t (timestamps (groupOf k infos))) by (apply In_group_times; now exists i').
      rewrite T in X'. destruct X'. }
    cbn [length Nat.ltb Nat.leb]. split.
    + intros i' t I' K' T'. exfalso. now apply (No i' t).
    + left. split; [reflexivity|]. intros i' I' K'.
      destruct (riTimestamp i') as [t|] eqn:T'; [|reflexivity]. exfalso. now apply (No i' t).
  - change (0 <? length (t0 :: ts))%nat with true. cbv iota. rewrite <- T. split.
    + intros i' t I' K' T'. apply maxTime_bound. apply In_group_times. now exists i'.
    + right. apply In_group_times. apply maxTime_In. rewrite T. discriminate.
Qed.

Lemma transactionDate_is_latest_timestamp_witness :
  exists run,
    In run (runsOf sampleCols [scenarioRow1; scenarioRow2]) /\
    uniqueKey run = lit "D1--US1" /\
    (forall i' t, In i' (rowInfos sampleCols [scenarioRow1; scenarioRow2]) ->
                  riKey i' = lit "D1--US1" -> riTimestamp i' = Some t ->
                  t <= transactionDate run) /\
    ((transactionDate run = 0 /\
      forall i', In i' (rowInfos sampleCols [scenarioRow1; scenarioRow2]) ->
                 riKey i' = lit "D1--US1" -> riTimestamp i' = None)
     \/ exists i', In i' (rowInfos sampleCols [scenarioRow1; scenarioRow2]) /\
                   riKey i' = lit "D1--US1" /\
                   riTimestamp i' = Some (transactionDate run)).
Proof.
  refine (@transactionDate_is_latest_timestamp sampleCols [scenarioRow1; scenarioRow2]
            scenarioRow1
            (mkRowInfo (lit "D1") [] (lit "US1") autoApprovalMessage (lit "I")
                       (Some 1709294400000)) _ _).
  - now left.
  - vm_compute. reflexivity.
Defined.

(** *** The threshold pattern *)

Lemma ciPrefix_sound p : forall s rest,
  ciPrefix p s = Some rest -> exists P, s = P ++ rest /\ ciEq p P.
Proof.
  induction p as [|a p IH]; intros s rest H; cbn [ciPrefix] in H.
  - inversion H; subst. now exists [].
  - destruct s as [|b s]; [discriminate|].
    destruct (Ascii.eqb (upperAscii a) (upperAscii b)) eqn:E; [|discriminate].
    apply Ascii.eqb_eq in E. destruct (IH _ _ H) as [P [-> C]].
    exists (b :: P). split; [reflexivity|]. unfold ciEq in *. cbn [map]. now rewrite E, C.
Qed.

Lemma ciPrefix_complete p : forall P rest, ciEq p P -> ciPrefix p (P ++ rest) = Some rest.
Proof.
  unfold ciEq. induction p as [|a p IH]; intros P rest C.
  - destruct P; [reflexivity | discriminate].
  - destruct P as [|b P]; [discriminate|]. cbn [map] in C. injection C as E C'.
    cbn [ciPrefix app]. rewrite E, Ascii.eqb_refl. now apply IH.
Qed.

Lemma trimStart_app_white ws x :
  Forall (fun c => isWhite c = true) ws -> trimStart (ws ++ x) = trimStart x.
Proof. induction 1 as [|w ws H _ IH]; [reflexivity|]. cbn [app trimStart]. now rewrite H. Qed.

Lemma white_not_letter c : isWhite c = true -> isLetter c = false.
Proof.
  destruct c as [[] [] [] [] [] [] [] []]; vm_compute; intros H;
    try reflexivity; discriminate.
Qed.

Lemma values_head_not_white v : upperAscii "v"%char = upperAscii v -> isWhite v = false.
Proof.
  destruct v as [[] [] [] [] [] [] [] []]; vm_compute; intros H;
    try reflexivity; discriminate.
Qed.

Lemma afterCode_sound s :
  afterCode s = true ->
  exists ws V post, s = ws ++ V ++ post /\ ws <> [] /\
                    Forall (fun c => isWhite c = true) ws /\ ciEq (lit "values:") V.
Proof.
  unfold afterCode. destruct s as [|w s']; [discriminate|].
  destruct (isWhite w) eqn:W; [|discriminate]. cbn [andb trimStart]. rewrite W.
  destruct (ciPrefix (lit "values:") (trimStart s')) as [post|] eqn:C; [|discriminate].
  intros _. apply ciPrefix_sound in C as [V [E CV]].
  destruct (trimStart_suffix s') as [w1 [E1 F1]].
  exists (w :: w1), V, post. repeat split.
  - cbn [app]. f_equal. rewrite E1 at 1. now rewrite E.
  - discriminate.
  - now constructor.
  - exact CV.
Qed.

Lemma afterCode_complete ws V post :
  ws <> [] -> Forall (fun c => isWhite c = true) ws -> ciEq (lit "values:") V ->
  afterCode (ws ++ V ++ post) = true.
Proof.
  intros N F C. unfold afterCode.
  destruct ws as [|w ws]; [congruence|]. inversion F as [|? ? Hw Hws]; subst.
  cbn [app]. rewrite Hw. cbn [andb]. change (w :: ws ++ V ++ post) with ((w :: ws) ++ V ++ post).
  rewrite (trimStart_app_white (V ++ post) F).
  assert (T : trimStart (V ++ post) = V ++ post).
  { unfold ciEq in C. destruct V as [|v V']; [discriminate|].
    change (map upperAscii (lit "values:"))
      with (upperAscii "v"%char :: map upperAscii (lit "alues:")) in C.
    cbn [map] in C. injection C as E _. cbn [app trimStart].
    now rewrite (values_head_not_white v E). }
  rewrite T, (ciPrefix_complete post C). reflexivity.
Qed.

Lemma tryCode_sound s g :
  tryCode s = Some g ->
  exists r, s = g ++ r /\ (length g = 3 \/ length g = 4)%nat /\
            Forall (fun c => isLetter c = true) g /\ afterCode r = true.
Proof.
  unfold tryCode. destruct s as [|a [|b [|c r]]]; try discriminate.
  destruct (isLetter a) eqn:La; [|discriminate].
  destruct (isLetter b) eqn:Lb; [|discriminate].
  destruct (isLetter c) eqn:Lc; [|discriminate]. cbn [andb].
  destruct r as [|d r']; [discriminate|].
  destruct (isLetter d && afterCode r') eqn:E4.
  - intros H; inversion H; subst. apply andb_true_iff in E4 as [Ld A].
    exists r'. repeat split; [now right | repeat constructor; assumption | exact A].
  - destruct (afterCode (d :: r')) eqn:A; [|discriminate].
    intros H; inversion H; subst.
    exists (d :: r'). repeat split; [now left | repeat constructor; assumption | exact A].
Qed.

Lemma tryCode_complete g r :
  (length g = 3 \/ length g = 4)%nat -> Forall (fun c => isLetter c = true) g ->
  afterCode r = true -> tryCode (g ++ r) = Some g.
Proof.
  intros L F A.
  assert (R : exists w r', r = w :: r' /\ isWhite w = true).
  { unfold afterCode in A. destruct r as [|w r']; [discriminate|].
    apply andb_true_iff in A as [W _]. now exists w, r'. }
  destruct R as (w & r' & -> & W).
  destruct L as [L|L].
  - destruct g as [|a [|b [|c [|? ?]]]]; try discriminate.
    inversion F as [|? ? Fa F1]; subst. inversion F1 as [|? ? Fb F2]; subst.
    inversion F2 as [|? ? Fc _]; subst.
    cbn [app]. unfold tryCode. rewrite Fa, Fb, Fc. cbn [andb].
    rewrite (white_not_letter w W). cbn [andb]. now rewrite A.
  - destruct g as [|a [|b [|c [|d [|? ?]]]]]; try discriminate.
    inversion F as [|? ? Fa F1]; subst. inversion F1 as [|? ? Fb F2]; subst.
    inversion F2 as [|? ? Fc F3]; subst. inversion F3 as [|? ? Fd _]; subst.
    cbn [app]. unfold tryCode. rewrite Fa, Fb, Fc, Fd. cbn [andb]. now rewrite A.
Qed.

Lemma lazyScan_sound s g :
  lazyScan s = Some g ->
  exists mid tail, s = mid ++ "/"%char :: tail /\ tryCode tail = Some g.
Proof.
  induction s as [|c r IH]; cbn [lazyScan]; [discriminate|].
  destruct (Ascii.eqb c "/"%char) eqn:E.
  - apply Ascii.eqb_eq in E; subst c.
    destruct (tryCode r) as [g'|] eqn:T.
    + intros H; inversion H; subst. now exists [], r.
    + intros H. destruct (IH H) as (mid & tail & -> & T'). now exists ("/"%char :: mid), tail.
  - intros H. destruct (IH H) as (mid & tail & -> & T'). now exists (c :: mid), tail.
Qed.

Lemma lazyScan_complete mid tail g :
  tryCode tail = Some g -> exists g', lazyScan (mid ++ "/"%char :: tail) = Some g'.
Proof.
  intros T. induction mid as [|c mid [g' IH]]; cbn [app lazyScan].
  - rewrite Ascii.eqb_refl, T. now exists g.
  - rewrite IH.
    destruct (if Ascii.eqb c "/"%char then tryCode (mid ++ "/"%char :: tail) else None) as [g''|];
      [now exists g'' | now exists g'].
Qed.

Lemma thresholdMatch_sound m g : thresholdMatch m = Some g -> ThresholdShape m g.
Proof.
  induction m as [|c r IH]; cbn [thresholdMatch]; [discriminate|].
  assert (Later : thresholdMatch r = Some g -> ThresholdShape (c :: r) g).
  { intros H. destruct (IH H) as (pre & P & mid & ws & V & post & -> & Rest).
    exists (c :: pre), P, mid, ws, V, post. split; [reflexivity | exact Rest]. }
  destruct (ciPrefix (lit "Threshold identified:") (c :: r)) as [rest|] eqn:C; [|exact Later].
  destruct (lazyScan rest) as [g'|] eqn:S; [|exact Later].
  intros H; inversion H; subst g'.
  apply ciPrefix_sound in C as [P [E CP]].
  apply lazyScan_sound in S as (mid & tail & -> & T).
  apply tryCode_sound in T as (r0 & -> & L & F & A).
  apply afterCode_sound in A as (ws & V & post & -> & N & W & CV).
  exists [], P, mid, ws, V, post. cbn [app]. rewrite E.
  repeat split; assumption.
Qed.

Lemma thresholdMatch_complete m g :
  ThresholdShape m g -> exists g', thresholdMatch m = Some g'.
Proof.
  intros (pre & P & mid & ws & V & post & -> & CP & L & F & N & W & CV).
  assert (T : tryCode (g ++ ws ++ V ++ post) = Some g).
  { apply tryCode_complete; try assumption. now apply afterCode_complete. }
  destruct (@lazyScan_complete mid _ _ T) as [g1 S].
  assert (Here : forall x, x = P ++ mid ++ "/"%char :: g ++ ws ++ V ++ post ->
                           exists g', thresholdMatch x = Some g').
  { intros x ->. destruct P as [|p P']; [discriminate|].
    change ((p :: P') ++ mid ++ "/"%char :: g ++ ws ++ V ++ post)
      with (p :: (P' ++ mid ++ "/"%char :: g ++ ws ++ V ++ post)).
    cbn [thresholdMatch].
    change (p :: (P' ++ mid ++ "/"%char :: g ++ ws ++ V ++ post))
      with ((p :: P') ++ mid ++ "/"%char :: g ++ ws ++ V ++ post).
    rewrite (ciPrefix_complete (mid ++ "/"%char :: g ++ ws ++ V ++ post) CP), S.
    now exists g1. }
  induction pre as [|c pre [g2 IH]]; [now apply Here|].
  cbn [app thresholdMatch]. rewrite IH.
  destruct (ciPrefix (lit "Threshold identified:") _) as [rest|]; [|now exists g2].
  destruct (lazyScan rest) as [g3|]; [now exists g3 | now exists g2].
Qed.

(** X7: what the threshold pattern recognizes.  A message yields a
    request-type code exactly when it holds, somewhere, the text [Threshold
    identified:] in any letter case, later a slash followed by three or four
    letters, then white space and the text [values:] in any letter case; the
    code found is such a run of three or four letters. *)
Theorem thresholdMatch_recognizes (m : str) :
  (forall g, thresholdMatch m = Some g -> ThresholdShape m g) /\
  ((exists g, ThresholdShape m g) <-> exists g, thresholdMatch m = Some g).
Proof.
  split; [intros g; apply thresholdMatch_sound|]. split.
  - intros [g S]. now apply thresholdMatch_complete with g.
  - intros [g H]. exists g. now apply thresholdMatch_sound.
Qed.

(** *** Request types and flags of a Run *)

Lemma existsb_str_In x s : existsb (str_eqb x) s = true <-> In x s.
Proof.
  rewrite existsb_exists. split.
  - intros [y [I E]]. apply str_eqb_eq in E. now subst.
  - intros I. exists x. split; [assumption | apply str_eqb_refl].
Qed.

Lemma fold_setAdd_spec ks : forall acc,
  NoDup acc ->
  NoDup (fold_left (fun acc k => setAdd k acc) ks acc) /\
  forall x, In x (fold_left (fun acc k => setAdd k acc) ks acc) <-> In x acc \/ In x ks.
Proof.
  induction ks as [|k ks IH]; intros acc N; cbn [fold_left].
  - split; [assumption|]. intros x. simpl. tauto.
  - assert (N' : NoDup (setAdd k acc)).
    { unfold setAdd. destruct (existsb (str_eqb k) acc) eqn:E; [assumption|].
      apply NoDup_app; [assumption | constructor; [tauto | constructor] |].
      intros a I [<-|[]]. apply existsb_str_In in I. congruence. }
    destruct (IH _ N') as [N2 M]. split; [assumption|].
    intros x. rewrite M. unfold setAdd.
    destruct (existsb (str_eqb k) acc) eqn:E.
    + apply existsb_str_In in E. simpl. split; [tauto|].
      intros [I|[<-|I]]; tauto.
    + rewrite in_app_iff. simpl. tauto.
Qed.

Lemma firstSeen_spec ks :
  NoDup (firstSeen ks) /\ forall x, In x (firstSeen ks) <-> In x ks.
Proof.
  destruct (@fold_setAdd_spec ks [] (NoDup_nil _)) as [N M]. split; [exact N|].
  intros x. unfold firstSeen. rewrite M. simpl. tauto.
Qed.

Lemma fold_classifyEntry_types es : forall run set,
  snd (fold_left classifyEntry es (run, set))
  = fold_left (fun acc k => setAdd k acc) (entryCodes es) set.
Proof.
  induction es as [|e es IH]; intros run set; [reflexivity|].
  cbn [fold_left]. destruct (classifyEntry (run, set) e) as [r1 s1] eqn:E1.
  rewrite IH. unfold classifyEntry in E1. inversion E1; subst s1. clear E1.
  unfold entryCodes. cbn [flat_map]. rewrite fold_left_app.
  destruct (thresholdMatch (message e)); reflexivity.
Qed.

Lemma requestTypes_classify key data :
  requestTypes (classify (key, data)) = firstSeen (entryCodes (entries data)).
Proof.
  unfold classify, firstSeen.
  match goal with
  | |- context [fold_left classifyEntry ?es (?r, ?s)] =>
      pose proof (fold_classifyEntry_types es r s) as H;
      destruct (fold_left classifyEntry es (r, s)) as [run' set']
  end.
  exact H.
Qed.

Lemma upper_letter c : isLetter c = true -> isUpper (upperAscii c) = true.
Proof.
  destruct c as [[] [] [] [] [] [] [] []]; vm_compute; intros H;
    try reflexivity; discriminate.
Qed.

Lemma In_entryCodes es x :
  In x (entryCodes es) <->
  exists e g, In e es /\ thresholdMatch (message e) = Some g /\ x = toUpperCase g.
Proof.
  unfold entryCodes. rewrite in_flat_map. split.
  - intros [e [I H]]. destruct (thresholdMatch (message e)) as [g|] eqn:T; [|destruct H].
    destruct H as [<-|[]]. now exists e, g.
  - intros (e & g & I & T & ->). exists e. split; [assumption|]. rewrite T. now left.
Qed.

(** X8: the request types of a Run.  They are the codes found in the
    messages of its entries, upper-cased, each listed once in the order of
    first appearance; every one is three or four capital letters A-Z. *)
Theorem requestTypes_are_distinct_codes (key : str) (data : Group) :
  requestTypes (classify (key, data)) = firstSeen (entryCodes (entries data)) /\
  NoDup (requestTypes (classify (key, data))) /\
  Forall (fun x => (length x = 3 \/ length x = 4)%nat /\
                   Forall (fun c => isUpper c = true) x)
         (requestTypes (classify (key, data))) /\
  (forall x, In x (requestTypes (classify (key, data))) <->
             exists e g, In e (entries data) /\
                         thresholdMatch (message e) = Some g /\ x = toUpperCase g).
Proof.
  rewrite requestTypes_classify.
  destruct (firstSeen_spec (entryCodes (entries data))) as [N M].
  split; [reflexivity|]. split; [exact N|]. split.
  - apply Forall_forall. intros x I. apply M, In_entryCodes in I as (e & g & _ & T & ->).
    apply thresholdMatch_sound in T as (_ & _ & _ & _ & _ & _ & _ & _ & L & F & _).
    unfold toUpperCase. rewrite length_map. split; [exact L|].
    apply Forall_map. apply Forall_forall. intros c Ic. rewrite Forall_forall in F.
    now apply upper_letter, F.
  - intros x. rewrite M. apply In_entryCodes.
Qed.

Lemma startsWith_iff p s : startsWith p s = true <-> hasPrefix p s.
Proof.
  unfold hasPrefix. revert s. induction p as [|a p IH]; intros s; cbn [startsWith].
  - split; [intros _; now exists s | reflexivity].
  - destruct s as [|b s].
    + split; [discriminate | intros [r H]; discriminate].
    + rewrite andb_true_iff, Ascii.eqb_eq, IH. split.
      * intros [-> [r ->]]. now exists r.
      * intros [r H]. injection H as -> ->. split; [reflexivity | now exists r].
Qed.

Lemma includes_unfold p s :
  includes p s = startsWith p s || match s with [] => false | _ :: r => includes p r end.
Proof. destruct s; reflexivity. Qed.

Lemma includes_iff p s : includes p s = true <-> hasSubstring p s.
Proof.
  unfold hasSubstring. induction s as [|c s IH]; rewrite includes_unfold, orb_true_iff.
  - rewrite startsWith_iff. unfold hasPrefix. split.
    + intros [[b H]|H]; [|discriminate]. now exists [], b.
    + intros (a & b & H). destruct a; [|discriminate]. left. now exists b.
  - rewrite startsWith_iff, IH. unfold hasPrefix. split.
    + intros [[b H]|(a & b & H)]; [now exists [], b|]. exists (c :: a), b. now rewrite H.
    + intros (a & b & H). destruct a as [|x a].
      * left. now exists b.
      * right. injection H as _ H. now exists a, b.
Qed.

(** X9: what sets each flag of a Run.  A flag is set exactly when some entry
    of the group meets the flag's rule: the intercompany text as a substring
    without the non-intercompany text; the exact auto-approval message; the
    second-approval prefix; the exact error message together with the type
    E; the two missing-owner prefixes; the fallback prefix.  A group whose
    messages all hold the non-intercompany text is never intercompany. *)
Theorem flags_follow_the_rules (key : str) (data : Group) :
  (isIntercompany (classify (key, data)) = true <->
   exists e, In e (entries data) /\ hasSubstring intercompanyText (message e) /\
             ~ hasSubstring nonIntercompanyText (message e)) /\
  (isAutoApproved (classify (key, data)) = true <->
   exists e, In e (entries data) /\ message e = autoApprovalMessage) /\
  (isSecondLevelApproval (classify (key, data)) = true <->
   exists e, In e (entries data) /\ hasPrefix secondLevelApprovalMessage (message e)) /\
  (isErrorTransaction (classify (key, data)) = true <->
   exists e, In e (entries data) /\ message e = errorMessage /\ type e = lit "E") /\
  (isWbsOwnerMissing (classify (key, data)) = true <->
   exists e, In e (entries data) /\ hasPrefix wbsOwnerMissingMessage (message e)) /\
  (isCostCenterOwnerMissing (classify (key, data)) = true <->
   exists e, In e (entries data) /\ hasPrefix costCenterOwnerMissingMessage (message e)) /\
  (isFallbackTransaction (classify (key, data)) = true <->
   exists e, In e (entries data) /\ hasPrefix fallbackMessagePrefix (message e)) /\
  ((forall e, In e (entries data) -> hasSubstring nonIntercompanyText (message e)) ->
   isIntercompany (classify (key, data)) = false).
Proof.
  destruct (classify_fields key data) as (_ & _ & _ & _ & _ & F).
  remember (classify (key, data)) as r eqn:Hr. clear Hr.
  pose proof (f_equal (fun l => nth 0 l false) F) as F1.
  pose proof (f_equal (fun l => nth 1 l false) F) as F2.
  pose proof (f_equal (fun l => nth 2 l false) F) as F3.
  pose proof (f_equal (fun l => nth 3 l false) F) as F4.
  pose proof (f_equal (fun l => nth 4 l false) F) as F5.
  pose proof (f_equal (fun l => nth 5 l false) F) as F6.
  pose proof (f_equal (fun l => nth 6 l false) F) as F7.
  clear F. unfold flags, groupFlags in *. cbn [nth] in *.
  rewrite F1, F2, F3, F4, F5, F6, F7. rewrite !existsb_exists. unfold entryFlags. cbn [nth].
  assert (I1 : (exists x, In x (entries data) /\
                  includes intercompanyText (message x)
                  && negb (includes nonIntercompanyText (message x)) = true) <->
               exists e, In e (entries data) /\ hasSubstring intercompanyText (message e) /\
                         ~ hasSubstring nonIntercompanyText (message e)).
  { split; intros [e [I H]]; exists e; (split; [assumption|]).
    - apply andb_true_iff in H as [H1 H2]. apply negb_true_iff in H2.
      split; [now apply includes_iff|]. intros C. apply includes_iff in C. congruence.
    - destruct H as [H1 H2]. apply andb_true_iff. split; [now apply includes_iff|].
      apply negb_true_iff. destruct (includes nonIntercompanyText (message e)) eqn:E;
        [|reflexivity]. exfalso. now apply H2, includes_iff. }
  split; [exact I1|].
  split. { split; intros [e [I H]]; exists e; (split; [assumption|]); now apply str_eqb_eq. }
  split. { split; intros [e [I H]]; exists e; (split; [assumption|]); now apply startsWith_iff. }
  split.
  { split; intros [e [I H]]; exists e; (split; [assumption|]).
    - apply andb_true_iff in H as [H1 H2]. split; now apply str_eqb_eq.
    - destruct H as [H1 H2]. apply andb_true_iff. split; now apply str_eqb_eq. }
  split. { split; intros [e [I H]]; exists e; (split; [assumption|]); now apply startsWith_iff. }
  split. { split; intros [e [I H]]; exists e; (split; [assumption|]); now apply startsWith_iff. }
  split. { split; intros [e [I H]]; exists e; (split; [assumption|]); now apply startsWith_iff. }
  intros A.
  match goal with |- ?b = false => destruct b eqn:B; [|reflexivity] end.
  exfalso. apply existsb_exists in B. apply I1 in B as (e & I & _ & N). now apply N, A.
Qed.

(** *** Order of the entries *)

Lemma existsb_perm {A} (f : A -> bool) l l' :
  Permutation l l' -> existsb f l = existsb f l'.
Proof.
  induction 1 as [|x l l' _ IH|x y l|l l' l'' _ IH1 _ IH2]; cbn [existsb].
  - reflexivity.
  - now rewrite IH.
  - now rewrite !orb_assoc, (orb_comm (f y)).
  - now rewrite IH1.
Qed.

Lemma groupFlags_perm es es' : Permutation es es' -> groupFlags es = groupFlags es'.
Proof.
  intros P. unfold groupFlags.
  now rewrite !(existsb_perm _ P).
Qed.

Lemma isLatest_unique l l' o o' :
  isLatest l o -> isLatest l' o' -> (forall x, In x l <-> In x l') -> o = o'.
Proof.
  intros H H' E. destruct o as [t|], o' as [t'|]; cbn [isLatest] in *.
  - destruct H as [I M], H' as [I' M']. f_equal.
    apply E in I. apply E in I'. specialize (M _ I'). specialize (M' _ I). lia.
  - destruct H as [I _]. apply E in I. rewrite H' in I. destruct I.
  - destruct H' as [I _]. apply E in I. rewrite H in I. destruct I.
  - reflexivity.
Qed.

Lemma markerTime_perm marker es es' :
  Permutation es es' -> markerTime marker es = markerTime marker es'.
Proof.
  intros P. apply (@isLatest_unique _ _ _ _ (markerTime_latest marker es) (markerTime_latest marker es')).
  intros x. rewrite !In_markerTimes.
  split; intros (e & I & H); exists e; (split; [|exact H]).
  - now apply (Permutation_in _ P).
  - now apply (Permutation_in _ (Permutation_sym P)).
Qed.

Lemma latest_perm ts ts' :
  Permutation ts ts' ->
  (if (0 <? length ts)%nat then maxTime ts else 0)
  = (if (0 <? length ts')%nat then maxTime ts' else 0).
Proof.
  intros P. rewrite <- (Permutation_length P).
  destruct ts as [|t ts0] eqn:T.
  - reflexivity.
  - rewrite <- T in *. assert (N : ts <> []) by (rewrite T; discriminate).
    assert (N' : ts' <> []).
    { intros ->. apply Permutation_sym, Permutation_nil in P. contradiction. }
    replace (0 <? length ts)%nat with true by (rewrite T; reflexivity).
    pose proof (maxTime_In N) as I. pose proof (maxTime_In N') as I'.
    apply (Permutation_in _ P) in I. apply (Permutation_in _ (Permutation_sym P)) in I'.
    apply maxTime_bound in I, I'. lia.
Qed.

(** X10: classification does not depend on the order of the entries.  Two
    groups with the same entries and the same timestamps in different orders
    give Runs with the same flags, start time, end time and transaction
    date, and the same request types up to their order. *)
Theorem classify_order_independent
        (key code : str) (es es' : list Entry) (ts ts' : list Z) :
  Permutation es es' -> Permutation ts ts' ->
  flags (classify (key, mkGroup es code ts)) = flags (classify (key, mkGroup es' code ts')) /\
  startTime (classify (key, mkGroup es code ts))
  = startTime (classify (key, mkGroup es' code ts')) /\
  endTime (classify (key, mkGroup es code ts))
  = endTime (classify (key, mkGroup es' code ts')) /\
  transactionDate (classify (key, mkGroup es code ts))
  = transactionDate (classify (key, mkGroup es' code ts')) /\
  Permutation (requestTypes (classify (key, mkGroup es code ts)))
              (requestTypes (classify (key, mkGroup es' code ts'))).
Proof.
  intros P Q.
  destruct (classify_fields key (mkGroup es code ts)) as (_ & _ & D & S & E & F).
  destruct (classify_fields key (mkGroup es' code ts')) as (_ & _ & D' & S' & E' & F').
  rewrite D, S, E, F, D', S', E', F'. cbn [entries timestamps].
  split; [now apply groupFlags_perm|].
  split; [now apply markerTime_perm|].
  split; [now apply markerTime_perm|].
  split; [now apply latest_perm|].
  rewrite !requestTypes_classify. cbn [entries].
  destruct (firstSeen_spec (entryCodes es)) as [N M].
  destruct (firstSeen_spec (entryCodes es')) as [N' M'].
  apply NoDup_Permutation; [exact N | exact N' |].
  intros x. rewrite M, M', !In_entryCodes.
  split; intros (e & g & I & H); exists e, g; (split; [|exact H]).
  - now apply (Permutation_in _ P).
  - now apply (Permutation_in _ (Permutation_sym P)).
Qed.

Lemma classify_order_independent_witness :
  startTime (classify (lit "D1--US1",
    mkGroup [mkEntry startProcessingMessage (lit "I") (Some 1000);
             mkEntry startProcessingMessage (lit "I") (Some 2000)] (lit "US1") [1000; 2000]))
  = startTime (classify (lit "D1--US1",
    mkGroup [mkEntry startProcessingMessage (lit "I") (Some 2000);
             mkEntry startProcessingMessage (lit "I") (Some 1000)] (lit "US1") [2000; 1000])).
Proof.
  refine (proj1 (proj2 (@classify_order_independent (lit "D1--US1") (lit "US1")
            [mkEntry startProcessingMessage (lit "I") (Some 1000);
             mkEntry startProcessingMessage (lit "I") (Some 2000)]
            [mkEntry startProcessingMessage (lit "I") (Some 2000);
             mkEntry startProcessingMessage (lit "I") (Some 1000)]
            [1000; 2000] [2000; 1000] _ _))); apply perm_swap.
Defined.

End ParserExtras.

(** ** Further properties of the aggregator *)

Module DashboardExtras.

Import JS Parser Dashboard Spec JSFacts GrouperFacts DashboardFacts DashboardClaims.



Lemma finalFilteredRuns_eq st :
  finalFilteredRuns st
  = typeFilter (selectedRequestType st) (codeFilter (selectedCompanyCodes st) (allRuns st)).
Proof.
  unfold finalFilteredRuns, typeFilter, codeFilter, activeRequestType.
  destruct (selectedRequestType st) as [t|]; [|reflexivity]. now destruct (truthy t).
Qed.


Lemma typeFilter_In rt rs r : In r (typeFilter rt rs) -> In r rs.
Proof.
  unfold typeFilter. destruct rt as [t|]; [|tauto].
  destruct (truthy t); [|tauto]. intros I. now apply filter_In in I.
Qed.

Lemma codeFilter_In codes rs r : In r (codeFilter codes rs) -> In r rs.
Proof.
  unfold codeFilter. destruct (0 <? length codes); [|tauto].
  intros I. now apply filter_In in I.
Qed.


(** *** Totals and order of the breakdowns *)

Lemma total_cons k n o : total ((k, n) :: o) = n + total o.
Proof. reflexivity. Qed.

Lemma total_bump k o :
  total (mapSet k (getCount k o + 1) o) = total o + 1.
Proof.
  induction o as [|[k0 n0] o IH]; [reflexivity|].
  cbn [mapSet getCount]. destruct (str_eqb k0 k); rewrite !total_cons; [lia|].
  rewrite IH. lia.
Qed.

Lemma total_foldM ks : forall o o',
  foldM bump ks o = Some o' -> total o' = total o + length ks.
Proof.
  induction ks as [|k ks IH]; intros o o' F; cbn [foldM] in F.
  - inversion F; subst. cbn [length]. lia.
  - unfold bump at 1 in F. destruct (inheritedKey k); [discriminate|].
    apply IH in F. rewrite F, total_bump. cbn [length]. lia.
Qed.

Lemma total_perm a b : Permutation a b -> total a = total b.
Proof.
  induction 1 as [|[k n] l l' _ IH|[k n] [k' n'] l|l l' l'' _ IH1 _ IH2];
    rewrite ?total_cons; lia.
Qed.














(** *** The selected rows and the total *)










(** *** The monthly series *)

Lemma foldM_map {A} (f : A -> str) rs : forall o,
  foldM (fun (o : Counts) (r : A) => bump o (f r)) rs o = foldM bump (map f rs) o.
Proof.
  induction rs as [|r rs IH]; intros o; [reflexivity|].
  cbn [foldM map]. destruct (bump o (f r)); [apply IH | reflexivity].
Qed.

Lemma dash_not_inherited k : In "-"%char k -> inheritedKey k = false.
Proof.
  intros I. destruct (inheritedKey k) eqn:E; [|reflexivity]. exfalso.
  unfold inheritedKey in E. apply existsb_exists in E as [n [M E]].
  apply str_eqb_eq in E. subst n.
  repeat (destruct M as [<-|M];
          [vm_compute in I; repeat (destruct I as [I|I]; [discriminate|]); exact I|]).
  destruct M.
Qed.

Lemma monthKey_dash t : In "-"%char (monthKey t).
Proof. unfold monthKey. apply in_or_app. right. now left. Qed.

Lemma countsOf_of_Counted ks o items :
  Permutation items o -> Counted o ks -> countsOf ks items.
Proof.
  intros P [N C]. split.
  - eapply Permutation_NoDup; [apply Permutation_sym, Permutation_map, P | exact N].
  - intros k n. destruct (C k) as [G HK]. split.
    + intros I. apply (Permutation_in _ P) in I.
      pose proof (@getCount_In o k n N I) as E. rewrite G in E. subst n.
      split; [|reflexivity]. apply HK. change k with (fst (k, occurrences k ks)).
      now apply in_map.
    + intros [L ->]. apply (Permutation_in _ (Permutation_sym P)).
      rewrite <- G. apply In_getCount. now apply HK.
Qed.

Lemma monthOfDay_range l d : (0 <= DateTime.monthOfDay l d <= 11)%Z.
Proof.
  unfold DateTime.monthOfDay.
  repeat match goal with
  | |- context [(?a <? ?b)%Z] => destruct (a <? b)%Z
  end; lia.
Qed.

Lemma month_two_digits t :
  length (padStart 2 "0"%char (decimal (DateTime.MonthFromTime t + 1))) = 2.
Proof.
  unfold DateTime.MonthFromTime.
  pose proof (monthOfDay_range (DateTime.InLeapYear t) (DateTime.DayWithinYear t)) as R.
  revert R. generalize (DateTime.monthOfDay (DateTime.InLeapYear t) (DateTime.DayWithinYear t)).
  intros m R.
  assert (M : (m = 0 \/ m = 1 \/ m = 2 \/ m = 3 \/ m = 4 \/ m = 5 \/ m = 6 \/ m = 7
               \/ m = 8 \/ m = 9 \/ m = 10 \/ m = 11)%Z) by lia.
  destruct M as [->|[->|[->|[->|[->|[->|[->|[->|[->|[->|[->| ->]]]]]]]]]]]; reflexivity.
Qed.

(** X15: the monthly series counts every Run of the effective filtered set
    once, in the bucket of the UTC year and month of its transaction date.
    The series is always produced; its rows are the distinct buckets with
    the number of Runs in each; the counts add up to the size of the set; and
    a bucket's name is the year, a dash and a two-digit month.  This holds
    for every comparison the host's [localeCompare] may implement. *)
Theorem monthlyData_counts_every_run
        (localeCompare : str -> str -> Z) (st : State) (t : Z) :
  (exists items,
     monthlyData localeCompare st = Some items /\
     countsOf (map (fun r => monthKey (transactionDate r)) (finalFilteredRuns st)) items /\
     total items = length (finalFilteredRuns st)) /\
  (exists mm, monthKey t = decimal (DateTime.YearFromTime t) ++ lit "-" ++ mm /\
              length mm = 2).
Proof.
  split.
  - unfold monthlyData. destruct (finalFilteredRuns st) as [|r rs] eqn:E.
    + exists []. split; [reflexivity|]. split; [|reflexivity].
      split; [constructor|]. intros k n. cbn [map In]. unfold occurrences. cbn. lia.
    + change (length (r :: rs) =? 0) with false. cbv iota. rewrite foldM_map.
      assert (F : Forall (fun k => inheritedKey k = false)
                    (map (fun r => monthKey (transactionDate r)) (r :: rs))).
      { apply Forall_forall. intros k I. apply in_map_iff in I as [x [<- _]].
        apply dash_not_inherited, monthKey_dash. }
      destruct (foldM_bump_total [] F) as [o B]. rewrite B. cbn [option_map].
      eexists. split; [reflexivity|].
      assert (P : Permutation
                    (sortBy (fun a b => localeCompare (fst a) (fst b)) (objectEntries o)) o).
      { eapply perm_trans; [apply sortBy_perm | apply objectEntries_perm]. }
      split.
      * apply (countsOf_of_Counted P). exact (Counted_foldM _ Counted_nil B).
      * rewrite (total_perm P), (total_foldM _ _ B), length_map. reflexivity.
  - eexists. split; [reflexivity | apply month_two_digits].
Qed.

(** *** The selection handlers *)

Lemma setHas_In x s : setHas x s = true <-> In x s.
Proof.
  unfold setHas. rewrite existsb_exists. split.
  - intros [y [I E]]. apply str_eqb_eq in E. now subst y.
  - intros I. exists x. split; [exact I | apply str_eqb_refl].
Qed.

Lemma setHas_filter_out c x codes :
  setHas x (filter (fun c' => negb (str_eqb c' c)) codes)
  = negb (str_eqb x c) && setHas x codes.
Proof.
  unfold setHas. induction codes as [|a codes IH]; cbn [filter existsb].
  - now rewrite andb_false_r.
  - destruct (str_eqb a c) eqn:E; cbn [negb existsb]; rewrite IH.
    + apply str_eqb_eq in E. subst a. now destruct (str_eqb x c).
    + destruct (str_eqb x a) eqn:F; [|now rewrite !orb_false_l].
      apply str_eqb_eq in F. subst a. now rewrite E.
Qed.

Lemma setHas_toggle c x st :
  setHas x (selectedCompanyCodes (handleCompanyCodeSelect c st))
  = xorb (str_eqb x c) (setHas x (selectedCompanyCodes st)).
Proof.
  unfold handleCompanyCodeSelect. cbn [selectedCompanyCodes].
  destruct (setHas c (selectedCompanyCodes st)) eqn:H.
  - rewrite setHas_filter_out. destruct (str_eqb x c) eqn:E; [|reflexivity].
    apply str_eqb_eq in E. subst x. now rewrite H.
  - unfold setHas at 1. rewrite existsb_app. cbn [existsb]. rewrite orb_false_r.
    fold (setHas x (selectedCompanyCodes st)).
    destruct (str_eqb x c) eqn:E.
    + apply str_eqb_eq in E. subst x. now rewrite H.
    + now rewrite orb_false_r.
Qed.

Lemma codeFilter_ext codes codes' rs :
  (forall x, setHas x codes = setHas x codes') ->
  codeFilter codes rs = codeFilter codes' rs.
Proof.
  intros H. unfold codeFilter.
  destruct codes as [|a codes], codes' as [|b codes']; cbn [length Nat.ltb Nat.leb].
  - reflexivity.
  - specialize (H b). unfold setHas in H. cbn [existsb] in H.
    now rewrite str_eqb_refl in H.
  - specialize (H a). unfold setHas in H. cbn [existsb] in H.
    now rewrite str_eqb_refl in H.
  - apply filter_ext. intros r. unfold inSelectedCodes.
    destruct (companyCode r); [now rewrite H | reflexivity].
Qed.

Lemma requestTypeBreakdown_codeFilter st :
  requestTypeBreakdown st
  = option_map (fun o => sortBy byCountDesc (objectEntries o))
      (foldM (fun (o : Counts) (run : Run) => foldM bump (requestTypes run) o)
             (codeFilter (selectedCompanyCodes st) (allRuns st)) []).
Proof. reflexivity. Qed.

Lemma NoDup_toggle c st :
  NoDup (selectedCompanyCodes st) ->
  NoDup (selectedCompanyCodes (handleCompanyCodeSelect c st)).
Proof.
  intros N. unfold handleCompanyCodeSelect. cbn [selectedCompanyCodes].
  destruct (setHas c (selectedCompanyCodes st)) eqn:H.
  - now apply NoDup_filter.
  - apply NoDup_app; [exact N | apply NoDup_cons; [intros [] | apply NoDup_nil] |].
    intros x I [<-|[]]. apply setHas_In in I. congruence.
Qed.

(** X16: clicking a company code flips the membership of that code in the
    selection and of no other; clicking it a second time restores every
    view of the page: the effective filtered set, both breakdowns, the
    average processing time and the monthly series. *)
Theorem company_code_toggle (c : str) (st : State) :
  (forall x, setHas x (selectedCompanyCodes (handleCompanyCodeSelect c st))
             = xorb (str_eqb x c) (setHas x (selectedCompanyCodes st))) /\
  finalFilteredRuns (handleCompanyCodeSelect c (handleCompanyCodeSelect c st))
  = finalFilteredRuns st /\
  companyCodeBreakdown (handleCompanyCodeSelect c (handleCompanyCodeSelect c st))
  = companyCodeBreakdown st /\
  requestTypeBreakdown (handleCompanyCodeSelect c (handleCompanyCodeSelect c st))
  = requestTypeBreakdown st /\
  avgProcessingTime (handleCompanyCodeSelect c (handleCompanyCodeSelect c st))
  = avgProcessingTime st /\
  (forall localeCompare,
     monthlyData localeCompare (handleCompanyCodeSelect c (handleCompanyCodeSelect c st))
     = monthlyData localeCompare st).
Proof.
  assert (M : forall x,
             setHas x (selectedCompanyCodes
                         (handleCompanyCodeSelect c (handleCompanyCodeSelect c st)))
             = setHas x (selectedCompanyCodes st)).
  { intros x. rewrite !setHas_toggle. now destruct (str_eqb x c), (setHas x _). }
  assert (F : finalFilteredRuns (handleCompanyCodeSelect c (handleCompanyCodeSelect c st))
              = finalFilteredRuns st).
  { rewrite !finalFilteredRuns_eq. rewrite (@codeFilter_ext _ _ _ M). reflexivity. }
  split; [intros x; apply setHas_toggle|].
  split; [exact F|].
  split; [reflexivity|].
  split.
  { rewrite !requestTypeBreakdown_codeFilter. rewrite (@codeFilter_ext _ _ _ M). reflexivity. }
  split.
  { unfold avgProcessingTime. now rewrite F. }
  intros lc. unfold monthlyData. now rewrite F.
Qed.

(** X17: clicking a request type selects it, unless it is the selected one,
    which clears the selection.  So two clicks on the same type restore the
    effective filtered set only when that type was selected or none was; a
    different type selected before is lost, and what remains is the
    company-code view. *)
Theorem request_type_toggle (t : str) (st : State) :
  selectedRequestType (handleRequestTypeSelect t st)
  = (if match selectedRequestType st with Some u => str_eqb u t | None => false end
     then None else Some t) /\
  finalFilteredRuns (handleRequestTypeSelect t (handleRequestTypeSelect t st))
  = (if match selectedRequestType st with Some u => str_eqb u t | None => false end
     then finalFilteredRuns st
     else codeFilter (selectedCompanyCodes st) (allRuns st)) /\
  finalFilteredRuns (handleResetRequestType st)
  = codeFilter (selectedCompanyCodes st) (allRuns st).
Proof.
  split; [|split].
  - unfold handleRequestTypeSelect. cbn [selectedRequestType].
    destruct (selectedRequestType st) as [u|]; [|reflexivity].
    now destruct (str_eqb u t).
  - rewrite !finalFilteredRuns_eq. unfold handleRequestTypeSelect.
    cbn [selectedRequestType selectedCompanyCodes allRuns].
    destruct (selectedRequestType st) as [u|].
    + destruct (str_eqb u t) eqn:E.
      * apply str_eqb_eq in E. now subst u.
      * now rewrite str_eqb_refl.
    + now rewrite str_eqb_refl.
  - rewrite finalFilteredRuns_eq. reflexivity.
Qed.

Lemma act_allRuns st a : allRuns (act st a) = allRuns st.
Proof. now destruct a. Qed.

Lemma act_NoDup st a :
  NoDup (selectedCompanyCodes st) -> NoDup (selectedCompanyCodes (act st a)).
Proof.
  intros N. destruct a; cbn [act]; try exact N.
  - now apply NoDup_toggle.
  - apply NoDup_nil.
Qed.

Lemma acts_inv acts : forall st,
  NoDup (selectedCompanyCodes st) ->
  allRuns (fold_left act acts st) = allRuns st /\
  NoDup (selectedCompanyCodes (fold_left act acts st)).
Proof.
  induction acts as [|a acts IH]; intros st N; [now split|].
  cbn [fold_left]. destruct (IH (act st a) (@act_NoDup st a N)) as [A D].
  split; [now rewrite A, act_allRuns | exact D].
Qed.

(** X18: whatever the user clicks, in whatever order, starting from a
    freshly loaded page (no company code and no request type selected): the
    loaded Runs stay as they are, the selection of company codes never holds
    a code twice, the effective filtered set holds loaded Runs only, and
    resetting the selection shows all of them again. *)
Theorem selection_after_any_actions (runs : list Run) (acts : list Action) :
  allRuns (fold_left act acts (mkState runs [] None)) = runs /\
  NoDup (selectedCompanyCodes (fold_left act acts (mkState runs [] None))) /\
  incl (finalFilteredRuns (fold_left act acts (mkState runs [] None))) runs /\
  finalFilteredRuns (handleResetSelection (fold_left act acts (mkState runs [] None)))
  = runs.
Proof.
  destruct (@acts_inv acts (mkState runs [] None) (NoDup_nil _)) as [A D].
  cbn [allRuns] in A.
  split; [exact A|]. split; [exact D|]. split.
  - intros r I. rewrite finalFilteredRuns_eq in I.
    apply typeFilter_In, codeFilter_In in I. now rewrite A in I.
  - rewrite finalFilteredRuns_eq. unfold handleResetSelection.
    cbn [selectedRequestType selectedCompanyCodes allRuns typeFilter codeFilter length Nat.ltb Nat.leb].
    exact A.
Qed.

End DashboardExtras.

(** ** From the file to the page: the exports and the totals *)

Module PipelineExtras.

Import JS Parser Dashboard Spec JSFacts TimestampFacts GrouperFacts GroupingInvariant.
Import ClassifierFacts DashboardFacts ParserClaims TokenizerExtras DashboardExtras.

Lemma csvSplit_In s : forall p x, In p (csvSplit s) -> In x p -> In x s.
Proof.
  induction s as [|y r IH]; intros p x Ip Ix; cbn [csvSplit] in Ip.
  - destruct Ip as [<-|[]]. destruct Ix.
  - destruct (Ascii.eqb y comma && Nat.even (countQuotes r)).
    + destruct Ip as [<-|Ip]; [destruct Ix|]. right. now apply (IH p).
    + destruct (csvSplit r) as [|h t] eqn:E.
      * destruct Ip as [<-|[]]. destruct Ix as [<-|[]]. now left.
      * destruct Ip as [<-|Ip].
        -- destruct Ix as [<-|Ix]; [now left|]. right. apply (IH h); [now left | assumption].
        -- right. apply (IH p); [now right | assumption].
Qed.

Lemma collapseQuotes_In_bounded n : forall s x,
  length s <= n -> In x (collapseQuotes s) -> In x s.
Proof.
  induction n as [|n IH]; intros s x L I.
  - destruct s; [destruct I | cbn [length] in L; lia].
  - destruct s as [|a [|b r']]; [destruct I | exact I |].
    cbn [length] in L.
    change (collapseQuotes (a :: b :: r'))
      with (if Ascii.eqb a dquote && Ascii.eqb b dquote
            then dquote :: collapseQuotes r'
            else a :: collapseQuotes (b :: r')) in I.
    destruct (Ascii.eqb a dquote && Ascii.eqb b dquote) eqn:E.
    + apply andb_true_iff in E as [E _]. apply Ascii.eqb_eq in E. subst a.
      destruct I as [<-|I]; [now left|]. right. right. apply IH; [lia | exact I].
    + destruct I as [<-|I]; [now left|]. right.
      apply IH; [cbn [length]; lia | exact I].
Qed.

Lemma cleanField_In f x : In x (cleanField f) -> In x f.
Proof.
  unfold cleanField. destruct (_ && _); intros I.
  - apply (@collapseQuotes_In_bounded _ _ _ (le_n _)) in I.
    unfold substring in I. apply In_firstn, In_skipn in I. now apply In_trim.
  - now apply In_trim.
Qed.

Lemma field_In line n x : In x (trim (nth n (parseCsvLine line) [])) -> In x line.
Proof.
  intros I. apply In_trim in I.
  destruct (nth_in_or_default n (parseCsvLine line) []) as [H|H];
    [|exfalso; cut (In x []); [intros [] | rewrite <- H; exact I]].
  unfold parseCsvLine in H, I. apply in_map_iff in H as [p [E P]].
  rewrite <- E in I. apply cleanField_In in I. exact (csvSplit_In _ _ _ P I).
Qed.

(** A key is made of characters of its row and of dashes. *)
Lemma riKey_In c line i x :
  rowInfo c line = Some i -> In x (riKey i) -> x = "-"%char \/ In x line.
Proof.
  unfold rowInfo.
  destruct (_ || _ || _ || _ || _); [discriminate|].
  destruct (_ && _); [|discriminate].
  intros E. injection E as <-. unfold riKey, makeKey, dash.
  cbn [riDocumentId riDocVer riCompanyCode].
  intros I. repeat (apply in_app_or in I as [I|I]).
  - right. now apply field_In in I.
  - left. destruct I as [<-|[]]. reflexivity.
  - right. destruct (docVerIndex c) as [n|]; [|destruct I].
    destruct (nth_error (parseCsvLine line) n) as [f|] eqn:N; [|destruct I].
    apply In_trim in I. apply nth_error_In in N.
    unfold parseCsvLine in N. apply in_map_iff in N as [p [E P]].
    rewrite <- E in I. apply cleanField_In in I. exact (csvSplit_In _ _ _ P I).
  - left. destruct I as [<-|[]]. reflexivity.
  - right. now apply field_In in I.
Qed.

Lemma splitLines_no_LF_bounded n : forall s l,
  length s <= n -> In l (splitLines s) -> ~ In LF l.
Proof.
  induction n as [|n IH]; intros s l L I.
  - destruct s; [|cbn [length] in L; lia]. destruct I as [<-|[]]. intros [].
  - destruct s as [|c r]; [destruct I as [<-|[]]; intros []|].
    cbn [length] in L. cbn [splitLines] in I.
    destruct (Ascii.eqb c LF) eqn:E1.
    { destruct I as [<-|I]; [intros []|]. apply (IH r); [lia | exact I]. }
    apply Ascii.eqb_neq in E1.
    destruct r as [|d r'].
    { destruct I as [<-|[]]. intros [H|[]]. now apply E1. }
    destruct (Ascii.eqb c CR && Ascii.eqb d LF).
    { destruct I as [<-|I]; [intros []|].
      apply (IH r'); [cbn [length] in L; lia | exact I]. }
    fold (splitLines (d :: r')) in I.
    destruct (splitLines (d :: r')) as [|h t] eqn:S.
    { destruct I as [<-|[]]. intros [H|[]]. now apply E1. }
    destruct I as [<-|I].
    + intros [H|H]; [now apply E1|].
      apply (IH (d :: r') h); [lia | rewrite S; now left | exact H].
    + apply (IH (d :: r')); [lia | rewrite S; now right].
Qed.

Lemma splitOn_sep c l rest :
  ~ In c l -> splitOn c (l ++ c :: rest) = l :: splitOn c rest.
Proof.
  intros N. induction l as [|x l IH]; cbn [app splitOn].
  - now rewrite Ascii.eqb_refl.
  - assert (E : Ascii.eqb x c = false).
    { apply Ascii.eqb_neq. intros ->. apply N. now left. }
    rewrite E, IH; [reflexivity|]. intros I. apply N. now right.
Qed.

Lemma splitOn_one c l : ~ In c l -> splitOn c l = [l].
Proof.
  intros N. induction l as [|x l IH]; [reflexivity|]. cbn [splitOn].
  assert (E : Ascii.eqb x c = false).
  { apply Ascii.eqb_neq. intros ->. apply N. now left. }
  rewrite E, IH; [reflexivity|]. intros I. apply N. now right.
Qed.

Lemma splitOn_joinLF keys :
  keys <> [] -> Forall (fun k => ~ In LF k) keys -> splitOn LF (joinLF keys) = keys.
Proof.
  induction keys as [|k keys IH]; intros NE F; [congruence|].
  inversion F as [|? ? K F']; subst.
  destruct keys as [|k' keys'].
  - cbn [joinLF]. now apply splitOn_one.
  - change (joinLF (k :: k' :: keys')) with (k ++ LF :: joinLF (k' :: keys')).
    rewrite splitOn_sep by exact K. rewrite IH; [reflexivity | discriminate | exact F'].
Qed.

Lemma downloadContent_lines keys :
  Forall (fun k => ~ In LF k) keys ->
  (downloadContent keys = None <-> keys = []) /\
  (forall text, downloadContent keys = Some text -> splitOn LF text = keys).
Proof.
  intros F. unfold downloadContent. destruct keys as [|k keys].
  - split; [tauto | discriminate].
  - destruct (length (k :: keys) =? 0) eqn:Z; [discriminate Z|]. split.
    + split; discriminate.
    + intros text E.
      injection E as E. rewrite <- E.
      change (splitOn LF (joinLF (k :: keys)) = k :: keys).
      apply splitOn_joinLF; [discriminate | exact F].
Qed.

(** What the parser guarantees of every Run it hands to the page. *)
Lemma parsed_run fileContent runs r :
  processLogFile fileContent = Runs runs -> In r runs ->
  hasCode r = true /\ ~ In LF (uniqueKey r).
Proof.
  intros H I. apply processLogFile_runsOf in H as [c ->].
  apply runsOf_inv in I as [k [-> NE]].
  destruct (classify_fields k (groupOf k (rowInfos c (skipn 1 (linesOf fileContent)))))
    as (K & C & _).
  destruct (withKey k (rowInfos c (skipn 1 (linesOf fileContent)))) as [|i rest] eqn:W;
    [congruence|].
  pose proof W as W'. apply withKey_hd in W' as [Ii Ki].
  apply rowInfos_inv in Ii as [row [Ir R]].
  split.
  - unfold hasCode. rewrite C. cbn [groupOf coCd]. unfold firstCode. rewrite W.
    apply rowInfo_codes in R as [_ R]. now destruct (riCompanyCode i).
  - rewrite K, <- Ki. intros L. apply (@riKey_In _ _ _ _ R) in L as [L|L]; [discriminate|].
    apply In_skipn in Ir. unfold linesOf in Ir. apply filter_In in Ir as [Ir _].
    exact (@splitLines_no_LF_bounded _ _ _ (le_n _) Ir L).
Qed.


(** X19: each export is a text with one line per Run.  For the Runs of a
    parsed file and any selection, the download of all keys and the download
    of the keys of any flag offer nothing exactly when there is no Run to
    list; otherwise splitting the text at the line feeds gives back the
    keys of the listed Runs, in their order, so the flag export has as many
    lines as the counter of that flag shows. *)
Theorem download_one_line_per_run
        (fileContent : str) (runs : list Run) (codes : list str) (rt : option str)
        (flag : Run -> bool) :
  processLogFile fileContent = Runs runs ->
  (handleDownload (mkState runs codes rt) = None
   <-> finalFilteredRuns (mkState runs codes rt) = []) /\
  (forall text, handleDownload (mkState runs codes rt) = Some text ->
     splitOn LF text = map uniqueKey (finalFilteredRuns (mkState runs codes rt))) /\
  (handleFlagDownload flag (mkState runs codes rt) = None
   <-> countWhere flag (mkState runs codes rt) = 0) /\
  (forall text, handleFlagDownload flag (mkState runs codes rt) = Some text ->
     splitOn LF text
     = map uniqueKey (filter flag (finalFilteredRuns (mkState runs codes rt))) /\
     length (splitOn LF text) = countWhere flag (mkState runs codes rt)).
Proof.
  intros H.
  assert (F : Forall (fun k => ~ In LF k)
                (map uniqueKey (finalFilteredRuns (mkState runs codes rt)))).
  { apply Forall_forall. intros k I. apply in_map_iff in I as [r [<- I]].
    rewrite finalFilteredRuns_eq in I. apply typeFilter_In, codeFilter_In in I.
    exact (proj2 (@parsed_run _ _ _ H I)). }
  assert (G : Forall (fun k => ~ In LF k)
                (map uniqueKey (filter flag (finalFilteredRuns (mkState runs codes rt))))).
  { apply Forall_forall. intros k I. apply in_map_iff in I as [r [<- I]].
    apply filter_In in I as [I _].
    rewrite Forall_forall in F. apply F. now apply in_map. }
  destruct (downloadContent_lines F) as [F1 F2].
  destruct (downloadContent_lines G) as [G1 G2].
  unfold handleDownload, handleFlagDownload, countWhere.
  split; [|split; [exact F2|split]].
  - rewrite F1. split; [apply map_eq_nil | intros ->; reflexivity].
  - rewrite G1. rewrite <- length_zero_iff_nil, length_map. reflexivity.
  - intros text E. specialize (G2 text E). split; [exact G2|].
    now rewrite G2, length_map.
Qed.

Lemma download_one_line_per_run_witness :
  exists runs,
    processLogFile (fileOf [sampleHeader; scenarioRow1; scenarioRow2]) = Runs runs /\
    forall text, handleDownload (mkState runs [] None) = Some text ->
      splitOn LF text = map uniqueKey (finalFilteredRuns (mkState runs [] None)).
Proof.
  eexists. split; [vm_compute; reflexivity|].
  refine (proj1 (proj2 (@download_one_line_per_run
            (fileOf [sampleHeader; scenarioRow1; scenarioRow2]) _ [] None
            isAutoApproved _))).
  vm_compute. reflexivity.
Defined.



End PipelineExtras.

(** ** More on the timestamp normalizer *)

Module TimestampExtras.

Import JS Parser Spec DateTime DateFacts TimestampFacts TimestampClaims.

Lemma filter_twice {A} (f : A -> bool) l : filter f (filter f l) = filter f l.
Proof.
  induction l as [|x l IH]; [reflexivity|]. cbn [filter].
  destruct (f x) eqn:F; [cbn [filter]; now rewrite F, IH | exact IH].
Qed.

Lemma parseTimestamp_numeric ts : parseTimestamp ts = parseTimestamp (numericString ts).
Proof. unfold parseTimestamp, numericString. now rewrite filter_twice. Qed.

(** X24: the normalizer reads the digits and the decimal points of a field
    and nothing else.  Two fields that agree once every other character is
    dropped (dashes, colons, blanks, letters) give the same result. *)
Theorem parseTimestamp_reads_digits_and_dots (ts ts' : str) :
  numericString ts = numericString ts' -> parseTimestamp ts = parseTimestamp ts'.
Proof.
  intros H. rewrite (parseTimestamp_numeric ts), H. symmetry. apply parseTimestamp_numeric.
Qed.

Lemma parseTimestamp_reads_digits_and_dots_witness :
  parseTimestamp (lit "2024-01-15 10:30:45") = parseTimestamp (lit "20240115103045").
Proof. apply parseTimestamp_reads_digits_and_dots. reflexivity. Defined.

Lemma parseTimestamp_valid_civil_witness :
  exists t, parseTimestamp (lit "20240115103045.123") = Some t /\
            civilOf t = readCivil (lit "20240115103045.123").
Proof.
  apply parseTimestamp_valid_civil.
  - vm_compute. lia.
  - vm_compute. repeat split; discriminate.
  - vm_compute. discriminate.
Defined.

End TimestampExtras.
